(** * User-data synchronisation: the auto-sync coordinator and the
      extensions synchroniser

    A shallow embedding of
    - [UserDataAutoSyncService] (the auto-sync coordinator: enablement,
      trigger rate limit, back-off, classification of a finished cycle), and
    - [ExtensionsSynchroniser] (push, apply, local apply with its skip list,
      schema migration, formatting, [hasLocalData]),
    followed by the properties established for them.

    Asynchronous methods are embedded as state-passing functions that run to
    completion; a rejected promise is the [Throw] result.  Calls to the log
    service have no effect on the modelled state and are left out. *)

From Stdlib Require Import ZArith List String Ascii Bool Lia.
From Stdlib Require Import Permutation Sorted.
Import ListNotations.

Set Implicit Arguments.

(** ** Exceptions *)

(** A JavaScript [Error], identified by its message. *)
Definition Error := string.

(** Outcome of a call that may throw (of an awaited promise that may
    reject). *)
Inductive result (A : Type) : Type :=
| Ok (a : A)
| Throw (e : Error).

Arguments Ok {A} a.
Arguments Throw {A} e.

Definition threw {A} (r : result A) : bool :=
  match r with Ok _ => false | Throw _ => true end.

(** ** The auto-sync coordinator *)

Module AutoSyncService.

Local Open Scope string_scope.
Local Open Scope Z_scope.

(** The error codes the coordinator tells apart; every other member of the
    enumeration is an [OtherCode]. *)
Inductive UserDataSyncErrorCode : Type :=
| TurnedOff
| SessionExpired
| LocalTooManyRequests
| OtherCode (name : string).

Record UserDataSyncError : Type := {
  code : UserDataSyncErrorCode;
  message : string
}.

Definition RESOURCE_ENABLEMENT_SOURCE : string := "resourceEnablement".

(** Calls that leave the coordinator, in the order they are made. *)
Inductive Effect : Type :=
| SetEnablement (enabled : bool)   (* userDataSyncEnablementService.setEnablement *)
| ServiceResetLocal                (* userDataSyncService.resetLocal() *)
| ServiceStop                      (* userDataSyncService.stop() *)
| ServiceSync (reason : string)    (* userDataSyncService.sync(), from AutoSync.sync *)
| FireOnError (e : UserDataSyncError)   (* this._onError.fire *)
| PublicLog (sources : list string).    (* telemetry 'sync/triggered' *)

(** [class AutoSync]: the interval and whether [start()] ran (which
    registers the disposable calling [userDataSyncService.stop()]).  The
    interval timer that re-arms the loop after each cycle is outside of what
    is modelled. *)
Record AutoSync : Type := {
  interval : Z;
  started : bool
}.

(** The coordinator's fields, the two collaborators whose state it reads
    (enablement flag, token), the wall clock read by [new Date().getTime()]
    and the trace of outgoing calls. *)
Record Service : Type := {
  enablement : bool;
  token : bool;
  autoSync : option AutoSync;
  successiveFailures : nat;
  lastSyncTriggerTime : option Z;
  sources : list string;
  syncTriggerDelayer : option Z;
  clock : Z;
  trace : list Effect
}.

Definition set_enablement (b : bool) (st : Service) : Service :=
  {| enablement := b; token := token st; autoSync := autoSync st;
     successiveFailures := successiveFailures st;
     lastSyncTriggerTime := lastSyncTriggerTime st; sources := sources st;
     syncTriggerDelayer := syncTriggerDelayer st; clock := clock st;
     trace := trace st |}.

Definition set_autoSync (a : option AutoSync) (st : Service) : Service :=
  {| enablement := enablement st; token := token st; autoSync := a;
     successiveFailures := successiveFailures st;
     lastSyncTriggerTime := lastSyncTriggerTime st; sources := sources st;
     syncTriggerDelayer := syncTriggerDelayer st; clock := clock st;
     trace := trace st |}.

Definition set_successiveFailures (n : nat) (st : Service) : Service :=
  {| enablement := enablement st; token := token st; autoSync := autoSync st;
     successiveFailures := n;
     lastSyncTriggerTime := lastSyncTriggerTime st; sources := sources st;
     syncTriggerDelayer := syncTriggerDelayer st; clock := clock st;
     trace := trace st |}.

Definition set_lastSyncTriggerTime (t : option Z) (st : Service) : Service :=
  {| enablement := enablement st; token := token st; autoSync := autoSync st;
     successiveFailures := successiveFailures st;
     lastSyncTriggerTime := t; sources := sources st;
     syncTriggerDelayer := syncTriggerDelayer st; clock := clock st;
     trace := trace st |}.

Definition set_sources (l : list string) (st : Service) : Service :=
  {| enablement := enablement st; token := token st; autoSync := autoSync st;
     successiveFailures := successiveFailures st;
     lastSyncTriggerTime := lastSyncTriggerTime st; sources := l;
     syncTriggerDelayer := syncTriggerDelayer st; clock := clock st;
     trace := trace st |}.

Definition set_syncTriggerDelayer (d : option Z) (st : Service) : Service :=
  {| enablement := enablement st; token := token st; autoSync := autoSync st;
     successiveFailures := successiveFailures st;
     lastSyncTriggerTime := lastSyncTriggerTime st; sources := sources st;
     syncTriggerDelayer := d; clock := clock st;
     trace := trace st |}.

Definition emit (e : Effect) (st : Service) : Service :=
  {| enablement := enablement st; token := token st; autoSync := autoSync st;
     successiveFailures := successiveFailures st;
     lastSyncTriggerTime := lastSyncTriggerTime st; sources := sources st;
     syncTriggerDelayer := syncTriggerDelayer st; clock := clock st;
     trace := trace st ++ [e] |}.

(** [isAutoSyncEnabled]: the flag and the reason. *)
Definition isAutoSyncEnabled (st : Service) : bool * option string :=
  if negb (enablement st) then (false, Some "sync is disabled")
  else if negb (token st) then (false, Some "token is not avaialable")
  else (true, None).

(** [AutoSync.sync(reason)] up to the awaited service call: fires
    [onDidStartSync] (whose listener stores the time) and asks the service
    to sync.  The end of the cycle comes back later as [onDidFinishSync]. *)
Definition autoSync_sync (reason : string) (st : Service) : Service :=
  emit (ServiceSync reason)
       (set_lastSyncTriggerTime (Some (clock st)) st).

(** Modelled from the spec: the enablement service and the trigger delayer
    are not part of the sources at hand.  [setEnablement] stores the flag
    that [isEnabled] reads back; the delayer holds at most one pending call
    with its delay, replaced by [trigger] and cleared by [cancel]. *)
Definition setEnablement (b : bool) (st : Service) : Service :=
  emit (SetEnablement b) (set_enablement b st).

(** Modelled from the spec: [Delayer.cancel()] of vs/base/common/async
    clears the pending call. *)
Definition delayer_cancel (st : Service) : Service :=
  set_syncTriggerDelayer None st.

(** Modelled from the spec: [Delayer.trigger(task, delay)] of
    vs/base/common/async replaces the pending call and its delay. *)
Definition delayer_trigger (delay : Z) (st : Service) : Service :=
  set_syncTriggerDelayer (Some delay) st.

(** [updateAutoSync]. [startAutoSync()] is [true] outside of tests. *)
Definition updateAutoSync (st : Service) : Service :=
  let '(enabled, _) := isAutoSyncEnabled st in
  if enabled then
    match autoSync st with
    | None =>
        let a := {| interval := 1000 * 60 * 5; started := true |} in
        autoSync_sync "Interval" (set_autoSync (Some a) st)
    | Some _ => st
    end
  else
    let st := delayer_cancel st in
    match autoSync st with
    | Some a =>
        (* this.autoSync.clear() disposes the AutoSync *)
        let st := set_autoSync None st in
        if started a then emit ServiceStop st else st
    | None => st
    end.

Definition enable (st : Service) : Service :=
  updateAutoSync (setEnablement true st).

Definition disable (st : Service) : Service :=
  updateAutoSync (setEnablement false st).

Section Handlers.

(** [UserDataSyncError.toUserDataSyncError], the outcome of the awaited
    [userDataSyncService.resetLocal()] and the table [ALL_SYNC_RESOURCES]
    are declared outside of this class. *)
Variable toUserDataSyncError : Error -> UserDataSyncError.
Variable resetLocal : Service -> result unit.
Variable ALL_SYNC_RESOURCES : list string.

(** [onDidFinishSync(error)]. *)
Definition onDidFinishSync (error : option Error) (st : Service)
  : result unit * Service :=
  match error with
  | None => (Ok tt, set_successiveFailures 0 st)
  | Some err =>
      let userDataSyncError := toUserDataSyncError err in
      match code userDataSyncError with
      | TurnedOff | SessionExpired =>
          let st1 := emit ServiceResetLocal st in
          match resetLocal st with
          | Throw x => (Throw x, st1)
          | Ok _ => (Ok tt, emit (FireOnError userDataSyncError) (disable st1))
          end
      | LocalTooManyRequests =>
          (Ok tt, emit (FireOnError userDataSyncError) (disable st))
      | OtherCode _ =>
          (Ok tt, emit (FireOnError userDataSyncError)
                       (set_successiveFailures (S (successiveFailures st)) st))
      end
  end.

(** What [triggerAutoSync] returns: the delayer's [cancel()], the bare
    [return] of the rate limit, or the delayer's [trigger(task, delay)]. *)
Inductive TriggerOutcome : Type :=
| Cancelled
| Skipped
| Scheduled (delay : Z).

(** [sources.indexOf(s) === -1] is [negb (includes s sources)]. *)
Definition includes (s : string) (l : list string) : bool :=
  existsb (String.eqb s) l.

Definition hasToLimitSync (srcs : list string) : bool :=
  negb (includes RESOURCE_ENABLEMENT_SOURCE srcs)
  && forallb (fun syncResource => negb (includes syncResource srcs))
             ALL_SYNC_RESOURCES.

(** [Math.round(ms / 1000)] on a whole number of milliseconds: halves go
    up. *)
Definition Math_round_seconds (ms : Z) : Z := (ms + 500) / 1000.

(** Truthiness of [this.lastSyncTriggerTime]: [undefined] and [0] are
    falsy. *)
Definition truthyTime (t : option Z) : bool :=
  match t with
  | Some v => negb (v =? 0)
  | None => false
  end.

Definition secondsSinceLastTrigger (st : Service) : Z :=
  match lastSyncTriggerTime st with
  | Some t => Math_round_seconds (clock st - t)
  | None => 0
  end.

(** The delay handed to the delayer.  [Math.pow(2, n)] is exact on the
    doubles while finite and infinite afterwards; either way the minimum
    with 60 is the one computed here. *)
Definition triggerDelay (failures : nat) : Z :=
  match failures with
  | O => 1000
  | S _ => 1000 * 1 * Z.min (2 ^ Z.of_nat failures) 60
  end.

(** [triggerAutoSync(sources)]. *)
Definition triggerAutoSync (srcs : list string) (st : Service)
  : TriggerOutcome * Service :=
  match autoSync st with
  | None => (Cancelled, delayer_cancel st)
  | Some _ =>
      if hasToLimitSync srcs
         && truthyTime (lastSyncTriggerTime st)
         && (secondsSinceLastTrigger st <? 10)
      then (Skipped, st)
      else
        let st := set_sources (sources st ++ srcs) st in
        let delay := triggerDelay (successiveFailures st) in
        (Scheduled delay, delayer_trigger delay st)
  end.

(** The callback run by the delayer once the delay has elapsed. *)
Definition runTrigger (st : Service) : Service :=
  let st := set_syncTriggerDelayer None st in
  let st := emit (PublicLog (sources st)) st in
  let st := set_sources [] st in
  match autoSync st with
  | Some _ => autoSync_sync "Activity" st
  | None => st
  end.

End Handlers.

(** The [userDataSyncService.stop()] call made when a started loop is
    disposed. *)
Definition stopOf (a : option AutoSync) : list Effect :=
  match a with
  | Some x => if started x then [ServiceStop] else []
  | None => []
  end.

(** *** Sample data *)

(** A running coordinator whose last cycle started at time 1000000. *)
Definition sampleService (failures : nat) (now : Z) : Service :=
  {| enablement := true; token := true;
     autoSync := Some {| interval := 300000; started := true |};
     successiveFailures := failures;
     lastSyncTriggerTime := Some 1000000;
     sources := ["extensions"];
     syncTriggerDelayer := None;
     clock := now;
     trace := [] |}.

Definition sampleResources : list string :=
  ["settings"; "keybindings"; "extensions"].

(** A normalisation that reads the code off the message. *)
Definition sampleToUserDataSyncError (err : Error) : UserDataSyncError :=
  {| code :=
       if String.eqb err "TurnedOff" then TurnedOff
       else if String.eqb err "SessionExpired" then SessionExpired
       else if String.eqb err "LocalTooManyRequests" then LocalTooManyRequests
       else OtherCode err;
     message := err |}.

Definition resetLocalSucceeds (_ : Service) : result unit := Ok tt.

Definition resetLocalFails (_ : Service) : result unit := Throw "reset failed".

End AutoSyncService.

(** ** The extensions synchroniser *)

Module ExtensionsSync.

Local Open Scope string_scope.

(** *** Data *)

Record IExtensionIdentifier : Type := {
  id : string;
  uuid : option string
}.

Inductive ExtensionType : Type := System | User.

Record ILocalExtension : Type := {
  l_identifier : IExtensionIdentifier;
  type : ExtensionType;
  manifest_version : string
}.

Record IGalleryExtension : Type := {
  g_identifier : IExtensionIdentifier;
  g_version : string
}.

(** [ISyncExtension]; [enabled] is the field that only version-1 payloads
    carry (read through [<any>extension] by the migration). *)
Record ISyncExtension : Type := {
  identifier : IExtensionIdentifier;
  version : option string;
  disabled : option bool;
  installed : option bool;
  enabled : option bool
}.

Record ISyncData : Type := {
  sd_version : Z;
  machineId : option string;
  content : string
}.

Record IRemoteUserData : Type := {
  ref : string;
  syncData : option ISyncData
}.

Record ILastSyncUserData : Type := {
  ls_ref : string;
  ls_syncData : option ISyncData;
  ls_skippedExtensions : option (list ISyncExtension)
}.

Record IMergeResult : Type := {
  m_added : list ISyncExtension;
  m_removed : list IExtensionIdentifier;
  m_updated : list ISyncExtension;
  m_remote : option (list ISyncExtension)
}.

Inductive SyncStatus : Type := Idle | Syncing.

(** [IExtensionsSyncPreviewResult] *)
Record IExtensionsSyncPreviewResult : Type := {
  localExtensions : list ISyncExtension;
  remoteUserData : IRemoteUserData;
  lastSyncUserData : option ILastSyncUserData;
  added : list ISyncExtension;
  removed : list IExtensionIdentifier;
  updated : list ISyncExtension;
  remote : option (list ISyncExtension);
  skippedExtensions : list ISyncExtension;
  hasLocalChanged : bool;
  hasRemoteChanged : bool;
  isLastSyncFromCurrentMachine : bool
}.

(** *** Truthiness and strings *)

(** [x.disabled] and [x.installed] used as conditions. *)
Definition truthy (o : option bool) : bool :=
  match o with
  | Some true => true
  | _ => false
  end.

(** [identifier.uuid] used as a condition: absent and empty are falsy. *)
Definition truthyString (o : option string) : bool :=
  match o with
  | Some (String _ _) => true
  | _ => false
  end.

Definition nonEmpty {A} (l : list A) : bool :=
  match l with
  | [] => false
  | _ :: _ => true
  end.

(** Modelled from the spec: the folding of case under which two extension
    ids are compared (see [areSameExtensions]); extension ids are made of
    ASCII letters, digits, dots and dashes, and the folding acts on the
    ASCII letters. *)
Definition foldCaseAscii (c : ascii) : ascii :=
  let n := nat_of_ascii c in
  if Nat.leb 65 n && Nat.leb n 90 then ascii_of_nat (n + 32) else c.

Fixpoint foldCase (s : string) : string :=
  match s with
  | EmptyString => EmptyString
  | String c s' => String (foldCaseAscii c) (foldCase s')
  end.

Definition optionStringEqb (a b : option string) : bool :=
  match a, b with
  | Some x, Some y => String.eqb x y
  | None, None => true
  | _, _ => false
  end.

(** Modelled from the spec: [areSameExtensions] lives in
    extensionManagementUtil, which is not part of the sources at hand.
    Identity equality is exact on [uuid] when both sides have one, and
    case-insensitive on [id] otherwise. *)
Definition areSameExtensions (a b : IExtensionIdentifier) : bool :=
  if truthyString (uuid a) && truthyString (uuid b)
  then optionStringEqb (uuid a) (uuid b)
  else String.eqb (foldCase (id a)) (foldCase (id b)).

(** Modelled from the spec: [compare] of vs/base/common/strings, the
    lexicographic comparison of two strings. *)
Definition compare (a b : string) : comparison := String.compare a b.

(** *** [format]: the order of the formatted text *)

(** The comparator handed to [extensions.sort]. *)
Definition formatCompare (e1 e2 : ISyncExtension) : comparison :=
  if negb (truthyString (uuid (identifier e1)))
     && truthyString (uuid (identifier e2)) then Lt
  else if truthyString (uuid (identifier e1))
          && negb (truthyString (uuid (identifier e2))) then Gt
  else compare (id (identifier e1)) (id (identifier e2)).

(** [Array.prototype.sort] is stable; the stable arrangement of a list
    under a comparator is unique, here computed by insertion. *)
Fixpoint sortInsert (cmp : ISyncExtension -> ISyncExtension -> comparison)
         (x : ISyncExtension) (l : list ISyncExtension) : list ISyncExtension :=
  match l with
  | [] => [x]
  | y :: l' =>
      match cmp x y with
      | Gt => y :: sortInsert cmp x l'
      | _ => x :: l
      end
  end.

Fixpoint Array_sort (cmp : ISyncExtension -> ISyncExtension -> comparison)
         (l : list ISyncExtension) : list ISyncExtension :=
  match l with
  | [] => []
  | x :: l' => sortInsert cmp x (Array_sort cmp l')
  end.

(** *** The skip list computed at the end of [updateLocalExtensions] *)

(** First loop: entries of the old skip list that no applied or removed
    identity matches. *)
Definition retainSkipped (skipped : list ISyncExtension)
           (removeFromSkipped : list IExtensionIdentifier) : list ISyncExtension :=
  filter (fun skippedExtension =>
            negb (existsb (fun e => areSameExtensions e (identifier skippedExtension))
                          removeFromSkipped))
         skipped.

(** Second loop: each newly skipped item is pushed unless an entry with its
    identity is there already. *)
Fixpoint pushSkipped (newSkippedExtensions addToSkipped : list ISyncExtension)
  : list ISyncExtension :=
  match addToSkipped with
  | [] => newSkippedExtensions
  | skippedExtension :: rest =>
      if existsb (fun e => areSameExtensions (identifier e)
                                             (identifier skippedExtension))
                 newSkippedExtensions
      then pushSkipped newSkippedExtensions rest
      else pushSkipped (newSkippedExtensions ++ [skippedExtension]) rest
  end.

Definition newSkippedExtensions (skipped : list ISyncExtension)
           (removeFromSkipped : list IExtensionIdentifier)
           (addToSkipped : list ISyncExtension) : list ISyncExtension :=
  pushSkipped (retainSkipped skipped removeFromSkipped) addToSkipped.

(** *** Migration of one stored item *)

Definition set_disabled (d : option bool) (e : ISyncExtension) : ISyncExtension :=
  {| identifier := identifier e; version := version e; disabled := d;
     installed := installed e; enabled := enabled e |}.

Definition set_installed (i : option bool) (e : ISyncExtension) : ISyncExtension :=
  {| identifier := identifier e; version := version e; disabled := disabled e;
     installed := i; enabled := enabled e |}.

Definition delete_enabled (e : ISyncExtension) : ISyncExtension :=
  {| identifier := identifier e; version := version e; disabled := disabled e;
     installed := installed e; enabled := None |}.

(** [enabled === false] *)
Definition enabledIsFalse (e : ISyncExtension) : bool :=
  match enabled e with
  | Some false => true
  | _ => false
  end.

(** The body of the loop over the parsed items. *)
Definition migrateExtension (version : Z)
           (systemExtensions : list ILocalExtension)
           (extension : ISyncExtension) : ISyncExtension :=
  let extension :=
    if (version =? 1)%Z then
      delete_enabled (if enabledIsFalse extension
                      then set_disabled (Some true) extension
                      else extension)
    else extension in
  if (version =? 2)%Z then
    if forallb (fun installed =>
                  negb (areSameExtensions (l_identifier installed)
                                          (identifier extension)))
               systemExtensions
    then set_installed (Some true) extension
    else extension
  else extension.

(** *** Collaborators *)

(** The calls the synchroniser makes, as recorded in the log. *)
Inductive Event : Type :=
| EvSetStatus (s : SyncStatus)
| EvGetInstalled (t : option ExtensionType)
| EvGetDisabledExtensions
| EvUninstall (e : ILocalExtension)
| EvDisableExtension (i : IExtensionIdentifier)
| EvEnableExtension (i : IExtensionIdentifier)
| EvGetCompatibleExtension (i : IExtensionIdentifier) (v : option string)
| EvInstallFromGallery (g : IGalleryExtension)
| EvBackupLocal (content : string)
| EvGetLastSyncUserData
| EvGetRemoteUserData (lastSync : option ILastSyncUserData)
| EvIsLastSyncFromCurrentMachine
| EvUpdateRemoteUserData (content : string) (ref : option string)
| EvUpdateLastSyncUserData (remoteUserData : IRemoteUserData)
                           (skipped : list ISyncExtension).

(** Everything the class reaches that is declared elsewhere: the extension
    management, gallery and enablement services, the methods inherited from
    [AbstractSynchroniser], [merge] and [getIgnoredExtensions] of
    extensionsMerge, and [JSON].  [W] is the state of the world these act
    on.  [resolutionOrder] is the order in which the services settle the
    promises that callbacks running side by side are waiting for (see
    [Promise_all_map]): the code does not fix it. *)
Record Host (W : Type) : Type := {
  getInstalled : option ExtensionType -> W -> result (list ILocalExtension) * W;
  uninstall : ILocalExtension -> W -> result unit * W;
  installFromGallery : IGalleryExtension -> W -> result unit * W;
  getCompatibleExtension :
    IExtensionIdentifier -> option string -> W
    -> result (option IGalleryExtension) * W;
  getDisabledExtensions : W -> result (list IExtensionIdentifier) * W;
  disableExtension : IExtensionIdentifier -> W -> result unit * W;
  enableExtension : IExtensionIdentifier -> W -> result unit * W;
  isEnabled : W -> bool;
  backupLocal : string -> W -> result unit * W;
  getLastSyncUserData : W -> result (option ILastSyncUserData) * W;
  getRemoteUserData :
    option ILastSyncUserData -> W -> result IRemoteUserData * W;
  isLastSyncFromCurrentMachine_ :
    IRemoteUserData -> W -> result bool * W;
  updateRemoteUserData :
    string -> option string -> W -> result IRemoteUserData * W;
  updateLastSyncUserData :
    IRemoteUserData -> list ISyncExtension -> W -> result unit * W;
  merge :
    list ISyncExtension -> option (list ISyncExtension)
    -> option (list ISyncExtension) -> list ISyncExtension -> list string
    -> IMergeResult;
  getIgnoredExtensions : list ILocalExtension -> W -> list string;
  JSON_stringify : list ISyncExtension -> string;
  JSON_parse : string -> result (list ISyncExtension);
  resolutionOrder : W -> list nat
}.

(** *** State and the monad of the methods *)

(** The world, the log of calls, and the two arrays that the callbacks of
    [updateLocalExtensions] push to. *)
Record St (W : Type) : Type := {
  world : W;
  log : list Event;
  removeFromSkipped : list IExtensionIdentifier;
  addToSkipped : list ISyncExtension
}.

Definition M (W A : Type) : Type := St W -> result A * St W.

Definition ret {W A} (a : A) : M W A := fun s => (Ok a, s).

Definition bind {W A B} (m : M W A) (k : A -> M W B) : M W B :=
  fun s =>
    match m s with
    | (Ok a, s') => k a s'
    | (Throw e, s') => (Throw e, s')
    end.

Notation "x <- m ;; k" := (bind m (fun x => k))
  (at level 61, m at next level, right associativity).

Notation "m ;;; k" := (bind m (fun _ => k))
  (at level 61, right associativity).

(** [try { body } catch (error) { handler }] *)
Definition try_catch {W A} (body : M W A) (handler : Error -> M W A) : M W A :=
  fun s =>
    match body s with
    | (Ok a, s') => (Ok a, s')
    | (Throw e, s') => handler e s'
    end.

(** [try { body } finally { final }] *)
Definition try_finally {W A} (body : M W A) (final : M W unit) : M W A :=
  fun s =>
    match body s with
    | (r, s') =>
        match final s' with
        | (Ok _, s'') => (r, s'')
        | (Throw e, s'') => (Throw e, s'')
        end
    end.

(** A call to a collaborator: logged, then answered by the host. *)
Definition call {W A} (ev : Event) (f : W -> result A * W) : M W A :=
  fun s =>
    match f (world s) with
    | (r, w) =>
        (r, {| world := w; log := log s ++ [ev];
               removeFromSkipped := removeFromSkipped s;
               addToSkipped := addToSkipped s |})
    end.

(** A call that is only logged. *)
Definition note {W} (ev : Event) : M W unit :=
  fun s =>
    (Ok tt, {| world := world s; log := log s ++ [ev];
               removeFromSkipped := removeFromSkipped s;
               addToSkipped := addToSkipped s |}).

Definition liftResult {W A} (r : result A) : M W A := fun s => (r, s).

Definition removeFromSkipped_push {W} (i : IExtensionIdentifier) : M W unit :=
  fun s =>
    (Ok tt, {| world := world s; log := log s;
               removeFromSkipped := removeFromSkipped s ++ [i];
               addToSkipped := addToSkipped s |}).

Definition addToSkipped_push {W} (e : ISyncExtension) : M W unit :=
  fun s =>
    (Ok tt, {| world := world s; log := log s;
               removeFromSkipped := removeFromSkipped s;
               addToSkipped := addToSkipped s ++ [e] |}).

(** [const removeFromSkipped = []; const addToSkipped = [];] *)
Definition freshArrays {W} : M W unit :=
  fun s =>
    (Ok tt, {| world := world s; log := log s;
               removeFromSkipped := []; addToSkipped := [] |}).

(** *** Callbacks that run side by side *)

(** An [async] callback between two turns: it has settled, or it is
    suspended at an [await] and goes on, from the state it then finds, when
    it is resumed. *)
#[local] Unset Elimination Schemes.

Inductive Task (W A : Type) : Type :=
| Settled (r : result A)
| Suspended (resume : St W -> Task W A * St W).

#[local] Set Elimination Schemes.

Arguments Settled {W A} r.
Arguments Suspended {W A} resume.

(** The body of an [async] function: run from a state, it goes as far as
    its next [await]. *)
Definition Async (W A : Type) : Type := St W -> Task W A * St W.

(** Code of the body that does not wait. *)
Definition now {W A} (m : M W A) : Async W A :=
  fun s => match m s with (r, s') => (Settled r, s') end.

(** [await m]: the call is made at once and the body is suspended; the
    outcome of the call, a value or an exception, is handed over when the
    body is resumed. *)
Definition await {W A} (m : M W A) : Async W A :=
  fun s =>
    match m s with
    | (r, s') => (Suspended (fun s'' => (Settled r, s'')), s')
    end.

Fixpoint andThen {W A B} (t : Task W A) (k : A -> Async W B) (s : St W)
  : Task W B * St W :=
  match t with
  | Settled (Ok a) => k a s
  | Settled (Throw e) => (Settled (Throw e), s)
  | Suspended resume =>
      (Suspended (fun s' =>
                    match resume s' with
                    | (t', s'') => andThen t' k s''
                    end), s)
  end.

(** Sequencing inside an [async] body. *)
Definition abind {W A B} (p : Async W A) (k : A -> Async W B) : Async W B :=
  fun s => match p s with (t, s') => andThen t k s' end.

Notation "x <~ p ;; k" := (abind p (fun x => k))
  (at level 61, p at next level, right associativity).

Notation "p ;;~ k" := (abind p (fun _ => k))
  (at level 61, right associativity).

Fixpoint orElse {W A} (t : Task W A) (handler : Error -> Async W A) (s : St W)
  : Task W A * St W :=
  match t with
  | Settled (Ok a) => (Settled (Ok a), s)
  | Settled (Throw e) => handler e s
  | Suspended resume =>
      (Suspended (fun s' =>
                    match resume s' with
                    | (t', s'') => orElse t' handler s''
                    end), s)
  end.

(** [try { body } catch (error) { handler }] inside an [async] body. *)
Definition atry_catch {W A} (body : Async W A) (handler : Error -> Async W A)
  : Async W A :=
  fun s => match body s with (t, s') => orElse t handler s' end.

(** A task resumed again and again with nothing else running in between. *)
Fixpoint finish {W A} (t : Task W A) (s : St W) : result A * St W :=
  match t with
  | Settled r => (r, s)
  | Suspended resume => match resume s with (t', s') => finish t' s' end
  end.

(** An [async] body run on its own, as the awaited call of a caller that
    does nothing else meanwhile. *)
Definition alone {W A} (p : Async W A) : M W A :=
  fun s => match p s with (t, s') => finish t s' end.

(** [items.map(callback)]: the callbacks are called one after the other, in
    the order of the list, and each runs as far as its first [await]. *)
Fixpoint startAll {W A} (callback : A -> Async W unit) (items : list A)
         (s : St W) : list (Task W unit) * St W :=
  match items with
  | [] => ([], s)
  | x :: rest =>
      match callback x s with
      | (t, s1) =>
          match startAll callback rest s1 with
          | (ts, s2) => (t :: ts, s2)
          end
      end
  end.

(** The first of the started callbacks that has rejected already. *)
Fixpoint firstRejection {W} (ts : list (Task W unit)) : option Error :=
  match ts with
  | [] => None
  | Settled (Throw e) :: _ => Some e
  | _ :: rest => firstRejection rest
  end.

(** The started callbacks that are suspended, in the order of the list. *)
Fixpoint suspended {W} (ts : list (Task W unit))
  : list (Async W unit) :=
  match ts with
  | [] => []
  | Suspended resume :: rest => resume :: suspended rest
  | Settled _ :: rest => suspended rest
  end.

(** The [n]-th entry of a pool, counted from 0, and the others; a number
    past the end names the last entry. *)
Fixpoint pick {X : Type} (n : nat) (pool : list X) {struct pool}
  : option (X * list X) :=
  match pool with
  | [] => None
  | r :: rest =>
      match n with
      | O => Some (r, rest)
      | S n' =>
          match pick n' rest with
          | Some (r', rest') => Some (r', r :: rest')
          | None => Some (r, rest)
          end
      end
  end.

(** The suspended callbacks of a pool resumed one after the other, each up
    to its end, until one rejects. *)
Fixpoint drain {W} (pool : list (Async W unit)) (s : St W)
  : result unit * list (Async W unit) * St W :=
  match pool with
  | [] => (Ok tt, [], s)
  | resume :: rest =>
      match finish (Suspended resume) s with
      | (Ok _, s') => drain rest s'
      | (Throw e, s') => (Throw e, rest, s')
      end
  end.

(** The pool holds the suspended callbacks, the one suspended longest
    first.  Each number of [order] names the callback whose awaited promise
    is settled next: that callback is resumed, runs as far as its next
    [await] and goes to the end of the pool, or settles.  The first
    rejection ends the wait, with the callbacks still suspended left over;
    the wait ends well when no callback is left.  When [order] is used up,
    the pool is drained. *)
Fixpoint resolveAll {W} (order : list nat)
         (pool : list (Async W unit)) (s : St W)
  : result unit * list (Async W unit) * St W :=
  match order with
  | [] => drain pool s
  | n :: order' =>
      match pick n pool with
      | None => (Ok tt, [], s)
      | Some (resume, rest) =>
          match resume s with
          | (Settled (Ok _), s') => resolveAll order' rest s'
          | (Settled (Throw e), s') => (Throw e, rest, s')
          | (Suspended resume', s') => resolveAll order' (rest ++ [resume']) s'
          end
      end
  end.

(** [Promise.all(items.map(callback))] with what it leaves behind: the
    outcome, the callbacks that are still suspended when it settles (they go
    on later, when their promises are settled), and the state. *)
Definition Promise_all_run {W A} (order : W -> list nat)
           (callback : A -> Async W unit) (items : list A) (s : St W)
  : result unit * list (Async W unit) * St W :=
  match startAll callback items s with
  | (tasks, s1) =>
      match firstRejection tasks with
      | Some e => (Throw e, suspended tasks, s1)
      | None => resolveAll (order (world s1)) (suspended tasks) s1
      end
  end.

(** [await Promise.all(items.map(async item => ...))]: every callback is
    started, in the order of the list; the callbacks then take turns at
    their awaits, in the order in which their promises are settled; the
    awaited promise rejects with the first rejection, at the moment it
    happens, and is fulfilled when every callback has completed. *)
Definition Promise_all_map {W A} (order : W -> list nat)
           (callback : A -> Async W unit) (items : list A) : M W unit :=
  fun s =>
    match Promise_all_run order callback items s with
    | (r, _, s') => (r, s')
    end.

(** *** The methods *)

Section Synchroniser.

Context {W : Type} (H : Host W).

Definition setStatus (s : SyncStatus) : M W unit := note (EvSetStatus s).

(** [getLocalExtensions(installedExtensions)] *)
Definition toSyncExtension (disabledExtensions : list IExtensionIdentifier)
           (x : ILocalExtension) : ISyncExtension :=
  {| identifier := l_identifier x;
     version := None;
     disabled :=
       if existsb (fun disabledExtension =>
                     areSameExtensions disabledExtension (l_identifier x))
                  disabledExtensions
       then Some true else None;
     installed := match type x with User => Some true | System => None end;
     enabled := None |}.

Definition getLocalExtensions (installedExtensions : list ILocalExtension)
  : M W (list ISyncExtension) :=
  disabledExtensions <- call EvGetDisabledExtensions (getDisabledExtensions H) ;;
  ret (map (toSyncExtension disabledExtensions) installedExtensions).

(** [parseExtensions(syncData)] *)
Definition parseExtensions (syncData : ISyncData) : M W (list ISyncExtension) :=
  liftResult (JSON_parse H (content syncData)).

(** [parseAndMigrateExtensions(syncData)] *)
Definition parseAndMigrateExtensions (syncData : ISyncData)
  : M W (list ISyncExtension) :=
  extensions <- parseExtensions syncData ;;
  if ((sd_version syncData =? 1) || (sd_version syncData =? 2))%Z then
    systemExtensions <-
      call (EvGetInstalled (Some System)) (getInstalled H (Some System)) ;;
    ret (map (migrateExtension (sd_version syncData) systemExtensions) extensions)
  else ret extensions.

(** [format(extensions)]: the array as it is serialized, sorted; the text
    is its serialization (the formatting edits only change white space). *)
Definition formatSorted (extensions : list ISyncExtension) : list ISyncExtension :=
  Array_sort formatCompare extensions.

Definition format (extensions : list ISyncExtension) : string :=
  JSON_stringify H (formatSorted extensions).

(** [hasLocalData()] *)
Definition hasLocalData : M W bool :=
  try_catch
    (installedExtensions <- call (EvGetInstalled None) (getInstalled H None) ;;
     localExtensions <- getLocalExtensions installedExtensions ;;
     ret (existsb (fun e => truthy (installed e) || truthy (disabled e))
                  localExtensions))
    (fun _ => ret false).

(** The callback of the first [Promise.all], over the extensions to
    remove, as one run without interruption. *)
Definition uninstallExtension (extensionToRemove : ILocalExtension) : M W unit :=
  call (EvUninstall extensionToRemove) (uninstall H extensionToRemove) ;;;
  removeFromSkipped_push (l_identifier extensionToRemove).

Definition isSystemExtension (installedExtension : option ILocalExtension) : bool :=
  match installedExtension with
  | Some x => match type x with System => true | User => false end
  | None => false
  end.

(** [!installedExtension || installedExtension.manifest.version !== extension.version] *)
Definition hasToInstall (installedExtension : option ILocalExtension)
           (extension : IGalleryExtension) : bool :=
  match installedExtension with
  | None => true
  | Some x => negb (String.eqb (manifest_version x) (g_version extension))
  end.

Definition setEnablementOf (e : ISyncExtension) (i : IExtensionIdentifier)
  : M W unit :=
  if truthy (disabled e)
  then call (EvDisableExtension i) (disableExtension H i)
  else call (EvEnableExtension i) (enableExtension H i).

(** The body of the [try] block, for an item the gallery resolved. *)
Definition enableAndInstall (e : ISyncExtension)
           (installedExtension : option ILocalExtension)
           (extension : IGalleryExtension) : M W unit :=
  setEnablementOf e (g_identifier extension) ;;;
  if hasToInstall installedExtension extension then
    call (EvInstallFromGallery extension) (installFromGallery H extension) ;;;
    removeFromSkipped_push (g_identifier extension)
  else ret tt.

(** The callback of the second [Promise.all], over [...added, ...updated],
    as one run without interruption. *)
Definition syncExtension (e : ISyncExtension) : M W unit :=
  installedExtensions <- call (EvGetInstalled None) (getInstalled H None) ;;
  let installedExtension :=
    hd_error (filter (fun installed =>
                        areSameExtensions (l_identifier installed) (identifier e))
                     installedExtensions) in
  if isSystemExtension installedExtension then
    setEnablementOf e (identifier e) ;;;
    removeFromSkipped_push (identifier e)
  else
    extension <-
      call (EvGetCompatibleExtension (identifier e) (version e))
           (getCompatibleExtension H (identifier e) (version e)) ;;
    match extension with
    | Some extension =>
        try_catch (enableAndInstall e installedExtension extension)
                  (fun _ => addToSkipped_push e)
    | None => addToSkipped_push e
    end.

(** The two callbacks as [async] bodies, with their awaits; run on their
    own they are [uninstallExtension] and [syncExtension]. *)
Definition uninstallExtensionAsync (extensionToRemove : ILocalExtension)
  : Async W unit :=
  await (call (EvUninstall extensionToRemove) (uninstall H extensionToRemove)) ;;~
  now (removeFromSkipped_push (l_identifier extensionToRemove)).

Definition enableAndInstallAsync (e : ISyncExtension)
           (installedExtension : option ILocalExtension)
           (extension : IGalleryExtension) : Async W unit :=
  await (setEnablementOf e (g_identifier extension)) ;;~
  if hasToInstall installedExtension extension then
    await (call (EvInstallFromGallery extension)
                (installFromGallery H extension)) ;;~
    now (removeFromSkipped_push (g_identifier extension))
  else now (ret tt).

(** The callback of an item once the listing it awaits is there. *)
Definition syncListed (e : ISyncExtension)
           (installedExtensions : list ILocalExtension) : Async W unit :=
  let installedExtension :=
    hd_error (filter (fun installed =>
                        areSameExtensions (l_identifier installed) (identifier e))
                     installedExtensions) in
  if isSystemExtension installedExtension then
    await (setEnablementOf e (identifier e)) ;;~
    now (removeFromSkipped_push (identifier e))
  else
    extension <~
      await (call (EvGetCompatibleExtension (identifier e) (version e))
                  (getCompatibleExtension H (identifier e) (version e))) ;;
    match extension with
    | Some extension =>
        atry_catch (enableAndInstallAsync e installedExtension extension)
                   (fun _ => now (addToSkipped_push e))
    | None => now (addToSkipped_push e)
    end.

Definition syncExtensionAsync (e : ISyncExtension) : Async W unit :=
  installedExtensions <~
    await (call (EvGetInstalled None) (getInstalled H None)) ;;
  syncListed e installedExtensions.

(** [updateLocalExtensions(added, removed, updated, skippedExtensions)] *)
Definition updateLocalExtensions (added : list ISyncExtension)
           (removed : list IExtensionIdentifier)
           (updated skippedExtensions : list ISyncExtension)
  : M W (list ISyncExtension) :=
  freshArrays ;;;
  (if nonEmpty removed then
     installedExtensions <-
       call (EvGetInstalled (Some User)) (getInstalled H (Some User)) ;;
     let extensionsToRemove :=
       filter (fun x => existsb (fun r => areSameExtensions (l_identifier x) r)
                                removed)
              installedExtensions in
     Promise_all_map (resolutionOrder H) uninstallExtensionAsync
                     extensionsToRemove
   else ret tt) ;;;
  (if nonEmpty added || nonEmpty updated
   then Promise_all_map (resolutionOrder H) syncExtensionAsync
                        (added ++ updated)
   else ret tt) ;;;
  fun s =>
    (Ok (newSkippedExtensions skippedExtensions (removeFromSkipped s)
                              (addToSkipped s)), s).

(** [lastSyncUserData?.ref !== remoteUserData.ref] *)
Definition refDiffers (lastSyncUserData : option ILastSyncUserData)
           (remoteUserData : IRemoteUserData) : bool :=
  match lastSyncUserData with
  | None => true
  | Some l => negb (String.eqb (ls_ref l) (ref remoteUserData))
  end.

(** [apply(preview, forcePush)], in its three steps.  First, when the
    local state has to change: the backup and [updateLocalExtensions], whose
    result replaces [skippedExtensions]. *)
Definition applyLocal (p : IExtensionsSyncPreviewResult)
  : M W (list ISyncExtension) :=
  if hasLocalChanged p then
    call (EvBackupLocal (JSON_stringify H (localExtensions p)))
         (backupLocal H (JSON_stringify H (localExtensions p))) ;;;
    updateLocalExtensions (added p) (removed p) (updated p)
                          (skippedExtensions p)
  else ret (skippedExtensions p).

(** Second, [if (remote)]: the write, whose result replaces
    [remoteUserData]. *)
Definition applyRemote (p : IExtensionsSyncPreviewResult) (forcePush : bool)
  : M W IRemoteUserData :=
  match remote p with
  | Some remote =>
      let content := JSON_stringify H remote in
      let expected := if forcePush then None
                      else Some (ref (remoteUserData p)) in
      call (EvUpdateRemoteUserData content expected)
           (updateRemoteUserData H content expected)
  | None => ret (remoteUserData p)
  end.

(** Third, [if (lastSyncUserData?.ref !== remoteUserData.ref)]. *)
Definition applyLastSync (p : IExtensionsSyncPreviewResult)
           (remoteUserData : IRemoteUserData)
           (skippedExtensions : list ISyncExtension) : M W unit :=
  if refDiffers (lastSyncUserData p) remoteUserData then
    call (EvUpdateLastSyncUserData remoteUserData skippedExtensions)
         (updateLastSyncUserData H remoteUserData skippedExtensions)
  else ret tt.

Definition apply (p : IExtensionsSyncPreviewResult) (forcePush : bool) : M W unit :=
  skippedExtensions <- applyLocal p ;;
  remoteUserData <- applyRemote p forcePush ;;
  applyLastSync p remoteUserData skippedExtensions.

Definition previewOf (m : IMergeResult) (remote : option (list ISyncExtension))
           (hasRemoteChanged : bool)
           (remoteUserData : IRemoteUserData)
           (localExtensions skippedExtensions : list ISyncExtension)
           (lastSyncUserData : option ILastSyncUserData)
           (fromCurrentMachine : bool) : IExtensionsSyncPreviewResult :=
  {| localExtensions := localExtensions;
     remoteUserData := remoteUserData;
     lastSyncUserData := lastSyncUserData;
     added := m_added m;
     removed := m_removed m;
     updated := m_updated m;
     remote := remote;
     skippedExtensions := skippedExtensions;
     hasLocalChanged :=
       nonEmpty (m_added m) || nonEmpty (m_removed m) || nonEmpty (m_updated m);
     hasRemoteChanged := hasRemoteChanged;
     isLastSyncFromCurrentMachine := fromCurrentMachine |}.

Definition isSome {A} (o : option A) : bool :=
  match o with Some _ => true | None => false end.

(** [this.isEnabled()], read from the world. *)
Definition readIsEnabled : M W bool := fun s => (Ok (isEnabled H (world s)), s).

Definition readIgnoredExtensions (installedExtensions : list ILocalExtension)
  : M W (list string) :=
  fun s => (Ok (getIgnoredExtensions H installedExtensions (world s)), s).

(** [push()] ([stop()] has an empty body) *)
Definition push : M W unit :=
  isEnabled <- readIsEnabled ;;
  if negb isEnabled then ret tt
  else
    try_finally
      (setStatus Syncing ;;;
       installedExtensions <- call (EvGetInstalled None) (getInstalled H None) ;;
       localExtensions <- getLocalExtensions installedExtensions ;;
       ignoredExtensions <- readIgnoredExtensions installedExtensions ;;
       let m := merge H localExtensions None None [] ignoredExtensions in
       lastSyncUserData <- call EvGetLastSyncUserData (getLastSyncUserData H) ;;
       remoteUserData <-
         call (EvGetRemoteUserData lastSyncUserData)
              (getRemoteUserData H lastSyncUserData) ;;
       apply (previewOf m (m_remote m) (isSome (m_remote m)) remoteUserData
                        localExtensions [] lastSyncUserData false)
             true)
      (setStatus Idle).

(** [pull()] *)
Definition pull : M W unit :=
  isEnabled <- readIsEnabled ;;
  if negb isEnabled then ret tt
  else
    try_finally
      (setStatus Syncing ;;;
       lastSyncUserData <- call EvGetLastSyncUserData (getLastSyncUserData H) ;;
       remoteUserData <-
         call (EvGetRemoteUserData lastSyncUserData)
              (getRemoteUserData H lastSyncUserData) ;;
       match syncData remoteUserData with
       | Some remoteSyncData =>
           installedExtensions <-
             call (EvGetInstalled None) (getInstalled H None) ;;
           localExtensions <- getLocalExtensions installedExtensions ;;
           remoteExtensions <- parseAndMigrateExtensions remoteSyncData ;;
           ignoredExtensions <- readIgnoredExtensions installedExtensions ;;
           let m := merge H localExtensions (Some remoteExtensions)
                          (Some localExtensions) [] ignoredExtensions in
           apply (previewOf m (m_remote m) (isSome (m_remote m)) remoteUserData
                            localExtensions [] lastSyncUserData false)
                 false
       | None => ret tt
       end)
      (setStatus Idle).

(** [performReplace(syncData, remoteUserData, lastSyncUserData)] *)
Definition performReplace (syncData : ISyncData)
           (remoteUserData : IRemoteUserData)
           (lastSyncUserData : option ILastSyncUserData) : M W unit :=
  installedExtensions <- call (EvGetInstalled None) (getInstalled H None) ;;
  localExtensions <- getLocalExtensions installedExtensions ;;
  syncExtensions <- parseAndMigrateExtensions syncData ;;
  ignoredExtensions <- readIgnoredExtensions installedExtensions ;;
  let m := merge H localExtensions (Some syncExtensions)
                 (Some localExtensions) [] ignoredExtensions in
  apply (previewOf m (Some syncExtensions) true remoteUserData
                   localExtensions [] lastSyncUserData false)
        false.

(** [generatePreview(remoteUserData, lastSyncUserData)] *)
Definition generatePreview (remoteUserData : IRemoteUserData)
           (lastSyncUserData : option ILastSyncUserData)
  : M W IExtensionsSyncPreviewResult :=
  remoteExtensions <-
    (match syncData remoteUserData with
     | Some d => r <- parseAndMigrateExtensions d ;; ret (Some r)
     | None => ret None
     end) ;;
  let skippedExtensions :=
    match lastSyncUserData with
    | Some l => match ls_skippedExtensions l with Some sk => sk | None => [] end
    | None => []
    end in
  fromCurrentMachine <-
    call EvIsLastSyncFromCurrentMachine
         (isLastSyncFromCurrentMachine_ H remoteUserData) ;;
  lastSyncExtensions <-
    (match lastSyncUserData with
     | None =>
         if (fromCurrentMachine : bool) then
           match syncData remoteUserData with
           | Some d => r <- parseAndMigrateExtensions d ;; ret (Some r)
           | None => liftResult (Throw "Cannot read property of null")
           end
         else ret None
     | Some l =>
         match ls_syncData l with
         | Some d => r <- parseAndMigrateExtensions d ;; ret (Some r)
         | None => liftResult (Throw "Cannot read property of null")
         end
     end) ;;
  installedExtensions <- call (EvGetInstalled None) (getInstalled H None) ;;
  localExtensions <- getLocalExtensions installedExtensions ;;
  ignoredExtensions <- readIgnoredExtensions installedExtensions ;;
  let m := merge H localExtensions remoteExtensions lastSyncExtensions
                 skippedExtensions ignoredExtensions in
  ret (previewOf m (m_remote m) (isSome (m_remote m)) remoteUserData
                 localExtensions skippedExtensions lastSyncUserData
                 fromCurrentMachine).

(** [performSync(remoteUserData, lastSyncUserData)] *)
Definition performSync (remoteUserData : IRemoteUserData)
           (lastSyncUserData : option ILastSyncUserData) : M W SyncStatus :=
  previewResult <- generatePreview remoteUserData lastSyncUserData ;;
  apply previewResult false ;;;
  ret Idle.

End Synchroniser.

(** *** Notions used to state the properties *)

(** The installed extension that the callback of [updateLocalExtensions]
    finds for an item. *)
Definition installedFor (e : ISyncExtension)
           (installedExtensions : list ILocalExtension) : option ILocalExtension :=
  hd_error (filter (fun installed =>
                      areSameExtensions (l_identifier installed) (identifier e))
                   installedExtensions).

(** The outcome of the enablement call made for an item on identity [i]. *)
Definition enablementCall {W} (H : Host W) (e : ISyncExtension)
           (i : IExtensionIdentifier) (w : W) : result unit * W :=
  if truthy (disabled e) then disableExtension H i w else enableExtension H i w.

(** The remote writes recorded in a log: content and expected reference. *)
Fixpoint writes (l : list Event) : list (string * option string) :=
  match l with
  | [] => []
  | EvUpdateRemoteUserData c r :: rest => (c, r) :: writes rest
  | _ :: rest => writes rest
  end.

(** The last-sync snapshots persisted in a log. *)
Fixpoint persisted (l : list Event)
  : list (IRemoteUserData * list ISyncExtension) :=
  match l with
  | [] => []
  | EvUpdateLastSyncUserData d sk :: rest => (d, sk) :: persisted rest
  | _ :: rest => persisted rest
  end.

(** No two entries of a skip list have the same identity. *)
Inductive DistinctIdentities : list ISyncExtension -> Prop :=
| Distinct_nil : DistinctIdentities []
| Distinct_cons (x : ISyncExtension) (l : list ISyncExtension) :
    (forall y, In y l ->
               areSameExtensions (identifier x) (identifier y) = false
               /\ areSameExtensions (identifier y) (identifier x) = false) ->
    DistinctIdentities l ->
    DistinctIdentities (x :: l).

(** A computation that only appends to the log, and appends neither a
    remote write nor a last-sync update. *)
Definition Silent {W A} (m : M W A) : Prop :=
  forall s, exists extra,
      log (snd (m s)) = (log s ++ extra)%list
      /\ writes extra = [] /\ persisted extra = [].

(** A computation every run of which takes a state to one that [R] relates
    it to; a task and an [async] body every turn of which does. *)
Definition Keeps {W A} (R : St W -> St W -> Prop) (m : M W A) : Prop :=
  forall s, R s (snd (m s)).

Fixpoint TaskKeeps {W A} (R : St W -> St W -> Prop) (t : Task W A) : Prop :=
  match t with
  | Settled _ => True
  | Suspended resume =>
      forall s, match resume s with (t', s') => R s s' /\ TaskKeeps R t' end
  end.

Definition AsyncKeeps {W A} (R : St W -> St W -> Prop) (p : Async W A) : Prop :=
  forall s, match p s with (t, s') => R s s' /\ TaskKeeps R t end.

(** A task, and an [async] body, that does not reject, whatever the states
    it is resumed from. *)
Fixpoint TaskCompletes {W A} (t : Task W A) : Prop :=
  match t with
  | Settled r => threw r = false
  | Suspended resume => forall s, TaskCompletes (fst (resume s))
  end.

Definition AsyncCompletes {W A} (p : Async W A) : Prop :=
  forall s, TaskCompletes (fst (p s)).

(** A task, and an [async] body, that cannot complete without having made
    [G] hold at the end of one of its turns, when it is resumed from states
    where [I] holds. *)
Fixpoint TaskEnsures {W A} (I G : St W -> Prop) (t : Task W A) : Prop :=
  match t with
  | Settled (Ok _) => False
  | Settled (Throw _) => True
  | Suspended resume =>
      forall s, I s ->
                match resume s with (t', s') => G s' \/ TaskEnsures I G t' end
  end.

Definition AsyncEnsures {W A} (I G : St W -> Prop) (p : Async W A) : Prop :=
  forall s, I s -> match p s with (t, s') => G s' \/ TaskEnsures I G t end.

(** The relations that the turns of the callbacks are shown to keep: the
    log grows by events that satisfy [P]; it grows by neither a remote write
    nor a last-sync update; nothing leaves [addToSkipped]. *)
Definition emitting {W} (P : Event -> Prop) (s s' : St W) : Prop :=
  exists extra, log s' = (log s ++ extra)%list /\ Forall P extra.

Definition silently {W} (s s' : St W) : Prop :=
  exists extra,
    log s' = (log s ++ extra)%list /\ writes extra = [] /\ persisted extra = [].

Definition skippedKept {W} (s s' : St W) : Prop :=
  forall x, In x (addToSkipped s) -> In x (addToSkipped s').

(** Nothing leaves [addToSkipped], and [Inv] stays true of the world. *)
Definition keeping {W} (Inv : W -> Prop) (s s' : St W) : Prop :=
  (Inv (world s) -> Inv (world s')) /\ skippedKept s s'.

(** Induction on a task: a suspended task has the property when the tasks
    it becomes have it. *)
Fixpoint Task_induction {W A} (P : Task W A -> Prop)
         (HSettled : forall r, P (Settled r))
         (HSuspended : forall resume,
             (forall s, P (fst (resume s))) -> P (Suspended resume))
         (t : Task W A) : P t :=
  match t with
  | Settled r => HSettled r
  | Suspended resume =>
      HSuspended resume
                 (fun s => Task_induction P HSettled HSuspended
                                          (fst (resume s)))
  end.

(** A property of the world that no call of the local apply takes away. *)
Definition HostKeeps {W} (H : Host W) (Inv : W -> Prop) : Prop :=
  (forall t w, Inv w -> Inv (snd (getInstalled H t w)))
  /\ (forall x w, Inv w -> Inv (snd (uninstall H x w)))
  /\ (forall g w, Inv w -> Inv (snd (installFromGallery H g w)))
  /\ (forall i v w, Inv w -> Inv (snd (getCompatibleExtension H i v w)))
  /\ (forall i w, Inv w -> Inv (snd (disableExtension H i w)))
  /\ (forall i w, Inv w -> Inv (snd (enableExtension H i w))).

(** An item whose callback ends in the [catch] block, or is not resolved,
    in the worlds where [Inv] holds: no listing shows it as an installed
    system extension, and whatever the gallery resolves it to, setting its
    enablement throws, or it has to be installed and the installation
    throws. *)
Definition FailsInsideTry {W} (H : Host W) (Inv : W -> Prop)
           (e : ISyncExtension) : Prop :=
  forall w l w1,
    Inv w -> getInstalled H None w = (Ok l, w1) ->
    isSystemExtension (installedFor e l) = false
    /\ forall w' extension w2,
        Inv w' ->
        getCompatibleExtension H (identifier e) (version e) w'
        = (Ok (Some extension), w2) ->
        (forall w3,
            Inv w3 ->
            threw (fst (enablementCall H e (g_identifier extension) w3)) = true)
        \/ (hasToInstall (installedFor e l) extension = true
            /\ forall w3,
                Inv w3 ->
                threw (fst (installFromGallery H extension w3)) = true).

(** The local apply has reached an item: it has asked the gallery for it,
    or set its enablement under its own identifier. *)
Definition reaches (e : ISyncExtension) (extra : list Event) : Prop :=
  In (EvGetCompatibleExtension (identifier e) (version e)) extra
  \/ In (EvDisableExtension (identifier e)) extra
  \/ In (EvEnableExtension (identifier e)) extra.

(** The reference a write of [apply] expects. *)
Definition expectedRef (p : IExtensionsSyncPreviewResult) (forcePush : bool)
  : option string :=
  if forcePush then None else Some (ref (remoteUserData p)).

(** The order that [format] sorts by. *)
Definition formatLe (e1 e2 : ISyncExtension) : Prop :=
  formatCompare e1 e2 <> Gt.

(** No item with a uuid comes before an item without one. *)
Inductive UuidLast : list ISyncExtension -> Prop :=
| UuidLast_nil : UuidLast []
| UuidLast_cons (x : ISyncExtension) (l : list ISyncExtension) :
    (truthyString (uuid (identifier x)) = true ->
     forall y, In y l -> truthyString (uuid (identifier y)) = true) ->
    UuidLast l ->
    UuidLast (x :: l).

(** *** Sample data: an in-memory host *)

(** Which collaborators are failing. *)
Record Faults : Type := {
  galleryFails : bool;
  enablementFails : bool;
  installFails : bool;
  listingFails : bool
}.

Definition noFault : Faults :=
  {| galleryFails := false; enablementFails := false;
     installFails := false; listingFails := false |}.

Definition galleryDown : Faults :=
  {| galleryFails := true; enablementFails := false;
     installFails := false; listingFails := false |}.

Definition enablementDown : Faults :=
  {| galleryFails := false; enablementFails := true;
     installFails := false; listingFails := false |}.

Definition installDown : Faults :=
  {| galleryFails := false; enablementFails := false;
     installFails := true; listingFails := false |}.

(** A small world: what is installed and disabled, what the gallery offers,
    the remote snapshot and the stored last-sync snapshot. *)
Record World : Type := {
  w_installed : list ILocalExtension;
  w_disabled : list IExtensionIdentifier;
  w_gallery : list IGalleryExtension;
  w_remote : IRemoteUserData;
  w_lastSync : option ILastSyncUserData
}.

Definition with_installed (l : list ILocalExtension) (w : World) : World :=
  {| w_installed := l; w_disabled := w_disabled w; w_gallery := w_gallery w;
     w_remote := w_remote w; w_lastSync := w_lastSync w |}.

Definition with_disabled (l : list IExtensionIdentifier) (w : World) : World :=
  {| w_installed := w_installed w; w_disabled := l; w_gallery := w_gallery w;
     w_remote := w_remote w; w_lastSync := w_lastSync w |}.

Definition with_remote (r : IRemoteUserData) (w : World) : World :=
  {| w_installed := w_installed w; w_disabled := w_disabled w;
     w_gallery := w_gallery w; w_remote := r; w_lastSync := w_lastSync w |}.

Definition with_lastSync (l : option ILastSyncUserData) (w : World) : World :=
  {| w_installed := w_installed w; w_disabled := w_disabled w;
     w_gallery := w_gallery w; w_remote := w_remote w; w_lastSync := l |}.

Definition sameType (t : option ExtensionType) (x : ILocalExtension) : bool :=
  match t, type x with
  | None, _ => true
  | Some System, System => true
  | Some User, User => true
  | _, _ => false
  end.

(** A serialization that keeps the order of the array: the ids, each
    followed by its uuid when there is one. *)
Fixpoint sampleStringify (l : list ISyncExtension) : string :=
  match l with
  | [] => EmptyString
  | e :: rest =>
      id (identifier e)
      ++ match uuid (identifier e) with
         | Some u => "#" ++ u
         | None => EmptyString
         end
      ++ ";" ++ sampleStringify rest
  end.

(** A merge that is enough to drive the methods: without a remote the local
    items go to the remote; with one, the remote items unknown locally are
    added. *)
Definition sampleMerge (local : list ISyncExtension)
           (remote lastSync : option (list ISyncExtension))
           (skipped : list ISyncExtension) (ignored : list string)
  : IMergeResult :=
  match remote with
  | None =>
      {| m_added := []; m_removed := []; m_updated := [];
         m_remote := if nonEmpty local then Some local else None |}
  | Some r =>
      {| m_added :=
           filter (fun e =>
                     negb (existsb (fun l => areSameExtensions (identifier l)
                                                               (identifier e))
                                   local)) r;
         m_removed := []; m_updated := []; m_remote := None |}
  end.

(** The host over [World]; [documents] is the table of the contents that
    [JSON.parse] understands.  Every promise takes the same time to settle:
    of the callbacks that run side by side, the one suspended longest is
    resumed first (for the first hundred turns of a wait). *)
Definition sampleHost (faults : Faults)
           (documents : list (string * list ISyncExtension))
  : Host World :=
  {| getInstalled := fun t w =>
       if listingFails faults then (Throw "listing failed", w)
       else (Ok (filter (sameType t) (w_installed w)), w);
     uninstall := fun x w =>
       (Ok tt,
        with_installed
          (filter (fun y => negb (areSameExtensions (l_identifier y)
                                                    (l_identifier x)))
                  (w_installed w)) w);
     installFromGallery := fun g w =>
       if installFails faults then (Throw "install failed", w)
       else (Ok tt,
             with_installed
               (w_installed w
                ++ [{| l_identifier := g_identifier g; type := User;
                       manifest_version := g_version g |}]) w);
     getCompatibleExtension := fun i _ w =>
       if galleryFails faults then (Throw "gallery unavailable", w)
       else (Ok (find (fun g => areSameExtensions (g_identifier g) i)
                      (w_gallery w)), w);
     getDisabledExtensions := fun w => (Ok (w_disabled w), w);
     disableExtension := fun i w =>
       if enablementFails faults then (Throw "enablement failed", w)
       else (Ok tt, with_disabled (w_disabled w ++ [i]) w);
     enableExtension := fun i w =>
       if enablementFails faults then (Throw "enablement failed", w)
       else (Ok tt,
             with_disabled
               (filter (fun d => negb (areSameExtensions d i)) (w_disabled w))
               w);
     isEnabled := fun _ => true;
     backupLocal := fun _ w => (Ok tt, w);
     getLastSyncUserData := fun w => (Ok (w_lastSync w), w);
     getRemoteUserData := fun _ w => (Ok (w_remote w), w);
     isLastSyncFromCurrentMachine_ := fun _ w => (Ok false, w);
     updateRemoteUserData := fun content expected w =>
       match expected with
       | Some r =>
           if String.eqb r (ref (w_remote w)) then
             let d := {| ref := ref (w_remote w) ++ "'";
                         syncData := Some {| sd_version := 3; machineId := None;
                                             content := content |} |} in
             (Ok d, with_remote d w)
           else (Throw "precondition failed", w)
       | None =>
           let d := {| ref := ref (w_remote w) ++ "'";
                       syncData := Some {| sd_version := 3; machineId := None;
                                           content := content |} |} in
           (Ok d, with_remote d w)
       end;
     updateLastSyncUserData := fun d skipped w =>
       (Ok tt,
        with_lastSync (Some {| ls_ref := ref d; ls_syncData := syncData d;
                               ls_skippedExtensions := Some skipped |}) w);
     merge := sampleMerge;
     getIgnoredExtensions := fun _ _ => [];
     JSON_stringify := sampleStringify;
     JSON_parse := fun content =>
       match find (fun d => String.eqb (fst d) content) documents with
       | Some d => Ok (snd d)
       | None => Throw "Unexpected token"
       end;
     resolutionOrder := fun _ => repeat 0%nat 100 |}.

Definition ident (name : string) (u : option string) : IExtensionIdentifier :=
  {| id := name; uuid := u |}.

Definition item (name : string) (u : option string) : ISyncExtension :=
  {| identifier := ident name u; version := None; disabled := None;
     installed := Some true; enabled := None |}.

(** An item as a version-1 or version-2 payload stores it. *)
Definition storedItem (name : string) (en : option bool) : ISyncExtension :=
  {| identifier := ident name None; version := None; disabled := None;
     installed := None; enabled := en |}.

Definition sampleDocuments : list (string * list ISyncExtension) :=
  [("v1", [storedItem "a" (Some false); storedItem "b" (Some true)]);
   ("v2", [storedItem "git" None; storedItem "c" None]);
   ("ba", [item "b" (Some "u1"); item "a" None]);
   ("ab", [item "a" None; item "b" None])].

Definition payload (v : Z) (text : string) : ISyncData :=
  {| sd_version := v; machineId := None; content := text |}.

Definition emptyWorld : World :=
  {| w_installed := []; w_disabled := []; w_gallery := [];
     w_remote := {| ref := "r1"; syncData := None |};
     w_lastSync := None |}.

(** A machine with the system extension [git], the user extension [a]
    (disabled), and a gallery that offers [b]. *)
Definition homeWorld : World :=
  {| w_installed :=
       [{| l_identifier := ident "git" None; type := System;
           manifest_version := "1.0.0" |};
        {| l_identifier := ident "a" None; type := User;
           manifest_version := "1.0.0" |}];
     w_disabled := [ident "A" None];
     w_gallery := [{| g_identifier := ident "b" None; g_version := "2.0.0" |}];
     w_remote := {| ref := "r1"; syncData := None |};
     w_lastSync := None |}.

(** The same machine after a sync: the remote holds [a] and [b] under the
    reference that the stored last-sync snapshot has too. *)
Definition syncedWorld : World :=
  {| w_installed := w_installed homeWorld;
     w_disabled := w_disabled homeWorld;
     w_gallery := w_gallery homeWorld;
     w_remote := {| ref := "r1"; syncData := Some (payload 3 "ab") |};
     w_lastSync := Some {| ls_ref := "r1";
                           ls_syncData := Some (payload 3 "ab");
                           ls_skippedExtensions := Some [] |} |}.

(** A preview that only writes the remote, for the first time. *)
Definition firstWritePreview : IExtensionsSyncPreviewResult :=
  {| localExtensions := [item "a" None];
     remoteUserData := {| ref := "r1"; syncData := None |};
     lastSyncUserData := None;
     added := []; removed := []; updated := [];
     remote := Some [item "a" None];
     skippedExtensions := [];
     hasLocalChanged := false;
     hasRemoteChanged := true;
     isLastSyncFromCurrentMachine := false |}.

Definition start (w : World) : St World :=
  {| world := w; log := []; removeFromSkipped := []; addToSkipped := [] |}.

(** The worlds that offer what [homeWorld] offers and have nothing
    installed that [homeWorld] has not. *)
Definition homeLike (w : World) : Prop :=
  w_gallery w = w_gallery homeWorld
  /\ incl (w_installed w) (w_installed homeWorld).

End ExtensionsSync.

(** ** Runs of the coordinator *)

Module AutoSyncRuns.

Import AutoSyncService.

Local Open Scope Z_scope.

(** Time passes: the clock read by the next [new Date().getTime()]. *)
Definition advanceClock (now : Z) (st : Service) : Service :=
  {| enablement := enablement st; token := token st; autoSync := autoSync st;
     successiveFailures := successiveFailures st;
     lastSyncTriggerTime := lastSyncTriggerTime st; sources := sources st;
     syncTriggerDelayer := syncTriggerDelayer st; clock := now;
     trace := trace st |}.

(** The handler run on the outcomes of successive cycles. *)
Fixpoint finishCycles (toUserDataSyncError : Error -> UserDataSyncError)
         (resetLocal : Service -> result unit)
         (outcomes : list (option Error)) (st : Service) : Service :=
  match outcomes with
  | [] => st
  | outcome :: rest =>
      finishCycles toUserDataSyncError resetLocal rest
                   (snd (onDidFinishSync toUserDataSyncError resetLocal
                                         outcome st))
  end.

(** No trigger is pending while there is no loop. *)
Definition noPendingWithoutLoop (st : Service) : Prop :=
  autoSync st = None -> syncTriggerDelayer st = None.

Definition hasLoop (st : Service) : bool :=
  match autoSync st with
  | Some _ => true
  | None => false
  end.

(** A coordinator that is switched off, with a stale pending trigger. *)
Definition idleService : Service :=
  {| enablement := false; token := true; autoSync := None;
     successiveFailures := 0; lastSyncTriggerTime := None;
     sources := []; syncTriggerDelayer := None; clock := 5000;
     trace := [] |}.

End AutoSyncRuns.

(** ** Runs of the synchroniser *)

Module ExtensionsSyncRuns.

Import ExtensionsSync.

Local Open Scope string_scope.
Local Open Scope list_scope.

(** A computation that only appends to the log, and only events that
    satisfy [P]. *)
Definition Emits {W A} (P : Event -> Prop) (m : M W A) : Prop :=
  forall s, exists extra,
      log (snd (m s)) = log s ++ extra /\ Forall P extra.

(** The calls that only read: listings and the machine check. *)
Definition isRead (ev : Event) : bool :=
  match ev with
  | EvGetInstalled _ | EvGetDisabledExtensions
  | EvIsLastSyncFromCurrentMachine => true
  | _ => false
  end.

Definition isStatus (ev : Event) : bool :=
  match ev with
  | EvSetStatus _ => true
  | _ => false
  end.

(** The calls of the local apply that concern one added or updated item. *)
Definition isItemCall (ev : Event) : bool :=
  match ev with
  | EvGetInstalled None | EvDisableExtension _ | EvEnableExtension _
  | EvGetCompatibleExtension _ _ | EvInstallFromGallery _ => true
  | _ => false
  end.

(** What the local apply may log for a list of identities to remove. *)
Definition localApplyEvent (removed : list IExtensionIdentifier)
           (ev : Event) : Prop :=
  match ev with
  | EvUninstall x =>
      exists r, In r removed /\ areSameExtensions (l_identifier x) r = true
  | EvGetInstalled (Some User) => removed <> []
  | _ => isItemCall ev = true
  end.

(** A remote write, when it is one, expects the reference [r]. *)
Definition writeExpects (r : option string) (ev : Event) : Prop :=
  match ev with
  | EvUpdateRemoteUserData _ expected => expected = r
  | _ => True
  end.

(** What [pull] may log from state [s]: a remote write expects the
    reference of the remote data read at its start, which holds data. *)
Definition pullEvent {W} (H : Host W) (s : St W) (ev : Event) : Prop :=
  match ev with
  | EvUpdateRemoteUserData _ expected =>
      exists lastSync w1 d w2 remoteSyncData,
        getLastSyncUserData H (world s) = (Ok lastSync, w1)
        /\ getRemoteUserData H lastSync w1 = (Ok d, w2)
        /\ syncData d = Some remoteSyncData
        /\ expected = Some (ref d)
  | _ => True
  end.

(** What [performReplace] may log: a remote write carries the payload as
    parsed and migrated, and expects the reference of the remote data
    given. *)
Definition replaceEvent {W} (H : Host W) (replaced : ISyncData)
           (given : IRemoteUserData) (ev : Event) : Prop :=
  match ev with
  | EvUpdateRemoteUserData c expected =>
      expected = Some (ref given)
      /\ exists syncExtensions st,
          fst (parseAndMigrateExtensions H replaced st) = Ok syncExtensions
          /\ c = JSON_stringify H syncExtensions
  | _ => True
  end.

(** The listing that the callback of an added or updated item starts
    with. *)
Definition isListing (ev : Event) : bool :=
  match ev with
  | EvGetInstalled None => true
  | _ => false
  end.

(** The enablement call made for an item, as it is logged. *)
Definition enablementEvent (e : ISyncExtension) (i : IExtensionIdentifier)
  : Event :=
  if truthy (disabled e) then EvDisableExtension i else EvEnableExtension i.

(** A preview whose remote reference went stale: the store holds [r1]. *)
Definition stalePreview : IExtensionsSyncPreviewResult :=
  {| localExtensions := [item "a" None];
     remoteUserData := {| ref := "r0"; syncData := None |};
     lastSyncUserData := None;
     added := []; removed := []; updated := [];
     remote := Some [item "a" None];
     skippedExtensions := [];
     hasLocalChanged := false;
     hasRemoteChanged := true;
     isLastSyncFromCurrentMachine := false |}.

Definition listingDown : Faults :=
  {| galleryFails := false; enablementFails := false;
     installFails := false; listingFails := true |}.

End ExtensionsSyncRuns.

(** ** Uniform resource identifiers *)

Module Uri.

Local Open Scope string_scope.

(** The five components of a [URI]. *)
Record URI : Type := {
  scheme : string;
  authority : string;
  path : string;
  query : string;
  fragment : string
}.

(** [uri.with({ query, fragment })]: scheme, authority and path are those of
    a URI that exists, which the constructor leaves as they are. *)
Definition with_query_fragment (q f : string) (u : URI) : URI :=
  {| scheme := scheme u; authority := authority u; path := path u;
     query := q; fragment := f |}.

(** The reference resolution that the constructor of a URI applies to its
    path: under the schemes [file], [http] and [https] a path is made to
    begin with a slash. *)
Definition referenceResolution (sch p : string) : string :=
  if String.eqb sch "file" || String.eqb sch "http" || String.eqb sch "https"
  then match p with
       | EmptyString => "/"
       | String c _ => if Ascii.eqb c "/"%char then p else "/" ++ p
       end
  else p.

(** [uri.with({ scheme })]: the URI is built anew, so its path goes through
    the reference resolution of the new scheme. *)
Definition with_scheme (sch : string) (u : URI) : URI :=
  {| scheme := sch; authority := authority u;
     path := referenceResolution sch (path u);
     query := query u; fragment := fragment u |}.

(** A string used as a condition: the empty string is falsy. *)
Definition nonEmptyString (x : string) : bool :=
  match x with
  | EmptyString => false
  | String _ _ => true
  end.

(** [s.endsWith(suffix)] *)
Definition endsWith (x suffix : string) : bool :=
  Nat.leb (String.length suffix) (String.length x)
  && String.eqb (substring (String.length x - String.length suffix)
                           (String.length suffix) x)
                suffix.

End Uri.

(** ** Notebook providers: which files a provider takes *)

Module NotebookProvider.

Import Uri.

Local Open Scope string_scope.

Record NotebookSelector : Type := {
  filenamePattern : option string;
  excludeFileNamePattern : option string
}.

Section Matching.

(** [String.prototype.toLowerCase] belongs to the language; [glob.match] of
    vs/base/common/glob, [basename] of vs/base/common/path and the [fsPath]
    of a URI are declared elsewhere. *)
Variable toLowerCase : string -> string.
Variable glob_match : string -> string -> bool.
Variable basename : string -> string.
Variable fsPath : URI -> string.

(** [basename(resource.fsPath).toLowerCase()] *)
Definition lowerName (resource : URI) : string :=
  toLowerCase (basename (fsPath resource)).

(** [NotebookProviderInfo.selectorMatches(selector, resource)] *)
Definition selectorMatches (selector : NotebookSelector) (resource : URI)
  : bool :=
  if ExtensionsSync.truthyString (filenamePattern selector) then
    match filenamePattern selector with
    | Some pattern =>
        if glob_match (toLowerCase pattern)
                      (lowerName resource)
        then
          if ExtensionsSync.truthyString (excludeFileNamePattern selector)
          then
            match excludeFileNamePattern selector with
            | Some exclude =>
                if glob_match (toLowerCase exclude)
                              (lowerName resource)
                then false
                else true
            | None => true
            end
          else true
        else false
    | None => false
    end
  else false.

(** [matches(resource)], for the selectors of a provider. *)
Definition matches (selector : list NotebookSelector) (resource : URI) : bool :=
  existsb (fun sel => selectorMatches sel resource) selector.

End Matching.

(** The selector with its two patterns in lower case. *)
Definition lowerSelector (toLowerCase : string -> string)
           (selector : NotebookSelector) : NotebookSelector :=
  {| filenamePattern := option_map toLowerCase (filenamePattern selector);
     excludeFileNamePattern :=
       option_map toLowerCase (excludeFileNamePattern selector) |}.

(** A lower-casing to try the definitions on: that of the ASCII letters. *)
Definition sampleToLowerCase : string -> string := ExtensionsSync.foldCase.

(** *** Sample data *)

(** A glob that only knows the pattern "*.ipynb" and literal names. *)
Definition sampleGlob (pattern name : string) : bool :=
  if String.eqb pattern "*.ipynb"
  then endsWith name ".ipynb"
  else String.eqb pattern name.

(** The part of a path after its last slash. *)
Fixpoint sampleBasenameFrom (acc p : string) : string :=
  match p with
  | EmptyString => acc
  | String c rest =>
      if Ascii.eqb c "/"%char then sampleBasenameFrom EmptyString rest
      else sampleBasenameFrom (acc ++ String c EmptyString) rest
  end.

Definition sampleBasename (p : string) : string :=
  sampleBasenameFrom EmptyString p.

Definition fileUri (p : string) : URI :=
  {| scheme := "file"; authority := EmptyString; path := p;
     query := EmptyString; fragment := EmptyString |}.

Definition sampleFsPathOf (u : URI) : string := path u.

Definition ipynbSelector : NotebookSelector :=
  {| filenamePattern := Some "*.ipynb";
     excludeFileNamePattern := Some "draft.ipynb" |}.

End NotebookProvider.

(** ** Loading the resources of a webview *)

Module WebviewResource.

Import Uri.

Local Open Scope string_scope.

(** [WebviewResourceResponse]: a success with its payload and mime type, a
    failure, or a denial. *)
Inductive Response (Payload : Type) : Type :=
| Success (data : Payload) (mimeType : string)
| Failed
| AccessDenied.

Arguments Success {Payload} data mimeType.
Arguments Failed {Payload}.
Arguments AccessDenied {Payload}.

Section Loader.

(** [String.prototype.toLowerCase] belongs to the language.
    Declared elsewhere: the [fsPath] of a URI and [URI.parse]; [isUNC] of
    extpath and [sep] of path; the scheme names; the two rewritings of the
    request path that [normalizeRequestPath] hands to [URI.parse] (the
    regular-expression replacement of the leading scheme segment, and
    [encodeURIComponent] with its slashes restored); the serialization of
    the query of a remote request; the mime type of a URI. *)
Variable toLowerCase : string -> string.
Variable fsPath : URI -> string.
Variable URI_parse : string -> URI.
Variable isUNC : string -> bool.
Variable sep : string.
Variable vscodeWebviewResource : string.
Variable oldVscodeWebviewResource : string.
Variable REMOTE_HOST_SCHEME : string.
Variable replaceSchemeSegment : string -> string.
Variable encodePath : string -> string.
Variable requestResourcePathQuery : string -> string.
Variable getWebviewContentMimeType : URI -> string.

(** [normalizeRequestPath(requestUri)] *)
Definition normalizeRequestPath (requestUri : URI) : URI :=
  if String.eqb (scheme requestUri) vscodeWebviewResource then
    let resourceUri := URI_parse (replaceSchemeSegment (path requestUri)) in
    with_query_fragment (query requestUri) (fragment requestUri) resourceUri
  else if String.eqb (scheme requestUri) oldVscodeWebviewResource then
    if nonEmptyString (authority requestUri) then
      let resourceUri :=
        URI_parse (authority requestUri ++ ":"
                   ++ encodePath (path requestUri)) in
      with_query_fragment (query requestUri) (fragment requestUri) resourceUri
    else with_scheme "file" requestUri
  else requestUri.

(** [root.fsPath + (root.fsPath.endsWith(sep) ? '' : sep)] *)
Definition rootPathOf (root : URI) : string :=
  fsPath root ++ (if endsWith (fsPath root) sep then EmptyString else sep).

(** [containsResource(root, resource)] *)
Definition containsResource (root resource : URI) : bool :=
  if isUNC (fsPath root) && isUNC (fsPath resource)
  then String.prefix (toLowerCase (rootPathOf root))
                     (toLowerCase (fsPath resource))
  else String.prefix (rootPathOf root) (fsPath resource).

(** What the loop of [getResourceToLoad] returns at a root that contains
    the resource. *)
Definition resourceFor (normalizedPath : URI) (extensionLocation : option URI)
  : URI :=
  match extensionLocation with
  | Some location =>
      if String.eqb (scheme location) REMOTE_HOST_SCHEME then
        {| scheme := REMOTE_HOST_SCHEME;
           authority := authority location;
           path := "/vscode-resource";
           query := requestResourcePathQuery (path normalizedPath);
           fragment := EmptyString |}
      else normalizedPath
  | None => normalizedPath
  end.

Fixpoint firstContaining (normalizedPath : URI)
         (extensionLocation : option URI) (roots : list URI) : option URI :=
  match roots with
  | [] => None
  | root :: rest =>
      if negb (containsResource root normalizedPath)
      then firstContaining normalizedPath extensionLocation rest
      else Some (resourceFor normalizedPath extensionLocation)
  end.

(** [getResourceToLoad(requestUri, extensionLocation, roots)] *)
Definition getResourceToLoad (requestUri : URI)
           (extensionLocation : option URI) (roots : list URI) : option URI :=
  firstContaining (normalizeRequestPath requestUri) extensionLocation roots.

(** The file service: [readFile] or [readFileStream], on a world [W]. *)
Variable W : Type.
Variable Payload : Type.
Variable read : URI -> W -> result Payload * W.

(** [loadLocalResource] and [loadLocalResourceStream], which differ in the
    reader only. *)
Definition loadLocalResource (requestUri : URI)
           (extensionLocation : option URI) (roots : list URI) (w : W)
  : Response Payload * W :=
  match getResourceToLoad requestUri extensionLocation roots with
  | None => (AccessDenied, w)
  | Some resourceToLoad =>
      match read resourceToLoad w with
      | (Ok data, w') =>
          (Success data (getWebviewContentMimeType requestUri), w')
      | (Throw _, w') => (Failed, w')
      end
  end.

End Loader.

(** *** Sample data *)

Definition sampleFsPath (u : URI) : string := path u.

(** A sample in which the paths that begin with two slashes stand for the
    UNC paths. *)
Definition sampleIsUNC (p : string) : bool := String.prefix "//" p.

(** A file service that knows one file. *)
Definition sampleRead (u : URI) (reads : list URI)
  : result string * list URI :=
  if String.eqb (path u) "/ext/media/main.css"
  then (Ok "body {}", (reads ++ [u])%list)
  else (Throw "ENOENT", (reads ++ [u])%list).

Definition sampleMime (u : URI) : string :=
  if endsWith (path u) ".css" then "text/css" else "text/plain".

End WebviewResource.

(** * Properties of the auto-sync coordinator *)

Module AutoSyncFacts.

Import AutoSyncService.

Local Open Scope string_scope.
Local Open Scope list_scope.
Local Open Scope Z_scope.

Ltac disable_cases st :=
  unfold disable, updateAutoSync, isAutoSyncEnabled, setEnablement,
    delayer_cancel, emit, set_enablement, set_syncTriggerDelayer,
    set_autoSync;
  simpl;
  destruct (autoSync st) as [a|] eqn:Hauto; simpl;
  [destruct (started a); simpl|]; try rewrite <- app_assoc; auto.

Lemma disable_enablement (st : Service) : enablement (disable st) = false.
Proof. disable_cases st. Qed.

Lemma disable_autoSync (st : Service) : autoSync (disable st) = None.
Proof. disable_cases st. Qed.

Lemma disable_delayer (st : Service) : syncTriggerDelayer (disable st) = None.
Proof. disable_cases st. Qed.

Lemma disable_failures (st : Service) :
  successiveFailures (disable st) = successiveFailures st.
Proof. disable_cases st. Qed.

Lemma disable_trace (st : Service) :
  trace (disable st) = trace st ++ [SetEnablement false] ++ stopOf (autoSync st).
Proof. disable_cases st. Qed.

(** C1, as the code has it.  [onDidFinishSync] classifies the outcome of a
    cycle: without an error only [successiveFailures] changes, to 0; on
    [TurnedOff] or [SessionExpired] the reset of the local state is asked
    for and awaited: when it completes, auto-sync is disabled and the
    normalized error is fired on [onError], last; when it rejects, the
    handler rejects with the exception of the reset, and neither disables
    auto-sync nor fires the error; on [LocalTooManyRequests] auto-sync is
    disabled and no reset is asked for; on every other code
    [successiveFailures] grows by one and the loop, the enablement flag and
    the pending trigger are left as they are.  In these two cases the
    normalized error is fired on [onError], last. *)
Theorem onDidFinishSync_classification :
  forall (toUserDataSyncError : Error -> UserDataSyncError)
         (resetLocal : Service -> result unit)
         (error : option Error) (st : Service),
    let r := fst (onDidFinishSync toUserDataSyncError resetLocal error st) in
    let st' := snd (onDidFinishSync toUserDataSyncError resetLocal error st) in
    match error with
    | None =>
        r = Ok tt /\ st' = set_successiveFailures 0 st
        /\ successiveFailures st' = O /\ trace st' = trace st
        /\ autoSync st' = autoSync st /\ enablement st' = enablement st
    | Some err =>
        let e := toUserDataSyncError err in
        match code e with
        | TurnedOff | SessionExpired =>
            match resetLocal st with
            | Ok _ =>
                r = Ok tt
                /\ trace st' = trace st
                                ++ [ServiceResetLocal; SetEnablement false]
                                ++ stopOf (autoSync st) ++ [FireOnError e]
                /\ enablement st' = false /\ autoSync st' = None
                /\ syncTriggerDelayer st' = None
                /\ successiveFailures st' = successiveFailures st
            | Throw x =>
                r = Throw x
                /\ trace st' = trace st ++ [ServiceResetLocal]
                /\ enablement st' = enablement st
                /\ autoSync st' = autoSync st
                /\ syncTriggerDelayer st' = syncTriggerDelayer st
                /\ successiveFailures st' = successiveFailures st
            end
        | LocalTooManyRequests =>
            r = Ok tt
            /\ trace st' = trace st ++ [SetEnablement false]
                                    ++ stopOf (autoSync st) ++ [FireOnError e]
            /\ ~ In ServiceResetLocal
                    ([SetEnablement false] ++ stopOf (autoSync st)
                                           ++ [FireOnError e])
            /\ enablement st' = false /\ autoSync st' = None
            /\ syncTriggerDelayer st' = None
            /\ successiveFailures st' = successiveFailures st
        | OtherCode _ =>
            r = Ok tt
            /\ trace st' = trace st ++ [FireOnError e]
            /\ successiveFailures st' = S (successiveFailures st)
            /\ autoSync st' = autoSync st /\ enablement st' = enablement st
            /\ syncTriggerDelayer st' = syncTriggerDelayer st
        end
    end.
Proof.
  intros toE rl error st.
  destruct error as [err|]; simpl.
  - unfold onDidFinishSync.
    destruct (code (toE err)) eqn:Hc; simpl.
    + destruct (rl st) as [u|x]; simpl; [|repeat split].
      rewrite disable_enablement, disable_autoSync, disable_delayer,
        disable_failures, disable_trace. simpl.
      repeat split. repeat rewrite <- app_assoc. reflexivity.
    + destruct (rl st) as [u|x]; simpl; [|repeat split].
      rewrite disable_enablement, disable_autoSync, disable_delayer,
        disable_failures, disable_trace. simpl.
      repeat split. repeat rewrite <- app_assoc. reflexivity.
    + rewrite disable_enablement, disable_autoSync, disable_delayer,
        disable_failures, disable_trace. simpl.
      repeat split.
      * repeat rewrite <- app_assoc. reflexivity.
      * intros [Hin|Hin]; [discriminate|].
        apply in_app_or in Hin. destruct Hin as [Hin|Hin].
        -- unfold stopOf in Hin. destruct (autoSync st) as [a|]; [|contradiction].
           destruct (started a); [|contradiction].
           destruct Hin as [Hin|[]]; discriminate.
        -- destruct Hin as [Hin|[]]; discriminate.
    + repeat split.
  - repeat split.
Qed.

(** The classification at a session that expired, on a running loop. *)
Lemma onDidFinishSync_classification_witness :
  let st := sampleService 2 1005000 in
  let st' := snd (onDidFinishSync sampleToUserDataSyncError resetLocalSucceeds
                                  (Some "SessionExpired") st) in
  trace st' = [ServiceResetLocal; SetEnablement false; ServiceStop;
               FireOnError {| code := SessionExpired;
                              message := "SessionExpired" |}]
  /\ autoSync st' = None.
Proof.
  destruct (onDidFinishSync_classification sampleToUserDataSyncError
              resetLocalSucceeds (Some "SessionExpired")
              (sampleService 2 1005000))
    as (_ & Ht & _ & Ha & _).
  split; [exact Ht | exact Ha].
Defined.

(** C1 as stated fails: the session has expired and the reset of the local
    state rejects.  The handler rejects with that exception; auto-sync is
    not disabled, the loop stays, and the error is not fired on
    [onError]. *)
Lemma onDidFinishSync_reset_rejects :
  let st := sampleService 2 1005000 in
  let out := onDidFinishSync sampleToUserDataSyncError resetLocalFails
                             (Some "SessionExpired") st in
  fst out = Throw "reset failed"
  /\ enablement (snd out) = true
  /\ autoSync (snd out) = autoSync st
  /\ trace (snd out) = [ServiceResetLocal]
  /\ ~ In (FireOnError {| code := SessionExpired;
                          message := "SessionExpired" |})
          (trace (snd out)).
Proof.
  repeat split. intros [Hin|[]]. discriminate.
Qed.

Lemma pow2_ge_64 (n : nat) : (6 <= n)%nat -> 64 <= 2 ^ Z.of_nat n.
Proof.
  intros Hn. change 64 with (2 ^ 6).
  apply Z.pow_le_mono_r; lia.
Qed.

Lemma triggerDelay_nonzero (n : nat) :
  n <> 0%nat -> triggerDelay n = 1000 * Z.min (2 ^ Z.of_nat n) 60.
Proof.
  intros Hn. destruct n as [|m]; [congruence|].
  unfold triggerDelay. rewrite Z.mul_1_r. reflexivity.
Qed.

(** C2. Whenever [triggerAutoSync] schedules a sync, the delay handed to
    the delayer is 1000 ms when [successiveFailures] is 0 and
    1000 * min(2^successiveFailures, 60) ms otherwise: 2000 ms after one
    failure, 60000 ms after six, and 60000 ms after any larger number. *)
Theorem triggerAutoSync_delay :
  forall (ALL_SYNC_RESOURCES srcs : list string) (st st' : Service) (d : Z),
    triggerAutoSync ALL_SYNC_RESOURCES srcs st = (Scheduled d, st') ->
    syncTriggerDelayer st' = Some d
    /\ (successiveFailures st = 0%nat -> d = 1000)
    /\ (successiveFailures st <> 0%nat ->
        d = 1000 * Z.min (2 ^ Z.of_nat (successiveFailures st)) 60)
    /\ (successiveFailures st = 1%nat -> d = 2000)
    /\ (successiveFailures st = 6%nat -> d = 60000)
    /\ ((6 <= successiveFailures st)%nat -> d = 60000).
Proof.
  intros R srcs st st' d Htr.
  unfold triggerAutoSync in Htr.
  destruct (autoSync st) as [a|]; [|discriminate].
  destruct (hasToLimitSync R srcs && truthyTime (lastSyncTriggerTime st)
            && (secondsSinceLastTrigger st <? 10)); [discriminate|].
  injection Htr as Hd Hst. subst st'.
  change (successiveFailures (set_sources (sources st ++ srcs) st))
    with (successiveFailures st) in Hd.
  split; [simpl; congruence|].
  pose proof (@triggerDelay_nonzero (successiveFailures st)) as Hnz.
  assert (Hbig : (6 <= successiveFailures st)%nat -> d = 60000).
  { intros H6. pose proof (pow2_ge_64 H6) as Hp.
    rewrite Hnz in Hd by lia. rewrite Z.min_r in Hd by lia. lia. }
  repeat split.
  - intros H0. rewrite H0 in Hd. simpl in Hd. congruence.
  - intros Hn. rewrite Hnz in Hd by exact Hn. congruence.
  - intros H1. rewrite H1 in Hd. vm_compute in Hd. congruence.
  - intros H6. apply Hbig. lia.
  - exact Hbig.
Qed.

(** After a hundred failures in a row the delay is still one minute. *)
Lemma triggerAutoSync_delay_witness :
  syncTriggerDelayer
    (snd (triggerAutoSync sampleResources ["extensions"]
                          (sampleService 100 1005000))) = Some 60000.
Proof.
  destruct (triggerAutoSync_delay sampleResources ["extensions"]
              (sampleService 100 1005000)
              (st' := snd (triggerAutoSync sampleResources ["extensions"]
                                           (sampleService 100 1005000)))
              (d := 60000) eq_refl) as (Hd & _).
  exact Hd.
Defined.

Lemma includes_In (x : string) (l : list string) :
  includes x l = true <-> In x l.
Proof.
  unfold includes. rewrite existsb_exists. split.
  - intros (y & Hy & Heq). apply String.eqb_eq in Heq. subst y. exact Hy.
  - intros Hin. exists x. split; [exact Hin | apply String.eqb_refl].
Qed.

Lemma hasToLimitSync_spec (R srcs : list string) :
  hasToLimitSync R srcs = true <->
  ~ In RESOURCE_ENABLEMENT_SOURCE srcs /\ (forall r, In r R -> ~ In r srcs).
Proof.
  unfold hasToLimitSync.
  rewrite andb_true_iff, negb_true_iff, forallb_forall.
  rewrite <- not_true_iff_false, includes_In.
  split; intros [H1 H2]; (split; [exact H1|]); intros r Hr.
  - specialize (H2 r Hr). rewrite negb_true_iff, <- not_true_iff_false in H2.
    rewrite includes_In in H2. exact H2.
  - rewrite negb_true_iff, <- not_true_iff_false, includes_In. exact (H2 r Hr).
Qed.

Lemma Math_round_seconds_lt_10 (ms : Z) :
  Math_round_seconds ms < 10 <-> ms < 9500.
Proof.
  unfold Math_round_seconds. split; intros Hlt.
  - destruct (Z_lt_ge_dec ms 9500) as [Hok|Hge]; [exact Hok|].
    assert (10 <= (ms + 500) / 1000) by (apply Z.div_le_lower_bound; lia).
    lia.
  - apply Z.div_lt_upper_bound; lia.
Qed.

Lemma truthyTime_spec (o : option Z) :
  truthyTime o = true <-> exists t, o = Some t /\ t <> 0.
Proof.
  destruct o as [t|]; simpl.
  - rewrite negb_true_iff, Z.eqb_neq. split.
    + intros Ht. exists t. split; [reflexivity | exact Ht].
    + intros (t' & Heq & Ht'). injection Heq as ->. exact Ht'.
  - split; [discriminate | intros (t & Heq & _); discriminate].
Qed.

(** C3, as the code has it.  While a loop is active, [triggerAutoSync]
    drops the trigger exactly when no source is the resource-enablement
    source, no source is a registered sync-resource name, a non-zero start
    time of the last cycle is recorded, and the time elapsed since then,
    rounded to whole seconds (halves up), is below 10, that is, less than
    9500 ms have elapsed.  A dropped trigger changes nothing; any other one
    is scheduled and its sources are accumulated; a trigger carrying the
    resource-enablement source is never dropped. *)
Theorem triggerAutoSync_skipped_iff :
  forall (ALL_SYNC_RESOURCES srcs : list string) (st : Service) (a : AutoSync),
    autoSync st = Some a ->
    let out := triggerAutoSync ALL_SYNC_RESOURCES srcs st in
    (fst out = Skipped <->
       ~ In RESOURCE_ENABLEMENT_SOURCE srcs
       /\ (forall r, In r ALL_SYNC_RESOURCES -> ~ In r srcs)
       /\ exists t, lastSyncTriggerTime st = Some t /\ t <> 0
                    /\ clock st - t < 9500)
    /\ (forall t, Math_round_seconds (clock st - t) < 10 <-> clock st - t < 9500)
    /\ (fst out = Skipped -> snd out = st)
    /\ (fst out <> Skipped ->
        exists d, fst out = Scheduled d
                  /\ sources (snd out) = sources st ++ srcs
                  /\ syncTriggerDelayer (snd out) = Some d)
    /\ (In RESOURCE_ENABLEMENT_SOURCE srcs -> fst out <> Skipped).
Proof.
  intros R srcs st a Ha out.
  assert (Hcond :
    hasToLimitSync R srcs && truthyTime (lastSyncTriggerTime st)
    && (secondsSinceLastTrigger st <? 10) = true <->
    ~ In RESOURCE_ENABLEMENT_SOURCE srcs
    /\ (forall r, In r R -> ~ In r srcs)
    /\ exists t, lastSyncTriggerTime st = Some t /\ t <> 0
                 /\ clock st - t < 9500).
  { rewrite !andb_true_iff, hasToLimitSync_spec, truthyTime_spec, Z.ltb_lt.
    unfold secondsSinceLastTrigger. split.
    - intros [[[H1 H2] (t & Ht & Hnz)] Hlt]. rewrite Ht in Hlt.
      apply Math_round_seconds_lt_10 in Hlt.
      split; [exact H1|]. split; [exact H2|]. exists t. auto.
    - intros (H1 & H2 & t & Ht & Hnz & Hlt). rewrite Ht.
      split; [split; [split; assumption | exists t; auto]|].
      apply Math_round_seconds_lt_10. exact Hlt. }
  subst out. unfold triggerAutoSync. rewrite Ha.
  destruct (hasToLimitSync R srcs && truthyTime (lastSyncTriggerTime st)
            && (secondsSinceLastTrigger st <? 10)) eqn:Hc; simpl.
  - split; [split; [intros _; apply Hcond; reflexivity | reflexivity]|].
    split; [intros t; apply Math_round_seconds_lt_10|].
    split; [reflexivity|].
    split; [intros Hne; contradiction|].
    intros Hin _. destruct (proj1 Hcond eq_refl) as [Hno _]. exact (Hno Hin).
  - split.
    { split; [discriminate|]. intros Hall. apply Hcond in Hall. discriminate. }
    split; [intros t; apply Math_round_seconds_lt_10|].
    split; [discriminate|].
    split; [|discriminate].
    intros _. eexists. split; [reflexivity|]. split; reflexivity.
Qed.

(** A window-focus trigger 9400 ms after the start of the last cycle is
    dropped. *)
Lemma triggerAutoSync_skipped_iff_witness :
  fst (triggerAutoSync sampleResources ["windowFocus"]
                       (sampleService 0 1009400)) = Skipped.
Proof.
  destruct (@triggerAutoSync_skipped_iff sampleResources ["windowFocus"]
              (sampleService 0 1009400) _ eq_refl) as (Hiff & _).
  apply Hiff. split; [|split].
  - simpl. intros [Heq|[]]. discriminate.
  - simpl. intros r [Hr|[Hr|[Hr|[]]]] [Heq|[]]; subst r; discriminate.
  - exists 1000000. simpl. repeat split; lia.
Defined.

(** C3 as stated fails: a trigger whose only source is neither the
    resource-enablement source nor a sync-resource name, 9700 ms (less than
    10 seconds) after the start of the last cycle, is scheduled, not
    dropped. *)
Lemma triggerAutoSync_within_10s_not_skipped :
  autoSync (sampleService 0 1009700) <> None
  /\ ~ In RESOURCE_ENABLEMENT_SOURCE ["windowFocus"]
  /\ (forall r, In r sampleResources -> ~ In r ["windowFocus"])
  /\ lastSyncTriggerTime (sampleService 0 1009700) = Some 1000000
  /\ 0 <= clock (sampleService 0 1009700) - 1000000 < 10000
  /\ fst (triggerAutoSync sampleResources ["windowFocus"]
                          (sampleService 0 1009700)) = Scheduled 1000
  /\ sources (snd (triggerAutoSync sampleResources ["windowFocus"]
                                   (sampleService 0 1009700)))
     = ["extensions"; "windowFocus"].
Proof.
  split; [discriminate|].
  split; [simpl; intros [Heq|[]]; discriminate|].
  split.
  { simpl. intros r [Hr|[Hr|[Hr|[]]]] [Heq|[]]; subst r; discriminate. }
  split; [reflexivity|].
  split; [simpl; lia|].
  split; reflexivity.
Qed.

End AutoSyncFacts.

(** * Properties of the extensions synchroniser *)

Module ExtensionsSyncFacts.

Import ExtensionsSync.

Local Open Scope string_scope.
Local Open Scope list_scope.

(** Case analysis on the outcome of the first step of a run. *)
Ltac case_run :=
  match goal with
  | |- context [match ?m ?s with pair _ _ => _ end] =>
      let r := fresh "r" in
      let s' := fresh "s" in
      let E := fresh "Erun" in
      destruct (m s) as [r s'] eqn:E; destruct r
  end.

(** ** Logs *)

Lemma writes_app (l1 l2 : list Event) :
  writes (l1 ++ l2) = writes l1 ++ writes l2.
Proof.
  induction l1 as [|ev l1 IH]; simpl; [reflexivity|].
  destruct ev; simpl; rewrite ?IH; reflexivity.
Qed.

Lemma persisted_app (l1 l2 : list Event) :
  persisted (l1 ++ l2) = persisted l1 ++ persisted l2.
Proof.
  induction l1 as [|ev l1 IH]; simpl; [reflexivity|].
  destruct ev; simpl; rewrite ?IH; reflexivity.
Qed.

(** ** Identity *)

Lemma optionStringEqb_sym (a b : option string) :
  optionStringEqb a b = optionStringEqb b a.
Proof.
  destruct a as [x|], b as [y|]; simpl; try reflexivity.
  apply String.eqb_sym.
Qed.

Lemma areSameExtensions_sym (a b : IExtensionIdentifier) :
  areSameExtensions a b = areSameExtensions b a.
Proof.
  unfold areSameExtensions.
  rewrite (andb_comm (truthyString (uuid a))).
  destruct (truthyString (uuid b) && truthyString (uuid a)).
  - apply optionStringEqb_sym.
  - apply String.eqb_sym.
Qed.

Lemma areSameExtensions_refl (a : IExtensionIdentifier) :
  areSameExtensions a a = true.
Proof.
  unfold areSameExtensions.
  destruct (truthyString (uuid a) && truthyString (uuid a)).
  - destruct (uuid a) as [u|]; simpl; [apply String.eqb_refl | reflexivity].
  - apply String.eqb_refl.
Qed.

(** ** The skip list *)

Lemma DistinctIdentities_filter (f : ISyncExtension -> bool)
      (l : list ISyncExtension) :
  DistinctIdentities l -> DistinctIdentities (filter f l).
Proof.
  induction 1 as [|x l Hx Hl IH]; simpl.
  - constructor.
  - destruct (f x).
    + constructor; [|exact IH].
      intros y Hy. apply filter_In in Hy. apply Hx. tauto.
    + exact IH.
Qed.

Lemma DistinctIdentities_snoc (l : list ISyncExtension) (x : ISyncExtension) :
  DistinctIdentities l ->
  (forall y, In y l ->
             areSameExtensions (identifier y) (identifier x) = false) ->
  DistinctIdentities (l ++ [x]).
Proof.
  induction 1 as [|z l Hz Hl IH]; intros Hx; simpl.
  - constructor; [intros y []|constructor].
  - constructor.
    + intros y Hy. apply in_app_or in Hy. destruct Hy as [Hy|[Hy|[]]].
      * apply Hz. exact Hy.
      * subst y. split.
        -- apply Hx. left. reflexivity.
        -- rewrite areSameExtensions_sym. apply Hx. left. reflexivity.
    + apply IH. intros y Hy. apply Hx. right. exact Hy.
Qed.

Lemma existsb_false_forall {A} (f : A -> bool) (l : list A) :
  existsb f l = false -> forall y, In y l -> f y = false.
Proof.
  intros He y Hy. destruct (f y) eqn:Hf; [|reflexivity].
  assert (existsb f l = true) by (apply existsb_exists; exists y; auto).
  congruence.
Qed.

Lemma pushSkipped_distinct (addTo acc : list ISyncExtension) :
  DistinctIdentities acc -> DistinctIdentities (pushSkipped acc addTo).
Proof.
  revert acc. induction addTo as [|x rest IH]; intros acc Hacc; simpl.
  - exact Hacc.
  - destruct (existsb _ acc) eqn:He.
    + apply IH. exact Hacc.
    + apply IH. apply DistinctIdentities_snoc; [exact Hacc|].
      intros y Hy.
      exact (existsb_false_forall _ _ He y Hy).
Qed.

Lemma newSkippedExtensions_distinct
      (skipped : list ISyncExtension) (rfs : list IExtensionIdentifier)
      (ats : list ISyncExtension) :
  DistinctIdentities skipped ->
  DistinctIdentities (newSkippedExtensions skipped rfs ats).
Proof.
  intros Hd. unfold newSkippedExtensions, retainSkipped.
  apply pushSkipped_distinct. apply DistinctIdentities_filter. exact Hd.
Qed.

(** What [DistinctIdentities] says, entry by entry. *)
Lemma DistinctIdentities_pairwise (l : list ISyncExtension) :
  DistinctIdentities l <->
  (forall i j x y, i <> j -> nth_error l i = Some x -> nth_error l j = Some y ->
                   areSameExtensions (identifier x) (identifier y) = false).
Proof.
  split.
  - induction 1 as [|z l Hz Hl IH]; intros i j x y Hij Hi Hj.
    + destruct i; discriminate.
    + destruct i as [|i], j as [|j]; simpl in Hi, Hj.
      * congruence.
      * injection Hi as ->. apply Hz. eapply nth_error_In. exact Hj.
      * injection Hj as ->. apply Hz. eapply nth_error_In. exact Hi.
      * apply (IH i j); auto.
  - induction l as [|z l IH]; intros Hp.
    + constructor.
    + constructor.
      * intros y Hy. apply In_nth_error in Hy. destruct Hy as [n Hn].
        split.
        -- apply (Hp 0%nat (S n)); auto.
        -- apply (Hp (S n) 0%nat); auto.
      * apply IH. intros i j x y Hij Hi Hj.
        apply (Hp (S i) (S j)); auto.
Qed.

(** How a run of [updateLocalExtensions] that returns ends. *)
Lemma updateLocalExtensions_result {W} (H : Host W)
      (added : list ISyncExtension) (removed : list IExtensionIdentifier)
      (updated skipped : list ISyncExtension) (s s' : St W)
      (l : list ISyncExtension) :
  updateLocalExtensions H added removed updated skipped s = (Ok l, s') ->
  l = newSkippedExtensions skipped (removeFromSkipped s') (addToSkipped s').
Proof.
  unfold updateLocalExtensions, bind. simpl.
  case_run; [|discriminate].
  case_run; [|discriminate].
  intros Heq. injection Heq as <- <-. reflexivity.
Qed.

(** C9. Whenever [updateLocalExtensions] returns a skip list, starting from
    a skip list in which no two entries have the same identity, no two
    entries of the returned list have the same identity either. *)
Theorem updateLocalExtensions_skip_list_distinct :
  forall (W : Type) (H : Host W)
         (added : list ISyncExtension) (removed : list IExtensionIdentifier)
         (updated skipped : list ISyncExtension) (s s' : St W)
         (newSkipped : list ISyncExtension),
    DistinctIdentities skipped ->
    updateLocalExtensions H added removed updated skipped s
    = (Ok newSkipped, s') ->
    DistinctIdentities newSkipped
    /\ (forall i j x y,
           i <> j -> nth_error newSkipped i = Some x ->
           nth_error newSkipped j = Some y ->
           areSameExtensions (identifier x) (identifier y) = false).
Proof.
  intros W H added removed updated skipped s s' l Hd Hrun.
  apply updateLocalExtensions_result in Hrun. subst l.
  assert (Hnew : DistinctIdentities
                   (newSkippedExtensions skipped (removeFromSkipped s')
                                         (addToSkipped s')))
    by (apply newSkippedExtensions_distinct; exact Hd).
  split; [exact Hnew|].
  apply DistinctIdentities_pairwise. exact Hnew.
Qed.

(** An item the gallery does not know joins a skip list of one entry. *)
Lemma updateLocalExtensions_skip_list_distinct_witness :
  fst (updateLocalExtensions (sampleHost noFault []) [item "b" None] [] []
                             [item "a" None] (start emptyWorld))
  = Ok [item "a" None; item "b" None]
  /\ DistinctIdentities [item "a" None; item "b" None].
Proof.
  split; [reflexivity|].
  refine (proj1 (@updateLocalExtensions_skip_list_distinct
                   World (sampleHost noFault []) [item "b" None] [] []
                   [item "a" None] (start emptyWorld) _ _ _ eq_refl)).
  constructor; [intros y []|constructor].
Defined.

(** ** Migration *)

(** C5. [parseAndMigrateExtensions] upgrades an old payload in memory.  For
    a version-1 payload every item loses its [enabled] field, and gets
    [disabled = true] when [enabled] was [false]; for a version-2 payload
    every item that no installed system extension matches gets
    [installed = true]; the other fields are kept.  A payload of any other
    version, 3 included, is returned as parsed, with no call made.  The only
    call made for versions 1 and 2 is the listing of the system extensions:
    nothing is written to the remote. *)
Theorem parseAndMigrateExtensions_migrates :
  forall (W : Type) (H : Host W) (syncData : ISyncData) (s : St W)
         (extensions : list ISyncExtension),
    JSON_parse H (content syncData) = Ok extensions ->
    (sd_version syncData = 1%Z ->
     forall systemExtensions w',
       getInstalled H (Some System) (world s) = (Ok systemExtensions, w') ->
       fst (parseAndMigrateExtensions H syncData s)
       = Ok (map (fun e =>
                    {| identifier := identifier e;
                       version := version e;
                       disabled := match enabled e with
                                   | Some false => Some true
                                   | _ => disabled e
                                   end;
                       installed := installed e;
                       enabled := None |}) extensions)
       /\ world (snd (parseAndMigrateExtensions H syncData s)) = w'
       /\ log (snd (parseAndMigrateExtensions H syncData s))
          = log s ++ [EvGetInstalled (Some System)])
    /\ (sd_version syncData = 2%Z ->
        forall systemExtensions w',
          getInstalled H (Some System) (world s) = (Ok systemExtensions, w') ->
          fst (parseAndMigrateExtensions H syncData s)
          = Ok (map (fun e =>
                       {| identifier := identifier e;
                          version := version e;
                          disabled := disabled e;
                          installed :=
                            if forallb
                                 (fun x => negb (areSameExtensions
                                                   (l_identifier x)
                                                   (identifier e)))
                                 systemExtensions
                            then Some true else installed e;
                          enabled := enabled e |}) extensions)
          /\ world (snd (parseAndMigrateExtensions H syncData s)) = w'
          /\ log (snd (parseAndMigrateExtensions H syncData s))
             = log s ++ [EvGetInstalled (Some System)])
    /\ (sd_version syncData <> 1%Z -> sd_version syncData <> 2%Z ->
        parseAndMigrateExtensions H syncData s = (Ok extensions, s))
    /\ (sd_version syncData = 3%Z ->
        parseAndMigrateExtensions H syncData s = (Ok extensions, s))
    /\ writes (log (snd (parseAndMigrateExtensions H syncData s)))
       = writes (log s).
Proof.
  intros W H syncData s extensions Hparse.
  assert (Hother : sd_version syncData <> 1%Z -> sd_version syncData <> 2%Z ->
                   parseAndMigrateExtensions H syncData s = (Ok extensions, s)).
  { intros H1 H2.
    unfold parseAndMigrateExtensions, parseExtensions, liftResult, bind.
    rewrite Hparse.
    apply Z.eqb_neq in H1, H2. rewrite H1, H2. reflexivity. }
  assert (Hrun : forall systemExtensions w',
             (sd_version syncData = 1 \/ sd_version syncData = 2)%Z ->
             getInstalled H (Some System) (world s) = (Ok systemExtensions, w') ->
             parseAndMigrateExtensions H syncData s
             = (Ok (map (migrateExtension (sd_version syncData) systemExtensions)
                        extensions),
                {| world := w'; log := log s ++ [EvGetInstalled (Some System)];
                   removeFromSkipped := removeFromSkipped s;
                   addToSkipped := addToSkipped s |})).
  { intros sys w' Hv Hsys.
    unfold parseAndMigrateExtensions, parseExtensions, liftResult, bind, call,
      ret.
    rewrite Hparse.
    replace ((sd_version syncData =? 1)%Z || (sd_version syncData =? 2)%Z)
      with true
      by (destruct Hv as [-> | ->]; reflexivity).
    rewrite Hsys. reflexivity. }
  split; [|split; [|split; [|split]]].
  - intros Hv sys w' Hsys.
    rewrite (Hrun sys w' (or_introl Hv) Hsys). simpl.
    split; [|split; reflexivity].
    f_equal. apply map_ext. intros e.
    unfold migrateExtension. rewrite Hv. simpl.
    unfold enabledIsFalse, delete_enabled, set_disabled.
    destruct (enabled e) as [[|]|]; reflexivity.
  - intros Hv sys w' Hsys.
    rewrite (Hrun sys w' (or_intror Hv) Hsys). simpl.
    split; [|split; reflexivity].
    f_equal. apply map_ext. intros e.
    unfold migrateExtension. rewrite Hv. simpl.
    destruct (forallb _ sys); [reflexivity|].
    destruct e; reflexivity.
  - exact Hother.
  - intros Hv. apply Hother; rewrite Hv; discriminate.
  - unfold parseAndMigrateExtensions, parseExtensions, liftResult, bind, call,
      ret.
    rewrite Hparse.
    destruct ((sd_version syncData =? 1)%Z || (sd_version syncData =? 2)%Z);
      [|reflexivity].
    destruct (getInstalled H (Some System) (world s)) as [[sys|e] w'];
      simpl; rewrite writes_app; simpl; apply app_nil_r.
Qed.

(** A version-1 payload with one item disabled through [enabled = false]. *)
Lemma parseAndMigrateExtensions_migrates_witness :
  fst (parseAndMigrateExtensions (sampleHost noFault sampleDocuments)
                                 (payload 1 "v1") (start homeWorld))
  = Ok [{| identifier := ident "a" None; version := None;
           disabled := Some true; installed := None; enabled := None |};
        {| identifier := ident "b" None; version := None;
           disabled := None; installed := None; enabled := None |}].
Proof.
  destruct (@parseAndMigrateExtensions_migrates
              World (sampleHost noFault sampleDocuments) (payload 1 "v1")
              (start homeWorld) _ eq_refl) as (Hv1 & _).
  destruct (Hv1 eq_refl _ _ eq_refl) as (Hr & _).
  exact Hr.
Defined.

(** ** [hasLocalData] *)

Lemma existsb_toSyncExtension (test : ISyncExtension -> bool)
      (disabledExtensions : list IExtensionIdentifier)
      (installedExtensions : list ILocalExtension) :
  existsb test (map (toSyncExtension disabledExtensions) installedExtensions)
  = existsb (fun x => test (toSyncExtension disabledExtensions x))
            installedExtensions.
Proof.
  induction installedExtensions as [|x rest IH]; simpl; [reflexivity|].
  rewrite IH. reflexivity.
Qed.

(** C10. [hasLocalData] never throws.  It returns [false] when listing the
    installed extensions fails and when reading the disabled extensions
    fails; otherwise it returns [true] exactly when some installed extension
    is of type [User] or matches a disabled identity. *)
Theorem hasLocalData_never_throws :
  forall (W : Type) (H : Host W) (s : St W),
    (exists b, fst (hasLocalData H s) = Ok b)
    /\ match getInstalled H None (world s) with
       | (Throw _, _) => fst (hasLocalData H s) = Ok false
       | (Ok installedExtensions, w1) =>
           match getDisabledExtensions H w1 with
           | (Throw _, _) => fst (hasLocalData H s) = Ok false
           | (Ok disabledExtensions, _) =>
               (fst (hasLocalData H s) = Ok true <->
                exists x, In x installedExtensions
                          /\ (type x = User
                              \/ exists d, In d disabledExtensions
                                           /\ areSameExtensions
                                                d (l_identifier x) = true))
               /\ (fst (hasLocalData H s) = Ok false <->
                   ~ exists x, In x installedExtensions
                               /\ (type x = User
                                   \/ exists d, In d disabledExtensions
                                                /\ areSameExtensions
                                                     d (l_identifier x) = true))
           end
       end.
Proof.
  intros W H s.
  unfold hasLocalData, getLocalExtensions, try_catch, bind, call, ret.
  destruct (getInstalled H None (world s)) as [[inst|e] w1]; simpl.
  2: { split; [exists false|]; reflexivity. }
  destruct (getDisabledExtensions H w1) as [[dis|e] w2]; simpl.
  2: { split; [exists false|]; reflexivity. }
  split; [eexists; reflexivity|].
  rewrite existsb_toSyncExtension.
  set (test := fun x : ILocalExtension =>
                 truthy (installed (toSyncExtension dis x))
                 || truthy (disabled (toSyncExtension dis x))).
  assert (Htest : existsb test inst = true <->
                  exists x, In x inst
                            /\ (type x = User
                                \/ exists d, In d dis
                                             /\ areSameExtensions
                                                  d (l_identifier x) = true)).
  { rewrite existsb_exists. split.
    - intros (x & Hx & Ht). exists x. split; [exact Hx|].
      unfold test in Ht. simpl in Ht. apply orb_true_iff in Ht.
      destruct Ht as [Ht|Ht].
      + left. destruct (type x); [discriminate | reflexivity].
      + right. destruct (existsb _ dis) eqn:He; [|discriminate].
        apply existsb_exists in He. exact He.
    - intros (x & Hx & Hor). exists x. split; [exact Hx|].
      unfold test. simpl. apply orb_true_iff.
      destruct Hor as [Hu|Hd].
      + left. rewrite Hu. reflexivity.
      + right. apply existsb_exists in Hd. rewrite Hd. reflexivity. }
  destruct (existsb test inst) eqn:He.
  - split.
    + split; [intros _; apply Htest; reflexivity | reflexivity].
    + split; [discriminate|]. intros Hn. exfalso. apply Hn. apply Htest.
      reflexivity.
  - split.
    + split; [discriminate|]. intros Hex. apply Htest in Hex. discriminate.
    + split; [|reflexivity]. intros _ Hex. apply Htest in Hex. discriminate.
Qed.

(** ** The local apply *)

Lemma setEnablementOf_run {W} (H : Host W) (e : ISyncExtension)
      (i : IExtensionIdentifier) (s : St W) :
  fst (setEnablementOf H e i s) = fst (enablementCall H e i (world s))
  /\ world (snd (setEnablementOf H e i s)) = snd (enablementCall H e i (world s))
  /\ removeFromSkipped (snd (setEnablementOf H e i s)) = removeFromSkipped s
  /\ addToSkipped (snd (setEnablementOf H e i s)) = addToSkipped s.
Proof.
  unfold setEnablementOf, enablementCall, call.
  destruct (truthy (disabled e)).
  - destruct (disableExtension H i (world s)); simpl; auto.
  - destruct (enableExtension H i (world s)); simpl; auto.
Qed.

(** The [try] block never lets an exception out, and records the item when
    one was raised. *)
Lemma try_enableAndInstall {W} (H : Host W) (e : ISyncExtension)
      (found : option ILocalExtension) (extension : IGalleryExtension)
      (s : St W) :
  let out := try_catch (enableAndInstall H e found extension)
                       (fun _ => addToSkipped_push e) s in
  let en := enablementCall H e (g_identifier extension) (world s) in
  fst out = Ok tt
  /\ ((threw (fst en) = true
       \/ (hasToInstall found extension = true
           /\ threw (fst (installFromGallery H extension (snd en))) = true)) ->
      addToSkipped (snd out) = addToSkipped s ++ [e]).
Proof.
  destruct (setEnablementOf_run H e (g_identifier extension) s)
    as (Hr & Hw & _ & Ha).
  unfold try_catch, enableAndInstall, bind.
  destruct (setEnablementOf H e (g_identifier extension) s) as [r s1].
  simpl in Hr, Hw, Ha. rewrite <- Hr, <- Hw.
  destruct r as [u|err]; simpl.
  - destruct (hasToInstall found extension); simpl.
    + unfold call.
      destruct (installFromGallery H extension (world s1)) as [[u'|err] w2];
        simpl.
      * split; [reflexivity|]. intros [Hc|[_ Hc]]; discriminate.
      * split; [reflexivity|]. intros _. rewrite Ha. reflexivity.
    + split; [reflexivity|]. intros [Hc|[Hc _]]; discriminate.
  - split; [reflexivity|]. intros _. rewrite Ha. reflexivity.
Qed.

Lemma syncExtension_resolved {W} (H : Host W) (e : ISyncExtension) (s : St W)
      (installedExtensions : list ILocalExtension) (w1 w2 : W)
      (extension : IGalleryExtension) :
  getInstalled H None (world s) = (Ok installedExtensions, w1) ->
  isSystemExtension (installedFor e installedExtensions) = false ->
  getCompatibleExtension H (identifier e) (version e) w1
  = (Ok (Some extension), w2) ->
  let en := enablementCall H e (g_identifier extension) w2 in
  fst (syncExtension H e s) = Ok tt
  /\ ((threw (fst en) = true
       \/ (hasToInstall (installedFor e installedExtensions) extension = true
           /\ threw (fst (installFromGallery H extension (snd en))) = true)) ->
      addToSkipped (snd (syncExtension H e s)) = addToSkipped s ++ [e]).
Proof.
  intros Hinst Hsys Hgal.
  unfold syncExtension, bind, call. rewrite Hinst.
  fold (installedFor e installedExtensions). rewrite Hsys.
  cbn [world]. rewrite Hgal.
  match goal with
  | |- context [try_catch _ _ ?st] =>
      exact (@try_enableAndInstall W H e (installedFor e installedExtensions)
                                   extension st)
  end.
Qed.

Lemma pushSkipped_keeps (addTo acc : list ISyncExtension) (x : ISyncExtension) :
  In x acc -> In x (pushSkipped acc addTo).
Proof.
  revert acc. induction addTo as [|y rest IH]; intros acc Hx; simpl.
  - exact Hx.
  - destruct (existsb _ acc); apply IH; [exact Hx|].
    apply in_or_app. left. exact Hx.
Qed.

Lemma pushSkipped_covers (addTo acc : list ISyncExtension) (e : ISyncExtension) :
  In e addTo ->
  exists x, In x (pushSkipped acc addTo)
            /\ areSameExtensions (identifier x) (identifier e) = true.
Proof.
  revert acc. induction addTo as [|y rest IH]; intros acc He; [destruct He|].
  destruct He as [->|He]; simpl.
  - destruct (existsb _ acc) eqn:Hex.
    + apply existsb_exists in Hex. destruct Hex as (x & Hx & Hsame).
      exists x. split; [apply pushSkipped_keeps; exact Hx | exact Hsame].
    + exists e. split; [|apply areSameExtensions_refl].
      apply pushSkipped_keeps. apply in_or_app. right. left. reflexivity.
  - destruct (existsb _ acc); apply IH; exact He.
Qed.

(** ** Callbacks side by side *)

Lemma pick_In {X} (n : nat) (pool rest : list X) (r : X) :
  pick n pool = Some (r, rest) ->
  forall x, In x pool <-> x = r \/ In x rest.
Proof.
  revert n rest r. induction pool as [|y pool IH]; intros n rest r Hp x;
    [discriminate|].
  destruct n as [|n]; simpl in Hp.
  - injection Hp as <- <-. simpl. split; intros [Hx|Hx]; auto.
  - destruct (pick n pool) as [[r' rest']|] eqn:Hn.
    + injection Hp as <- <-. specialize (IH n rest' r' Hn x). simpl.
      rewrite IH. split; intros Hx; intuition.
    + injection Hp as <- <-. simpl. split; intros [Hx|Hx]; auto.
Qed.

Lemma pick_None {X} (n : nat) (pool : list X) : pick n pool = None -> pool = [].
Proof.
  destruct pool as [|y pool]; [reflexivity|]. destruct n as [|n]; simpl.
  - discriminate.
  - destruct (pick n pool) as [[r' rest']|]; discriminate.
Qed.

(** *** Turns that keep a relation *)

Section Turns.

Context {W : Type}.
Variable R : St W -> St W -> Prop.
Hypothesis R_refl : forall s, R s s.
Hypothesis R_trans : forall s1 s2 s3, R s1 s2 -> R s2 s3 -> R s1 s3.

Lemma Keeps_bind {A B} (m : M W A) (k : A -> M W B) :
  Keeps R m -> (forall a, Keeps R (k a)) -> Keeps R (bind m k).
Proof.
  intros Hm Hk s. unfold bind. specialize (Hm s).
  destruct (m s) as [[a|e] s1]; [|exact Hm].
  exact (R_trans Hm (Hk a s1)).
Qed.

Lemma AsyncKeeps_now {A} (m : M W A) : Keeps R m -> AsyncKeeps R (now m).
Proof.
  intros Hm s. unfold now. specialize (Hm s). destruct (m s) as [r s'].
  split; [exact Hm | exact I].
Qed.

Lemma AsyncKeeps_await {A} (m : M W A) : Keeps R m -> AsyncKeeps R (await m).
Proof.
  intros Hm s. unfold await. specialize (Hm s). destruct (m s) as [r s'].
  split; [exact Hm|]. intros s2. split; [apply R_refl | exact I].
Qed.

Lemma andThen_keeps {A B} (k : A -> Async W B) :
  (forall a, AsyncKeeps R (k a)) ->
  forall t, TaskKeeps R t -> AsyncKeeps R (andThen t k).
Proof.
  intros Hk t. induction t as [[a|e]|resume IH] using Task_induction;
    intros Ht s; simpl.
  - apply Hk.
  - split; [apply R_refl | exact I].
  - split; [apply R_refl|]. intros s1.
    specialize (Ht s1). specialize (IH s1).
    destruct (resume s1) as [t' s2]. destruct Ht as [HR Ht'].
    specialize (IH Ht' s2). simpl in IH.
    destruct (andThen t' k s2) as [t3 s3]. destruct IH as [HR' Ht3].
    split; [exact (R_trans HR HR') | exact Ht3].
Qed.

Lemma AsyncKeeps_abind {A B} (p : Async W A) (k : A -> Async W B) :
  AsyncKeeps R p -> (forall a, AsyncKeeps R (k a)) -> AsyncKeeps R (abind p k).
Proof.
  intros Hp Hk s. unfold abind. specialize (Hp s).
  destruct (p s) as [t s1]. destruct Hp as [HR Ht].
  pose proof (@andThen_keeps _ _ k Hk t Ht s1) as Hn.
  destruct (andThen t k s1) as [t2 s2]. destruct Hn as [HR' Ht2].
  split; [exact (R_trans HR HR') | exact Ht2].
Qed.

Lemma orElse_keeps {A} (h : Error -> Async W A) :
  (forall e, AsyncKeeps R (h e)) ->
  forall t, TaskKeeps R t -> AsyncKeeps R (orElse t h).
Proof.
  intros Hh t. induction t as [[a|e]|resume IH] using Task_induction;
    intros Ht s; simpl.
  - split; [apply R_refl | exact I].
  - apply Hh.
  - split; [apply R_refl|]. intros s1.
    specialize (Ht s1). specialize (IH s1).
    destruct (resume s1) as [t' s2]. destruct Ht as [HR Ht'].
    specialize (IH Ht' s2). simpl in IH.
    destruct (orElse t' h s2) as [t3 s3]. destruct IH as [HR' Ht3].
    split; [exact (R_trans HR HR') | exact Ht3].
Qed.

Lemma AsyncKeeps_atry_catch {A} (p : Async W A) (h : Error -> Async W A) :
  AsyncKeeps R p -> (forall e, AsyncKeeps R (h e)) ->
  AsyncKeeps R (atry_catch p h).
Proof.
  intros Hp Hh s. unfold atry_catch. specialize (Hp s).
  destruct (p s) as [t s1]. destruct Hp as [HR Ht].
  pose proof (@orElse_keeps _ h Hh t Ht s1) as Hn.
  destruct (orElse t h s1) as [t2 s2]. destruct Hn as [HR' Ht2].
  split; [exact (R_trans HR HR') | exact Ht2].
Qed.

Lemma finish_keeps {A} (t : Task W A) :
  TaskKeeps R t -> forall s, R s (snd (finish t s)).
Proof.
  induction t as [r|resume IH] using Task_induction; intros Ht s; simpl.
  - apply R_refl.
  - specialize (Ht s). specialize (IH s).
    destruct (resume s) as [t' s1]. destruct Ht as [HR Ht'].
    exact (R_trans HR (IH Ht' s1)).
Qed.

Lemma startAll_keeps {A} (callback : A -> Async W unit) (items : list A) :
  (forall x, In x items -> AsyncKeeps R (callback x)) ->
  forall s, R s (snd (startAll callback items s))
            /\ Forall (TaskKeeps R) (fst (startAll callback items s)).
Proof.
  induction items as [|x rest IH]; intros Hc s; simpl.
  - split; [apply R_refl | constructor].
  - pose proof (Hc x (or_introl eq_refl) s) as Hx.
    destruct (callback x s) as [t s1]. destruct Hx as [HR Ht].
    destruct (IH (fun y Hy => Hc y (or_intror Hy)) s1) as [HR' Hts].
    destruct (startAll callback rest s1) as [ts s2]. simpl in *.
    split; [exact (R_trans HR HR') | constructor; assumption].
Qed.

Lemma suspended_keeps (ts : list (Task W unit)) :
  Forall (TaskKeeps R) ts -> Forall (AsyncKeeps R) (suspended ts).
Proof.
  induction 1 as [|t ts Ht Hts IH]; simpl; [constructor|].
  destruct t as [r|resume]; [exact IH|]. constructor; [exact Ht | exact IH].
Qed.

Lemma drain_keeps (pool : list (Async W unit)) :
  Forall (AsyncKeeps R) pool -> forall s, R s (snd (drain pool s)).
Proof.
  induction 1 as [|resume rest Hr Hrest IH]; intros s; simpl.
  - apply R_refl.
  - pose proof (@finish_keeps unit (Suspended resume) Hr s) as Hf.
    simpl in Hf.
    destruct (resume s) as [t' s1]. destruct (finish t' s1) as [[u|e] s2];
      simpl in Hf |- *.
    + exact (R_trans Hf (IH s2)).
    + exact Hf.
Qed.

Lemma resolveAll_keeps (order : list nat) :
  forall (pool : list (Async W unit)) (s : St W),
    Forall (AsyncKeeps R) pool -> R s (snd (resolveAll order pool s)).
Proof.
  induction order as [|n order IH]; intros pool s Hpool; simpl.
  - apply drain_keeps. exact Hpool.
  - destruct (pick n pool) as [[resume rest]|] eqn:Hp; [|apply R_refl].
    pose proof (pick_In _ _ Hp) as Hin. rewrite Forall_forall in Hpool.
    pose proof (Hpool resume (proj2 (Hin resume) (or_introl eq_refl)) s) as Hr.
    assert (Hrest : Forall (AsyncKeeps R) rest).
    { apply Forall_forall. intros x Hx. apply Hpool. apply Hin. right. exact Hx. }
    destruct (resume s) as [[[u|e]|resume'] s1]; destruct Hr as [HR Ht].
    + exact (R_trans HR (IH rest s1 Hrest)).
    + exact HR.
    + refine (R_trans HR (IH _ s1 _)).
      apply Forall_app. split; [exact Hrest | constructor; [exact Ht|constructor]].
Qed.

Lemma Keeps_Promise_all_map {A} (order : W -> list nat)
      (callback : A -> Async W unit) (items : list A) :
  (forall x, In x items -> AsyncKeeps R (callback x)) ->
  Keeps R (Promise_all_map order callback items).
Proof.
  intros Hc s. unfold Promise_all_map, Promise_all_run.
  destruct (startAll_keeps callback items Hc s) as [HR Hts].
  destruct (startAll callback items s) as [ts s1]. simpl in HR, Hts.
  destruct (firstRejection ts) as [e|]; [exact HR|].
  pose proof (resolveAll_keeps (order (world s1)) s1 (suspended_keeps Hts))
    as Hres.
  destruct (resolveAll (order (world s1)) (suspended ts) s1) as [[r left] s2].
  exact (R_trans HR Hres).
Qed.

(** *** What a callback makes hold before it completes *)

Variables I G : St W -> Prop.
Hypothesis I_stable : forall s s', R s s' -> I s -> I s'.
Hypothesis G_stable : forall s s', R s s' -> G s -> G s'.

Lemma finish_ensures (t : Task W unit) :
  TaskKeeps R t ->
  forall s, I s -> G s \/ TaskEnsures I G t ->
            fst (finish t s) = Ok tt -> G (snd (finish t s)).
Proof.
  induction t as [r|resume IH] using Task_induction;
    intros Ht s HI Hg Hok; simpl in *.
  - destruct Hg as [Hg|Hg]; [exact Hg|]. subst r. destruct Hg.
  - specialize (Ht s). specialize (IH s).
    assert (Hg' : match resume s with
                  | (t', s') => G s' \/ TaskEnsures I G t'
                  end).
    { destruct Hg as [Hg|Hg]; [|exact (Hg s HI)].
      destruct (resume s) as [t' s1]. left.
      exact (G_stable (proj1 Ht) Hg). }
    destruct (resume s) as [t' s1]. destruct Ht as [HR Ht'].
    exact (IH Ht' s1 (I_stable HR HI) Hg' Hok).
Qed.

Lemma drain_ensures (pool : list (Async W unit)) :
  Forall (AsyncKeeps R) pool ->
  forall s, I s -> G s \/ Exists (AsyncEnsures I G) pool ->
            fst (fst (drain pool s)) = Ok tt -> G (snd (drain pool s)).
Proof.
  induction 1 as [|resume rest Hr Hrest IH]; intros s HI Hg Hok.
  - destruct Hg as [Hg|Hg]; [exact Hg | inversion Hg].
  - simpl in Hok |- *.
    pose proof (@finish_keeps unit (Suspended resume) Hr s) as Hf.
    pose proof (@finish_ensures (Suspended resume) Hr s HI) as He.
    simpl in Hf, He.
    destruct (resume s) as [t' s1]. destruct (finish t' s1) as [[[]|e] s2];
      simpl in Hf, He, Hok |- *; [|discriminate].
    apply IH; [exact (I_stable Hf HI) | | exact Hok].
    destruct Hg as [Hg|Hg]; [left; exact (G_stable Hf Hg)|].
    inversion Hg as [x l Hx|x l Hx]; subst.
    + left. apply He; [right; exact Hx | reflexivity].
    + right. exact Hx.
Qed.

Lemma resolveAll_ensures (order : list nat) :
  forall (pool : list (Async W unit)) (s : St W),
    Forall (AsyncKeeps R) pool ->
    I s -> G s \/ Exists (AsyncEnsures I G) pool ->
    fst (fst (resolveAll order pool s)) = Ok tt ->
    G (snd (resolveAll order pool s)).
Proof.
  induction order as [|n order IH]; intros pool s Hpool HI Hg Hok;
    simpl in Hok |- *.
  - apply drain_ensures; assumption.
  - destruct (pick n pool) as [[resume rest]|] eqn:Hp.
    + pose proof (pick_In _ _ Hp) as Hin. rewrite Forall_forall in Hpool.
      pose proof (Hpool resume (proj2 (Hin resume) (or_introl eq_refl)) s)
        as Hr.
      assert (Hrest : Forall (AsyncKeeps R) rest).
      { apply Forall_forall. intros x Hx. apply Hpool. apply Hin. right.
        exact Hx. }
      assert (Hg' : match resume s with
                    | (t', s') =>
                        G s' \/ TaskEnsures I G t'
                        \/ Exists (AsyncEnsures I G) rest
                    end).
      { destruct Hg as [Hg|Hg].
        - destruct (resume s) as [t' s1]. left.
          exact (G_stable (proj1 Hr) Hg).
        - apply Exists_exists in Hg. destruct Hg as (x & Hx & Hens).
          apply Hin in Hx. destruct Hx as [->|Hx].
          + specialize (Hens s HI). destruct (resume s) as [t' s1]. tauto.
          + destruct (resume s) as [t' s1]. right. right.
            apply Exists_exists. exists x. auto. }
      destruct (resume s) as [[[[]|e]|resume'] s1]; destruct Hr as [HR Ht];
        simpl in Hok |- *; [| discriminate |].
      * apply IH; [exact Hrest | exact (I_stable HR HI) | | exact Hok].
        destruct Hg' as [Hg'|[[]|Hg']]; auto.
      * apply IH; [| exact (I_stable HR HI) | | exact Hok].
        -- apply Forall_app. split; [exact Hrest|].
           constructor; [exact Ht | constructor].
        -- destruct Hg' as [Hg'|[Hg'|Hg']]; [left; exact Hg' | |];
             right; apply Exists_app; [right | left; exact Hg'].
           constructor. exact Hg'.
    + apply pick_None in Hp. subst pool.
      destruct Hg as [Hg|Hg]; [exact Hg | inversion Hg].
Qed.

Lemma startAll_ensures {A} (callback : A -> Async W unit) (items : list A)
      (x : A) :
  (forall y, In y items -> AsyncKeeps R (callback y)) ->
  In x items -> AsyncEnsures I G (callback x) ->
  forall s, I s ->
            G (snd (startAll callback items s))
            \/ Exists (TaskEnsures I G) (fst (startAll callback items s)).
Proof.
  induction items as [|y rest IH]; intros Hc Hx Hens s HI; [destruct Hx|].
  simpl.
  pose proof (Hc y (or_introl eq_refl) s) as Hy.
  pose proof (startAll_keeps callback rest (fun z Hz => Hc z (or_intror Hz)))
    as Hrest.
  destruct Hx as [->|Hx].
  - specialize (Hens s HI).
    destruct (callback x s) as [t s1]. specialize (Hrest s1).
    destruct (startAll callback rest s1) as [ts s2]. simpl in *.
    destruct Hens as [Hg|Ht].
    + left. exact (G_stable (proj1 Hrest) Hg).
    + right. constructor. exact Ht.
  - destruct (callback y s) as [t s1]. destruct Hy as [HR Ht].
    specialize (IH (fun z Hz => Hc z (or_intror Hz)) Hx Hens s1
                   (I_stable HR HI)).
    destruct (startAll callback rest s1) as [ts s2]. simpl in *.
    destruct IH as [Hg|Hex]; [left; exact Hg | right].
    apply Exists_cons_tl. exact Hex.
Qed.

Lemma suspended_ensures (ts : list (Task W unit)) :
  Exists (TaskEnsures I G) ts -> firstRejection ts = None ->
  Exists (AsyncEnsures I G) (suspended ts).
Proof.
  induction ts as [|t ts IH]; intros Hex Hf; [inversion Hex|].
  destruct t as [[[]|e]|resume]; simpl in Hf |- *; [| discriminate |].
  - inversion Hex as [x l Hx|x l Hx]; subst; [destruct Hx|].
    apply IH; assumption.
  - inversion Hex as [x l Hx|x l Hx]; subst.
    + constructor. exact Hx.
    + apply Exists_cons_tl. apply IH; assumption.
Qed.

Lemma Promise_all_map_ensures {A} (order : W -> list nat)
      (callback : A -> Async W unit) (items : list A) (x : A) (s : St W) :
  (forall y, In y items -> AsyncKeeps R (callback y)) ->
  In x items -> AsyncEnsures I G (callback x) -> I s ->
  fst (Promise_all_map order callback items s) = Ok tt ->
  G (snd (Promise_all_map order callback items s)).
Proof.
  intros Hc Hx Hens HI. unfold Promise_all_map, Promise_all_run.
  destruct (startAll_keeps callback items Hc s) as [HR Hts].
  pose proof (@startAll_ensures _ callback items x Hc Hx Hens s HI) as Hst.
  destruct (startAll callback items s) as [ts s1]. simpl in HR, Hts, Hst.
  destruct (firstRejection ts) as [e|] eqn:Hf; [discriminate|].
  pose proof (@resolveAll_ensures (order (world s1)) (suspended ts) s1
                                  (suspended_keeps Hts) (I_stable HR HI))
    as Hres.
  destruct (resolveAll (order (world s1)) (suspended ts) s1) as [[r left] s2].
  simpl in Hres |- *. intros Hok. apply Hres; [|exact Hok].
  destruct Hst as [Hg|Hex]; [left; exact Hg | right].
  apply suspended_ensures; assumption.
Qed.

End Turns.

(** *** Callbacks that do not reject *)

Section Completion.

Context {W : Type}.

Lemma finish_completes {A} (t : Task W A) :
  TaskCompletes t -> forall s, threw (fst (finish t s)) = false.
Proof.
  induction t as [r|resume IH] using Task_induction; intros Ht s; simpl.
  - exact Ht.
  - specialize (Ht s). specialize (IH s).
    destruct (resume s) as [t' s1]. exact (IH Ht s1).
Qed.

Lemma startAll_completes {A} (callback : A -> Async W unit) (items : list A) :
  (forall x, In x items -> AsyncCompletes (callback x)) ->
  forall s, Forall TaskCompletes (fst (startAll callback items s)).
Proof.
  induction items as [|x rest IH]; intros Hc s; simpl; [constructor|].
  pose proof (Hc x (or_introl eq_refl) s) as Hx.
  destruct (callback x s) as [t s1].
  specialize (IH (fun y Hy => Hc y (or_intror Hy)) s1).
  destruct (startAll callback rest s1) as [ts s2].
  constructor; assumption.
Qed.

Lemma firstRejection_completes (ts : list (Task W unit)) :
  Forall TaskCompletes ts -> firstRejection ts = None.
Proof.
  induction 1 as [|t ts Ht Hts IH]; simpl; [reflexivity|].
  destruct t as [[u|e]|resume]; [exact IH | discriminate | exact IH].
Qed.

Lemma suspended_completes (ts : list (Task W unit)) :
  Forall TaskCompletes ts -> Forall AsyncCompletes (suspended ts).
Proof.
  induction 1 as [|t ts Ht Hts IH]; simpl; [constructor|].
  destruct t as [r|resume]; [exact IH|]. constructor; [exact Ht | exact IH].
Qed.

Lemma drain_completes (pool : list (Async W unit)) :
  Forall AsyncCompletes pool -> forall s, fst (drain pool s) = (Ok tt, []).
Proof.
  induction 1 as [|resume rest Hr Hrest IH]; intros s; simpl; [reflexivity|].
  pose proof (@finish_completes unit (Suspended resume) Hr s) as Hf.
  simpl in Hf.
  destruct (resume s) as [t' s1]. destruct (finish t' s1) as [[[]|e] s2];
    [apply IH | discriminate].
Qed.

Lemma resolveAll_completes (order : list nat) :
  forall (pool : list (Async W unit)) (s : St W),
    Forall AsyncCompletes pool -> fst (resolveAll order pool s) = (Ok tt, []).
Proof.
  induction order as [|n order IH]; intros pool s Hpool; simpl.
  - apply drain_completes. exact Hpool.
  - destruct (pick n pool) as [[resume rest]|] eqn:Hp; [|reflexivity].
    pose proof (pick_In _ _ Hp) as Hin. rewrite Forall_forall in Hpool.
    pose proof (Hpool resume (proj2 (Hin resume) (or_introl eq_refl)) s) as Hr.
    assert (Hrest : Forall AsyncCompletes rest).
    { apply Forall_forall. intros x Hx. apply Hpool. apply Hin. right. exact Hx. }
    destruct (resume s) as [[[[]|e]|resume'] s1]; simpl in Hr.
    + apply IH. exact Hrest.
    + discriminate.
    + apply IH. apply Forall_app.
      split; [exact Hrest | constructor; [exact Hr | constructor]].
Qed.

(** When no callback can reject, the wait ends well and no callback is left
    suspended. *)
Lemma Promise_all_completes {A} (order : W -> list nat)
      (callback : A -> Async W unit) (items : list A) (s : St W) :
  (forall x, In x items -> AsyncCompletes (callback x)) ->
  fst (Promise_all_run order callback items s) = (Ok tt, [])
  /\ fst (Promise_all_map order callback items s) = Ok tt.
Proof.
  intros Hc. unfold Promise_all_map, Promise_all_run.
  pose proof (startAll_completes callback items Hc s) as Hts.
  destruct (startAll callback items s) as [ts s1]. simpl in Hts.
  rewrite (firstRejection_completes Hts).
  pose proof (resolveAll_completes (order (world s1)) s1
                                   (suspended_completes Hts)) as Hres.
  destruct (resolveAll (order (world s1)) (suspended ts) s1) as [[r left] s2].
  simpl in Hres. injection Hres as -> ->. split; reflexivity.
Qed.

End Completion.

(** *** A body run on its own *)

Section Alone.

Context {W : Type}.

Lemma alone_now {A} (m : M W A) (s : St W) : alone (now m) s = m s.
Proof. unfold alone, now. destruct (m s) as [r s1]. reflexivity. Qed.

Lemma alone_await {A} (m : M W A) (s : St W) : alone (await m) s = m s.
Proof. unfold alone, await. destruct (m s) as [r s1]. reflexivity. Qed.

Lemma finish_andThen {A B} (k : A -> Async W B) (t : Task W A) :
  forall s, alone (andThen t k) s = bind (finish t) (fun a => alone (k a)) s.
Proof.
  induction t as [[a|e]|resume IH] using Task_induction; intros s;
    try reflexivity.
  unfold alone, bind in *. simpl. specialize (IH s).
  destruct (resume s) as [t' s1]. apply IH.
Qed.

Lemma alone_abind {A B} (p : Async W A) (k : A -> Async W B) (s : St W) :
  alone (abind p k) s = bind (alone p) (fun a => alone (k a)) s.
Proof.
  pose proof (fun t => @finish_andThen A B k t) as Hf.
  unfold alone, abind, bind in *. destruct (p s) as [t s1]. apply Hf.
Qed.

Lemma finish_orElse {A} (h : Error -> Async W A) (t : Task W A) :
  forall s, alone (orElse t h) s
            = try_catch (finish t) (fun e => alone (h e)) s.
Proof.
  induction t as [[a|e]|resume IH] using Task_induction; intros s;
    try reflexivity.
  unfold alone, try_catch in *. simpl. specialize (IH s).
  destruct (resume s) as [t' s1]. apply IH.
Qed.

Lemma alone_atry_catch {A} (p : Async W A) (h : Error -> Async W A)
      (s : St W) :
  alone (atry_catch p h) s = try_catch (alone p) (fun e => alone (h e)) s.
Proof.
  pose proof (fun t => @finish_orElse A h t) as Hf.
  unfold alone, atry_catch, try_catch in *. destruct (p s) as [t s1].
  apply Hf.
Qed.

Lemma bind_ext {A B} (m m' : M W A) (k k' : A -> M W B) (s : St W) :
  (forall s0, m s0 = m' s0) -> (forall a s0, k a s0 = k' a s0) ->
  bind m k s = bind m' k' s.
Proof.
  intros Hm Hk. unfold bind. rewrite Hm.
  destruct (m' s) as [[a|e] s1]; [apply Hk | reflexivity].
Qed.

Lemma try_catch_ext {A} (m m' : M W A) (h h' : Error -> M W A) (s : St W) :
  (forall s0, m s0 = m' s0) -> (forall e s0, h e s0 = h' e s0) ->
  try_catch m h s = try_catch m' h' s.
Proof.
  intros Hm Hh. unfold try_catch. rewrite Hm.
  destruct (m' s) as [[a|e] s1]; [reflexivity | apply Hh].
Qed.

End Alone.

(** *** The two callbacks *)

Section Callbacks.

Context {W : Type} (H : Host W).

(** Run on its own, each callback is the uninterrupted run. *)
Lemma alone_uninstallExtensionAsync (x : ILocalExtension) (s : St W) :
  alone (uninstallExtensionAsync H x) s = uninstallExtension H x s.
Proof.
  unfold uninstallExtensionAsync, uninstallExtension.
  rewrite alone_abind. apply bind_ext; intros; [apply alone_await|].
  apply alone_now.
Qed.

Lemma alone_syncExtensionAsync (e : ISyncExtension) (s : St W) :
  alone (syncExtensionAsync H e) s = syncExtension H e s.
Proof.
  unfold syncExtensionAsync, syncListed, syncExtension.
  rewrite alone_abind. apply bind_ext; [intros; apply alone_await|].
  intros l s1. cbv zeta.
  destruct (isSystemExtension _).
  - rewrite alone_abind. apply bind_ext; intros; [apply alone_await|].
    apply alone_now.
  - rewrite alone_abind. apply bind_ext; [intros; apply alone_await|].
    intros [extension|] s2; [|apply alone_now].
    rewrite alone_atry_catch. apply try_catch_ext; [|intros; apply alone_now].
    intros s3. unfold enableAndInstallAsync, enableAndInstall.
    rewrite alone_abind. apply bind_ext; [intros; apply alone_await|].
    intros _ s4. destruct (hasToInstall _ _); [|apply alone_now].
    rewrite alone_abind. apply bind_ext; intros; [apply alone_await|].
    apply alone_now.
Qed.

End Callbacks.

(** *** The turns of the two callbacks *)

Section CallbackTurns.

Context {W : Type} (H : Host W).

(** A body that starts with an awaited call: the call is made in the first
    turn; the second turn starts with its outcome. *)
Lemma abind_await_call {A B} (ev : Event) (f : W -> result A * W)
      (k : A -> Async W B) (s : St W) :
  abind (await (call ev f)) k s
  = (Suspended (fun s' => match fst (f (world s)) with
                          | Ok a => k a s'
                          | Throw e => (Settled (Throw e), s')
                          end),
     snd (call ev f s)).
Proof.
  unfold abind, await, call. destruct (f (world s)) as [[a|e] w]; reflexivity.
Qed.

Lemma atry_catch_await_call {A B} (ev : Event) (f : W -> result A * W)
      (k : A -> Async W B) (h : Error -> Async W B) (s : St W) :
  atry_catch (abind (await (call ev f)) k) h s
  = (Suspended (fun s' => match fst (f (world s)) with
                          | Ok a => atry_catch (k a) h s'
                          | Throw e => h e s'
                          end),
     snd (call ev f s)).
Proof.
  unfold atry_catch, abind, await, call.
  destruct (f (world s)) as [[a|e] w]; reflexivity.
Qed.

Lemma setEnablementOf_call (e : ISyncExtension) (i : IExtensionIdentifier) :
  setEnablementOf H e i
  = call (if truthy (disabled e) then EvDisableExtension i
          else EvEnableExtension i)
         (enablementCall H e i).
Proof.
  unfold setEnablementOf, enablementCall.
  destruct (truthy (disabled e)); reflexivity.
Qed.

(** Every turn of the callbacks keeps a relation that their calls and their
    pushes keep. *)
Section Kept.

Variable R : St W -> St W -> Prop.
Hypothesis R_refl : forall s, R s s.
Hypothesis R_trans : forall s1 s2 s3, R s1 s2 -> R s2 s3 -> R s1 s3.
Hypothesis R_remove : forall i, Keeps R (@removeFromSkipped_push W i).
Hypothesis R_add : forall e, Keeps R (@addToSkipped_push W e).

Lemma AsyncKeeps_uninstallExtensionAsync (x : ILocalExtension) :
  Keeps R (call (EvUninstall x) (uninstall H x)) ->
  AsyncKeeps R (uninstallExtensionAsync H x).
Proof.
  intros Hcall. unfold uninstallExtensionAsync.
  apply (AsyncKeeps_abind R_refl R_trans).
  - apply (AsyncKeeps_await R_refl). exact Hcall.
  - intros _. apply AsyncKeeps_now. apply R_remove.
Qed.

Hypothesis R_gallery :
  forall i v, Keeps R (call (EvGetCompatibleExtension i v)
                            (getCompatibleExtension H i v)).
Hypothesis R_disable :
  forall i, Keeps R (call (EvDisableExtension i) (disableExtension H i)).
Hypothesis R_enable :
  forall i, Keeps R (call (EvEnableExtension i) (enableExtension H i)).
Hypothesis R_install :
  forall g, Keeps R (call (EvInstallFromGallery g) (installFromGallery H g)).

Lemma AsyncKeeps_syncListed (e : ISyncExtension) (l : list ILocalExtension) :
  AsyncKeeps R (syncListed H e l).
Proof.
  assert (Hen : forall i, AsyncKeeps R (await (setEnablementOf H e i))).
  { intros i. apply (AsyncKeeps_await R_refl). unfold setEnablementOf.
    destruct (truthy (disabled e)); [apply R_disable | apply R_enable]. }
  unfold syncListed. cbv zeta. destruct (isSystemExtension _).
  - apply (AsyncKeeps_abind R_refl R_trans); [apply Hen|].
    intros _. apply AsyncKeeps_now. apply R_remove.
  - apply (AsyncKeeps_abind R_refl R_trans).
    { apply (AsyncKeeps_await R_refl). apply R_gallery. }
    intros [extension|]; [|apply AsyncKeeps_now; apply R_add].
    apply (AsyncKeeps_atry_catch R_refl R_trans);
      [|intros _; apply AsyncKeeps_now; apply R_add].
    unfold enableAndInstallAsync.
    apply (AsyncKeeps_abind R_refl R_trans); [apply Hen|].
    intros _. destruct (hasToInstall _ _).
    + apply (AsyncKeeps_abind R_refl R_trans).
      { apply (AsyncKeeps_await R_refl). apply R_install. }
      intros _. apply AsyncKeeps_now. apply R_remove.
    + apply AsyncKeeps_now. intros s. apply R_refl.
Qed.

Lemma AsyncKeeps_syncExtensionAsync (e : ISyncExtension) :
  Keeps R (call (EvGetInstalled None) (getInstalled H None)) ->
  AsyncKeeps R (syncExtensionAsync H e).
Proof.
  intros R_listing. unfold syncExtensionAsync.
  apply (AsyncKeeps_abind R_refl R_trans).
  - apply (AsyncKeeps_await R_refl). apply R_listing.
  - intros l. apply AsyncKeeps_syncListed.
Qed.

End Kept.

End CallbackTurns.

(** *** The three relations *)

Lemma emitting_refl {W} (P : Event -> Prop) (s : St W) : emitting P s s.
Proof. exists []. rewrite app_nil_r. split; [reflexivity | constructor]. Qed.

Lemma emitting_trans {W} (P : Event -> Prop) (s1 s2 s3 : St W) :
  emitting P s1 s2 -> emitting P s2 s3 -> emitting P s1 s3.
Proof.
  intros (e1 & H1 & Hp1) (e2 & H2 & Hp2). exists (e1 ++ e2).
  rewrite H2, H1, app_assoc. split; [reflexivity | apply Forall_app; auto].
Qed.

Lemma emitting_call {W A} (P : Event -> Prop) (ev : Event)
      (f : W -> result A * W) :
  P ev -> Keeps (emitting P) (call ev f).
Proof.
  intros Hev s. unfold call. destruct (f (world s)) as [r w].
  exists [ev]. split; [reflexivity | repeat constructor; exact Hev].
Qed.

Lemma emitting_same {W A} (P : Event -> Prop) (m : M W A) :
  (forall s, log (snd (m s)) = log s) -> Keeps (emitting P) m.
Proof.
  intros Hm s. exists []. rewrite app_nil_r. split; [apply Hm | constructor].
Qed.

Lemma silently_refl {W} (s : St W) : silently s s.
Proof. exists []. rewrite app_nil_r. auto. Qed.

Lemma silently_trans {W} (s1 s2 s3 : St W) :
  silently s1 s2 -> silently s2 s3 -> silently s1 s3.
Proof.
  intros (e1 & H1 & Hw1 & Hp1) (e2 & H2 & Hw2 & Hp2). exists (e1 ++ e2).
  rewrite H2, H1, app_assoc, writes_app, persisted_app, Hw1, Hw2, Hp1, Hp2.
  auto.
Qed.

Lemma silently_call {W A} (ev : Event) (f : W -> result A * W) :
  writes [ev] = [] -> persisted [ev] = [] -> Keeps silently (call ev f).
Proof.
  intros Hw Hp s. unfold call. destruct (f (world s)) as [r w].
  exists [ev]. auto.
Qed.

Lemma skippedKept_refl {W} (s : St W) : skippedKept s s.
Proof. intros x Hx. exact Hx. Qed.

Lemma skippedKept_trans {W} (s1 s2 s3 : St W) :
  skippedKept s1 s2 -> skippedKept s2 s3 -> skippedKept s1 s3.
Proof. intros H1 H2 x Hx. apply H2. apply H1. exact Hx. Qed.

Section CallbackRelations.

Context {W : Type} (H : Host W).

Lemma emitting_syncExtensionAsync (P : Event -> Prop) (e : ISyncExtension) :
  (forall ev, ExtensionsSyncRuns.isItemCall ev = true -> P ev) ->
  AsyncKeeps (emitting P) (syncExtensionAsync H e).
Proof.
  intros HP.
  apply (AsyncKeeps_syncExtensionAsync H (@emitting_refl W P)
                                       (@emitting_trans W P));
    intros; try (apply emitting_same; reflexivity);
    apply emitting_call; apply HP; reflexivity.
Qed.

Lemma emitting_uninstallExtensionAsync (P : Event -> Prop)
      (x : ILocalExtension) :
  P (EvUninstall x) -> AsyncKeeps (emitting P) (uninstallExtensionAsync H x).
Proof.
  intros HP.
  apply (AsyncKeeps_uninstallExtensionAsync H (@emitting_refl W P)
                                            (@emitting_trans W P)).
  - intros i. apply emitting_same. reflexivity.
  - apply emitting_call. exact HP.
Qed.

Lemma silently_syncExtensionAsync (e : ISyncExtension) :
  AsyncKeeps silently (syncExtensionAsync H e).
Proof.
  apply (AsyncKeeps_syncExtensionAsync H (@silently_refl W)
                                       (@silently_trans W));
    intros; try (apply silently_call; reflexivity);
    intros s; exists []; simpl; rewrite app_nil_r; auto.
Qed.

Lemma silently_uninstallExtensionAsync (x : ILocalExtension) :
  AsyncKeeps silently (uninstallExtensionAsync H x).
Proof.
  apply (AsyncKeeps_uninstallExtensionAsync H (@silently_refl W)
                                            (@silently_trans W)).
  - intros i s. exists []. simpl. rewrite app_nil_r. auto.
  - apply silently_call; reflexivity.
Qed.

End CallbackRelations.

(** *** When no call outside of the [try] block throws *)

Section NoEscape.

Context {W : Type} (H : Host W).

Hypothesis Hlist : forall t w, threw (fst (getInstalled H t w)) = false.
Hypothesis Huninstall : forall x w, threw (fst (uninstall H x w)) = false.
Hypothesis Hgallery :
  forall i v w, threw (fst (getCompatibleExtension H i v w)) = false.
Hypothesis Hsystem :
  forall e w l w1 w2,
    getInstalled H None w = (Ok l, w1) ->
    isSystemExtension (installedFor e l) = true ->
    threw (fst (enablementCall H e (identifier e) w2)) = false.

Lemma uninstallExtensionAsync_completes (x : ILocalExtension) :
  AsyncCompletes (uninstallExtensionAsync H x).
Proof.
  intros s. unfold uninstallExtensionAsync. rewrite abind_await_call.
  cbn [fst TaskCompletes]. intros s1.
  pose proof (Huninstall x (world s)) as Hu.
  destruct (uninstall H x (world s)) as [[[]|err] w1]; [|discriminate].
  reflexivity.
Qed.

Lemma syncExtensionAsync_completes (e : ISyncExtension) :
  AsyncCompletes (syncExtensionAsync H e).
Proof.
  intros s. unfold syncExtensionAsync, syncListed. rewrite abind_await_call.
  cbn [fst TaskCompletes]. intros s1.
  pose proof (Hlist None (world s)) as Hl.
  destruct (getInstalled H None (world s)) as [[l|err] w1] eqn:Hinst;
    [|discriminate].
  cbn [fst]. cbv zeta. fold (installedFor e l).
  destruct (isSystemExtension (installedFor e l)) eqn:Hsys.
  - rewrite setEnablementOf_call, abind_await_call.
    cbn [fst TaskCompletes]. intros s2.
    pose proof (Hsystem e (world s) (world s1) Hinst Hsys) as Hen.
    destruct (enablementCall H e (identifier e) (world s1)) as [[[]|err] w2];
      [reflexivity | discriminate].
  - rewrite abind_await_call. cbn [fst TaskCompletes]. intros s2.
    pose proof (Hgallery (identifier e) (version e) (world s1)) as Hg.
    destruct (getCompatibleExtension H (identifier e) (version e) (world s1))
      as [[[extension|]|err] w2]; [| reflexivity | discriminate].
    cbn [fst]. unfold enableAndInstallAsync.
    rewrite setEnablementOf_call, atry_catch_await_call.
    cbn [fst TaskCompletes]. intros s3.
    destruct (enablementCall H e (g_identifier extension) (world s2))
      as [[[]|err] w3]; [|reflexivity].
    cbn [fst]. destruct (hasToInstall (installedFor e l) extension);
      [|reflexivity].
    rewrite atry_catch_await_call. cbn [fst TaskCompletes]. intros s4.
    destruct (installFromGallery H extension (world s3)) as [[[]|err] w4];
      reflexivity.
Qed.

End NoEscape.

(** *** What the callback of an item leaves behind *)

Section Reached.

Context {W : Type} (H : Host W).

(** The callback of an item does not complete without having asked the
    gallery for it, or set its enablement. *)
Lemma syncExtensionAsync_reaches (s0 : St W) (e : ISyncExtension) :
  AsyncEnsures (emitting (fun _ => True) s0)
               (fun st => exists extra,
                    log st = log s0 ++ extra /\ reaches e extra)
               (syncExtensionAsync H e).
Proof.
  assert (Hcall :
            forall A (ev : Event) (f : W -> result A * W) (st : St W),
              reaches e [ev] -> emitting (fun _ => True) s0 st ->
              exists extra,
                log (snd (call ev f st)) = log s0 ++ extra /\ reaches e extra).
  { intros A ev f st Hev (x & Hx & _). unfold call.
    destruct (f (world st)) as [r w]. simpl. exists (x ++ [ev]).
    rewrite Hx, app_assoc. split; [reflexivity|].
    unfold reaches in *. rewrite !in_app_iff. tauto. }
  intros s HI. unfold syncExtensionAsync, syncListed.
  rewrite abind_await_call.
  right. cbn [TaskEnsures]. intros s1 HI1.
  destruct (getInstalled H None (world s)) as [[l|err] w1];
    cbn [fst]; [|right; exact I].
  cbv zeta. destruct (isSystemExtension _).
  - rewrite setEnablementOf_call, abind_await_call. left.
    apply Hcall; [|exact HI1].
    unfold reaches. destruct (truthy (disabled e)); simpl; auto.
  - rewrite abind_await_call. left.
    apply Hcall; [|exact HI1]. unfold reaches. simpl. auto.
Qed.

Variable Inv : W -> Prop.
Hypothesis Hkeeps : HostKeeps H Inv.

Lemma keeping_refl (s : St W) : keeping Inv s s.
Proof. split; [auto | apply skippedKept_refl]. Qed.

Lemma keeping_trans (s1 s2 s3 : St W) :
  keeping Inv s1 s2 -> keeping Inv s2 s3 -> keeping Inv s1 s3.
Proof.
  intros [Hi1 Hs1] [Hi2 Hs2].
  split; [auto | exact (skippedKept_trans Hs1 Hs2)].
Qed.

Lemma keeping_call {A} (ev : Event) (f : W -> result A * W) :
  (forall w, Inv w -> Inv (snd (f w))) -> Keeps (keeping Inv) (call ev f).
Proof.
  intros Hf s. unfold call. specialize (Hf (world s)).
  destruct (f (world s)) as [r w]. split; [exact Hf | intros x Hx; exact Hx].
Qed.

Lemma keeping_syncExtensionAsync (e : ISyncExtension) :
  AsyncKeeps (keeping Inv) (syncExtensionAsync H e).
Proof.
  destruct Hkeeps as (Hl & Hu & Hi & Hg & Hd & He).
  apply (AsyncKeeps_syncExtensionAsync H keeping_refl keeping_trans);
    intros; try (apply keeping_call; auto).
  - intros s. split; [auto | intros x Hx; exact Hx].
  - intros s. split; [auto|]. intros x Hx. simpl. apply in_or_app. left.
    exact Hx.
Qed.

Lemma keeping_uninstallExtensionAsync (x : ILocalExtension) :
  AsyncKeeps (keeping Inv) (uninstallExtensionAsync H x).
Proof.
  destruct Hkeeps as (Hl & Hu & Hi & Hg & Hd & He).
  apply (AsyncKeeps_uninstallExtensionAsync H keeping_refl keeping_trans).
  - intros i s. split; [auto | intros y Hy; exact Hy].
  - apply keeping_call. auto.
Qed.

(** The callback of an item that fails inside of the [try] block, or is not
    resolved, does not complete without having pushed the item to
    [addToSkipped]. *)
Lemma syncExtensionAsync_skips (e : ISyncExtension) :
  FailsInsideTry H Inv e ->
  AsyncEnsures (fun st => Inv (world st))
               (fun st => In e (addToSkipped st))
               (syncExtensionAsync H e).
Proof.
  intros Hfails s HI. unfold syncExtensionAsync, syncListed.
  rewrite abind_await_call.
  right. cbn [TaskEnsures]. intros s1 HI1.
  destruct (getInstalled H None (world s)) as [[l|err] w1] eqn:Hinst;
    cbn [fst]; [|right; exact I].
  destruct (Hfails _ _ _ HI Hinst) as (Hsys & Hres).
  cbv zeta. fold (installedFor e l). rewrite Hsys.
  rewrite abind_await_call. right. cbn [TaskEnsures]. intros s2 HI2.
  destruct (getCompatibleExtension H (identifier e) (version e) (world s1))
    as [[[extension|]|err] w2] eqn:Hgal; cbn [fst];
    [| left; simpl; apply in_or_app; right; left; reflexivity
     | right; exact I].
  specialize (Hres _ _ _ HI1 Hgal).
  unfold enableAndInstallAsync.
  rewrite setEnablementOf_call, atry_catch_await_call.
  right. cbn [TaskEnsures]. intros s3 HI3.
  destruct (enablementCall H e (g_identifier extension) (world s2))
    as [[[]|err] w3] eqn:Hen; cbn [fst];
    [| left; simpl; apply in_or_app; right; left; reflexivity].
  destruct Hres as [Hres|(Hinstall & Hres)].
  { specialize (Hres _ HI2). rewrite Hen in Hres. discriminate. }
  rewrite Hinstall. rewrite atry_catch_await_call.
  right. cbn [TaskEnsures]. intros s4 HI4.
  specialize (Hres _ HI3).
  destruct (installFromGallery H extension (world s3)) as [[[]|err] w4];
    [discriminate|].
  cbn [fst]. left. simpl. apply in_or_app. right. left. reflexivity.
Qed.

End Reached.

(** *** The batch *)

Section Batch.

Context {W : Type} (H : Host W).

Hypothesis Hlist : forall t w, threw (fst (getInstalled H t w)) = false.
Hypothesis Huninstall : forall x w, threw (fst (uninstall H x w)) = false.
Hypothesis Hgallery :
  forall i v w, threw (fst (getCompatibleExtension H i v w)) = false.
Hypothesis Hsystem :
  forall e w l w1 w2,
    getInstalled H None w = (Ok l, w1) ->
    isSystemExtension (installedFor e l) = true ->
    threw (fst (enablementCall H e (identifier e) w2)) = false.

Variable Inv : W -> Prop.
Hypothesis Hkeeps : HostKeeps H Inv.

Let anyEvent (ev : Event) : Prop := True.

(** The first wait, over the extensions to remove. *)
Lemma uninstallRemoved_run (removed : list IExtensionIdentifier) (s : St W) :
  let m :=
    if nonEmpty removed then
      installedExtensions <-
        call (EvGetInstalled (Some User)) (getInstalled H (Some User)) ;;
      Promise_all_map
        (resolutionOrder H) (uninstallExtensionAsync H)
        (filter (fun x => existsb (fun r => areSameExtensions (l_identifier x) r)
                                  removed)
                installedExtensions)
    else ret tt in
  fst (m s) = Ok tt
  /\ keeping Inv s (snd (m s))
  /\ emitting anyEvent s (snd (m s)).
Proof.
  intros m. subst m. destruct (nonEmpty removed);
    [|split; [reflexivity | split; [apply keeping_refl | apply emitting_refl]]].
  split; [|split].
  - unfold bind, call. pose proof (Hlist (Some User) (world s)) as Hl.
    destruct (getInstalled H (Some User) (world s)) as [[l|err] w1];
      [|discriminate].
    apply Promise_all_completes. intros x _.
    apply uninstallExtensionAsync_completes. exact Huninstall.
  - apply (Keeps_bind (@keeping_trans W Inv)).
    + apply keeping_call. apply Hkeeps.
    + intros l. apply (Keeps_Promise_all_map (@keeping_refl W Inv)
                                             (@keeping_trans W Inv)).
      intros x _. apply keeping_uninstallExtensionAsync. exact Hkeeps.
  - apply (Keeps_bind (@emitting_trans W anyEvent)).
    + apply emitting_call. exact I.
    + intros l. apply (Keeps_Promise_all_map (@emitting_refl W anyEvent)
                                             (@emitting_trans W anyEvent)).
      intros x _. apply emitting_uninstallExtensionAsync. exact I.
Qed.

(** The second wait, over the added and updated items. *)
Lemma syncItems_run (items : list ISyncExtension) (s0 s : St W) :
  let m := Promise_all_map (resolutionOrder H) (syncExtensionAsync H) items in
  emitting anyEvent s0 s -> Inv (world s) ->
  fst (m s) = Ok tt
  /\ emitting anyEvent s (snd (m s))
  /\ (forall e, In e items ->
                exists extra,
                  log (snd (m s)) = log s0 ++ extra /\ reaches e extra)
  /\ (forall e, In e items -> FailsInsideTry H Inv e ->
                In e (addToSkipped (snd (m s)))).
Proof.
  intros m Hs0 HInv.
  assert (Hok : fst (m s) = Ok tt).
  { apply Promise_all_completes. intros x _.
    apply syncExtensionAsync_completes; assumption. }
  split; [exact Hok|]. split; [|split].
  - apply (Keeps_Promise_all_map (@emitting_refl W anyEvent)
                                 (@emitting_trans W anyEvent)).
    intros x _. apply emitting_syncExtensionAsync. intros ev _. exact I.
  - intros e He.
    refine (@Promise_all_map_ensures
              W (emitting anyEvent) (@emitting_refl W anyEvent)
              (@emitting_trans W anyEvent)
              (emitting anyEvent s0)
              (fun st => exists extra,
                   log st = log s0 ++ extra /\ reaches e extra)
              _ _ _ (resolutionOrder H) (syncExtensionAsync H) items e s
              _ He (@syncExtensionAsync_reaches W H s0 e) Hs0 Hok).
    + intros st st' Hst Hst0. exact (emitting_trans Hst0 Hst).
    + intros st st' (x & Hx & _) (extra & Hextra & Hr).
      exists (extra ++ x). rewrite Hx, Hextra, app_assoc.
      split; [reflexivity|]. unfold reaches in *. rewrite !in_app_iff. tauto.
    + intros x _. apply emitting_syncExtensionAsync. intros ev _. exact I.
  - intros e He Hfails.
    refine (@Promise_all_map_ensures
              W (keeping Inv) (@keeping_refl W Inv) (@keeping_trans W Inv)
              (fun st => Inv (world st))
              (fun st => In e (addToSkipped st))
              _ _ _ (resolutionOrder H) (syncExtensionAsync H) items e s
              _ He (@syncExtensionAsync_skips W H Inv e Hfails) HInv Hok).
    + intros st st' [Hi _] Hst. auto.
    + intros st st' [_ Hsk] Hst. auto.
    + intros x _. apply keeping_syncExtensionAsync. exact Hkeeps.
Qed.

Lemma nonEmpty_app_false {A} (l1 l2 : list A) :
  nonEmpty l1 || nonEmpty l2 = false -> l1 ++ l2 = [].
Proof. destruct l1, l2; simpl; intros Hn; [reflexivity | | |]; discriminate. Qed.

Lemma updateLocalExtensions_batch
      (added : list ISyncExtension) (removed : list IExtensionIdentifier)
      (updated skipped : list ISyncExtension) (s : St W) :
  Inv (world s) ->
  exists l s' extra,
    updateLocalExtensions H added removed updated skipped s = (Ok l, s')
    /\ l = newSkippedExtensions skipped (removeFromSkipped s') (addToSkipped s')
    /\ log s' = log s ++ extra
    /\ (forall e, In e (added ++ updated) -> reaches e extra)
    /\ (forall e, In e (added ++ updated) -> FailsInsideTry H Inv e ->
                  In e (addToSkipped s')).
Proof.
  intros HInv. unfold updateLocalExtensions.
  unfold bind at 1. unfold freshArrays. cbv beta iota. unfold bind at 1.
  match goal with
  | |- context [match ?m ?st with pair _ _ => _ end] =>
      pose proof (uninstallRemoved_run removed st) as Hrm;
      cbv zeta in Hrm; revert Hrm; destruct (m st) as [r1 s1]; intros Hrm
  end.
  cbn [fst snd world log] in Hrm. destruct Hrm as (-> & Hk1 & He1).
  cbv beta iota. unfold bind.
  destruct (nonEmpty added || nonEmpty updated) eqn:Hne.
  - pose proof (syncItems_run (added ++ updated) He1 (proj1 Hk1 HInv)) as Hup.
    cbv zeta in Hup.
    destruct (Promise_all_map (resolutionOrder H) (syncExtensionAsync H)
                              (added ++ updated) s1) as [r2 s2].
    cbn [fst snd] in Hup. destruct Hup as (-> & He2 & Hreach & Hskip).
    destruct (emitting_trans He1 He2) as (extra & Hextra & _).
    cbn [log] in Hextra.
    exists (newSkippedExtensions skipped (removeFromSkipped s2)
                                 (addToSkipped s2)), s2, extra.
    split; [reflexivity|]. split; [reflexivity|]. split; [exact Hextra|].
    split; [|exact Hskip].
    intros e He. destruct (Hreach e He) as (extra' & Hlog & Hr).
    cbn [log] in Hlog. rewrite Hextra in Hlog.
    apply app_inv_head in Hlog. subst extra'. exact Hr.
  - destruct He1 as (extra & Hextra & _). cbn [log] in Hextra.
    exists (newSkippedExtensions skipped (removeFromSkipped s1)
                                 (addToSkipped s1)), s1, extra.
    split; [reflexivity|]. split; [reflexivity|]. split; [exact Hextra|].
    rewrite (nonEmpty_app_false _ _ Hne). split; intros e [].
Qed.

End Batch.

(** *** The sample host whose installations fail *)

Lemma filter_none {A} (f : A -> bool) (l : list A) :
  (forall x, In x l -> f x = false) -> filter f l = [].
Proof.
  induction l as [|x l IH]; intros Hf; simpl; [reflexivity|].
  rewrite (Hf x (or_introl eq_refl)). apply IH.
  intros y Hy. apply Hf. right. exact Hy.
Qed.

Lemma installDown_keeps_homeLike :
  HostKeeps (sampleHost installDown []) homeLike.
Proof.
  unfold HostKeeps, homeLike. repeat split; intros; simpl in *;
    try tauto; try (destruct H; assumption).
  intros y Hy. apply filter_In in Hy. destruct H as [_ Hin]. apply Hin.
  tauto.
Qed.

Lemma installDown_fails_inside_try (name : string) :
  (forall x, In x (w_installed homeWorld) ->
             areSameExtensions (l_identifier x) (ident name None) = false) ->
  FailsInsideTry (sampleHost installDown []) homeLike
                 (item name None).
Proof.
  intros Hname w l w1 [Hgal Hin] Hl. simpl in Hl. injection Hl as <- <-.
  assert (Hnone : installedFor (item name None)
                               (filter (sameType None) (w_installed w)) = None).
  { unfold installedFor. rewrite filter_none; [reflexivity|].
    intros x Hx. apply filter_In in Hx. apply Hname. apply Hin. tauto. }
  rewrite Hnone. split; [reflexivity|].
  intros w' extension w2 _ _. right. split; [reflexivity|].
  intros w3 _. reflexivity.
Qed.




(** ** What reaches the log *)

Lemma Silent_ret {W A} (a : A) : Silent (@ret W A a).
Proof. intros s. exists []. simpl. rewrite app_nil_r. auto. Qed.

Lemma Silent_liftResult {W A} (r : result A) : Silent (@liftResult W A r).
Proof. intros s. exists []. simpl. rewrite app_nil_r. auto. Qed.

Lemma Silent_bind {W A B} (m : M W A) (k : A -> M W B) :
  Silent m -> (forall a, Silent (k a)) -> Silent (bind m k).
Proof.
  intros Hm Hk s. unfold bind.
  destruct (Hm s) as (e1 & H1 & Hw1 & Hp1).
  destruct (m s) as [[a|err] s1]; simpl in H1.
  - destruct (Hk a s1) as (e2 & H2 & Hw2 & Hp2).
    exists (e1 ++ e2). rewrite H2, H1, app_assoc.
    rewrite writes_app, persisted_app, Hw1, Hw2, Hp1, Hp2. auto.
  - exists e1. auto.
Qed.

Lemma Silent_try_catch {W A} (m : M W A) (h : Error -> M W A) :
  Silent m -> (forall e, Silent (h e)) -> Silent (try_catch m h).
Proof.
  intros Hm Hh s. unfold try_catch.
  destruct (Hm s) as (e1 & H1 & Hw1 & Hp1).
  destruct (m s) as [[a|err] s1]; simpl in H1.
  - exists e1. auto.
  - destruct (Hh err s1) as (e2 & H2 & Hw2 & Hp2).
    exists (e1 ++ e2). rewrite H2, H1, app_assoc.
    rewrite writes_app, persisted_app, Hw1, Hw2, Hp1, Hp2. auto.
Qed.

Lemma Silent_call {W A} (ev : Event) (f : W -> result A * W) :
  writes [ev] = [] -> persisted [ev] = [] -> Silent (call ev f).
Proof.
  intros Hw Hp s. unfold call.
  destruct (f (world s)) as [r w]. exists [ev]. simpl. auto.
Qed.

Lemma Silent_note {W} (ev : Event) :
  writes [ev] = [] -> persisted [ev] = [] -> Silent (@note W ev).
Proof. intros Hw Hp s. exists [ev]. simpl. auto. Qed.

Lemma Silent_removeFromSkipped_push {W} (i : IExtensionIdentifier) :
  Silent (@removeFromSkipped_push W i).
Proof. intros s. exists []. simpl. rewrite app_nil_r. auto. Qed.

Lemma Silent_addToSkipped_push {W} (e : ISyncExtension) :
  Silent (@addToSkipped_push W e).
Proof. intros s. exists []. simpl. rewrite app_nil_r. auto. Qed.

Lemma Silent_freshArrays {W} : Silent (@freshArrays W).
Proof. intros s. exists []. simpl. rewrite app_nil_r. auto. Qed.

Lemma Silent_Promise_all_map {W A} (order : W -> list nat)
      (callback : A -> Async W unit) (items : list A) :
  (forall x, AsyncKeeps silently (callback x)) ->
  Silent (Promise_all_map order callback items).
Proof.
  intros Hc.
  apply (Keeps_Promise_all_map (@silently_refl W) (@silently_trans W)).
  intros x _. apply Hc.
Qed.

Create HintDb silent.

#[local] Hint Resolve Silent_ret Silent_liftResult Silent_note
  Silent_removeFromSkipped_push Silent_addToSkipped_push Silent_freshArrays
  : silent.

(** Follows the shape of a computation, without unfolding the methods. *)
Ltac silent :=
  repeat match goal with
         | |- Silent (bind _ _) => apply Silent_bind; [|intros ?]
         | |- Silent (try_catch _ _) => apply Silent_try_catch; [|intros ?]
         | |- Silent (call _ _) => apply Silent_call; reflexivity
         | |- Silent (note _) => apply Silent_note; reflexivity
         | |- Silent (setStatus _) => apply Silent_note; reflexivity
         | |- Silent (Promise_all_map _ _ _) =>
             apply Silent_Promise_all_map; intros ?
         | |- Silent (if ?c then _ else _) => destruct c
         | |- Silent (match ?c with Some _ => _ | None => _ end) => destruct c
         | |- Silent _ => solve [auto with silent]
         end.

Section SilentMethods.

Context {W : Type} (H : Host W).

Lemma Silent_updateLocalExtensions
      (added : list ISyncExtension) (removed : list IExtensionIdentifier)
      (updated skipped : list ISyncExtension) :
  Silent (updateLocalExtensions H added removed updated skipped).
Proof.
  unfold updateLocalExtensions. silent.
  - apply silently_uninstallExtensionAsync.
  - apply silently_syncExtensionAsync.
  - intros s. exists []. simpl. rewrite app_nil_r. auto.
Qed.

Lemma Silent_applyLocal (p : IExtensionsSyncPreviewResult) :
  Silent (applyLocal H p).
Proof. unfold applyLocal. silent. apply Silent_updateLocalExtensions. Qed.

Lemma Silent_getLocalExtensions (l : list ILocalExtension) :
  Silent (getLocalExtensions H l).
Proof. unfold getLocalExtensions. silent. Qed.

Lemma Silent_parseAndMigrateExtensions (d : ISyncData) :
  Silent (parseAndMigrateExtensions H d).
Proof. unfold parseAndMigrateExtensions, parseExtensions. silent. Qed.

End SilentMethods.

(** ** [apply] *)

Section Apply.

Context {W : Type} (H : Host W).

Lemma applyRemote_run (p : IExtensionsSyncPreviewResult) (forcePush : bool)
      (s : St W) :
  match remote p with
  | Some l =>
      fst (applyRemote H p forcePush s)
      = fst (updateRemoteUserData H (JSON_stringify H l)
                                  (expectedRef p forcePush) (world s))
      /\ world (snd (applyRemote H p forcePush s))
         = snd (updateRemoteUserData H (JSON_stringify H l)
                                     (expectedRef p forcePush) (world s))
      /\ log (snd (applyRemote H p forcePush s))
         = log s ++ [EvUpdateRemoteUserData (JSON_stringify H l)
                                            (expectedRef p forcePush)]
  | None => applyRemote H p forcePush s = (Ok (remoteUserData p), s)
  end.
Proof.
  unfold applyRemote, expectedRef. destruct (remote p) as [l|]; [|reflexivity].
  unfold call.
  destruct (updateRemoteUserData H (JSON_stringify H l)
              (if forcePush then None else Some (ref (remoteUserData p)))
              (world s)) as [r w].
  simpl. auto.
Qed.

Lemma applyLastSync_run (p : IExtensionsSyncPreviewResult)
      (d : IRemoteUserData) (sk : list ISyncExtension) (s : St W) :
  log (snd (applyLastSync H p d sk s))
  = log s ++ (if refDiffers (lastSyncUserData p) d
              then [EvUpdateLastSyncUserData d sk] else []).
Proof.
  unfold applyLastSync. destruct (refDiffers (lastSyncUserData p) d).
  - unfold call. destruct (updateLastSyncUserData H d sk (world s)).
    reflexivity.
  - simpl. rewrite app_nil_r. reflexivity.
Qed.

(** The remote writes of one [apply]: none when the local step throws or
    there is no remote list to write, and otherwise the serialization of the
    list itself, with the reference expected. *)
Lemma apply_writes (p : IExtensionsSyncPreviewResult) (forcePush : bool)
      (s : St W) :
  writes (log (snd (apply H p forcePush s)))
  = writes (log s)
    ++ match fst (applyLocal H p s), remote p with
       | Ok _, Some l => [(JSON_stringify H l, expectedRef p forcePush)]
       | _, _ => []
       end.
Proof.
  unfold apply, bind.
  destruct (Silent_applyLocal H p s) as (e1 & H1 & Hw1 & _).
  destruct (applyLocal H p s) as [[sk|err] s1]; simpl in H1 |- *.
  2: { rewrite H1, writes_app, Hw1. reflexivity. }
  pose proof (applyRemote_run p forcePush s1) as Hr.
  destruct (remote p) as [l|].
  - destruct Hr as (_ & _ & Hlog).
    destruct (applyRemote H p forcePush s1) as [[d|err] s2]; simpl in Hlog |- *.
    + rewrite applyLastSync_run, Hlog, H1, !writes_app, Hw1. simpl.
      destruct (refDiffers (lastSyncUserData p) d); simpl;
        rewrite ?app_nil_r; reflexivity.
    + rewrite Hlog, H1, !writes_app, Hw1. simpl. rewrite app_nil_r.
      reflexivity.
  - rewrite Hr. rewrite applyLastSync_run, H1, !writes_app, Hw1. simpl.
    destruct (refDiffers (lastSyncUserData p) (remoteUserData p)); simpl;
      rewrite ?app_nil_r; reflexivity.
Qed.

End Apply.

(** C8, as the code has it.  When the local step and the remote step of
    [apply] complete, a last-sync snapshot is persisted exactly when the
    reference of the remote data now held (the result of the write, or the
    data read before when nothing is written) differs from the reference of
    the stored last-sync snapshot, or none is stored; it is persisted with
    that remote data and with the skip list of the local step (the result of
    [updateLocalExtensions], or the incoming skip list when the local state
    did not have to change).  With equal references nothing is persisted,
    whether or not the local state changed. *)
Theorem apply_persists_on_new_reference :
  forall (W : Type) (H : Host W) (p : IExtensionsSyncPreviewResult)
         (forcePush : bool) (s s1 s2 : St W) (sk : list ISyncExtension)
         (d : IRemoteUserData),
    applyLocal H p s = (Ok sk, s1) ->
    applyRemote H p forcePush s1 = (Ok d, s2) ->
    (hasLocalChanged p = false -> sk = skippedExtensions p /\ s1 = s)
    /\ (hasLocalChanged p = true ->
        exists s0, updateLocalExtensions H (added p) (removed p) (updated p)
                                         (skippedExtensions p) s0
                   = (Ok sk, s1))
    /\ match remote p with
       | None => d = remoteUserData p /\ s2 = s1
       | Some l =>
           updateRemoteUserData H (JSON_stringify H l)
                                (expectedRef p forcePush) (world s1)
           = (Ok d, world s2)
       end
    /\ (refDiffers (lastSyncUserData p) d = true ->
        log (snd (apply H p forcePush s))
        = log s2 ++ [EvUpdateLastSyncUserData d sk]
        /\ persisted (log (snd (apply H p forcePush s)))
           = persisted (log s) ++ [(d, sk)])
    /\ (refDiffers (lastSyncUserData p) d = false ->
        snd (apply H p forcePush s) = s2
        /\ persisted (log (snd (apply H p forcePush s))) = persisted (log s)).
Proof.
  intros W H p forcePush s s1 s2 sk d Hlocal Hremote.
  assert (Hp2 : persisted (log s2) = persisted (log s)).
  { destruct (Silent_applyLocal H p s) as (e1 & H1 & _ & Hp1).
    rewrite Hlocal in H1. simpl in H1.
    pose proof (applyRemote_run H p forcePush s1) as Hr.
    destruct (remote p) as [l|].
    - destruct Hr as (_ & _ & Hlog). rewrite Hremote in Hlog. simpl in Hlog.
      rewrite Hlog, H1, !persisted_app, Hp1. simpl. rewrite !app_nil_r.
      reflexivity.
    - rewrite Hremote in Hr. injection Hr as _ ->.
      rewrite H1, persisted_app, Hp1. apply app_nil_r. }
  split; [|split; [|split; [|split]]].
  - intros Hc. unfold applyLocal in Hlocal. rewrite Hc in Hlocal.
    injection Hlocal as <- <-. auto.
  - intros Hc. unfold applyLocal in Hlocal. rewrite Hc in Hlocal.
    unfold bind in Hlocal.
    destruct (call _ _ s) as [[u|err] s0]; [|discriminate].
    exists s0. exact Hlocal.
  - pose proof (applyRemote_run H p forcePush s1) as Hr.
    destruct (remote p) as [l|].
    + destruct Hr as (Hres & Hworld & _). rewrite Hremote in Hres, Hworld.
      simpl in Hres, Hworld.
      destruct (updateRemoteUserData H (JSON_stringify H l)
                  (expectedRef p forcePush) (world s1)) as [r w].
      simpl in Hres, Hworld. subst r w. reflexivity.
    + rewrite Hremote in Hr. injection Hr as -> ->. auto.
  - intros Hd. unfold apply, bind. rewrite Hlocal, Hremote.
    rewrite applyLastSync_run, Hd.
    split; [reflexivity|].
    rewrite persisted_app, Hp2. reflexivity.
  - intros Hd. unfold apply, bind. rewrite Hlocal, Hremote.
    unfold applyLastSync. rewrite Hd. simpl.
    split; [reflexivity | exact Hp2].
Qed.

(** A first write: the snapshot persisted carries the reference that the
    write returned. *)
Lemma apply_persists_on_new_reference_witness :
  persisted (log (snd (apply (sampleHost noFault []) firstWritePreview false
                             (start homeWorld))))
  = [({| ref := "r1'";
         syncData := Some {| sd_version := 3; machineId := None;
                             content := "a;" |} |}, [])].
Proof.
  destruct (@apply_persists_on_new_reference
              World (sampleHost noFault []) firstWritePreview false
              (start homeWorld) _ _ _ _ eq_refl eq_refl)
    as (_ & _ & _ & Hnew & _).
  destruct (Hnew eq_refl) as (_ & Hp). exact Hp.
Defined.

(** C8 as stated fails: a pull that installs [b] changes the local state,
    yet persists no last-sync snapshot, the remote reference being the one
    of the stored snapshot. *)
Lemma pull_changes_local_without_persisting :
  fst (pull (sampleHost noFault sampleDocuments) (start syncedWorld)) = Ok tt
  /\ w_installed
       (world (snd (pull (sampleHost noFault sampleDocuments)
                         (start syncedWorld))))
     = w_installed syncedWorld
       ++ [{| l_identifier := ident "b" None; type := User;
              manifest_version := "2.0.0" |}]
  /\ In (EvInstallFromGallery {| g_identifier := ident "b" None;
                                 g_version := "2.0.0" |})
        (log (snd (pull (sampleHost noFault sampleDocuments)
                        (start syncedWorld))))
  /\ persisted (log (snd (pull (sampleHost noFault sampleDocuments)
                               (start syncedWorld)))) = []
  /\ w_lastSync (world (snd (pull (sampleHost noFault sampleDocuments)
                                  (start syncedWorld))))
     = w_lastSync syncedWorld.
Proof.
  split; [reflexivity|]. split; [reflexivity|].
  split; [vm_compute; tauto|]. split; reflexivity.
Qed.

(** ** [format] *)

Lemma formatCompare_total (x y : ISyncExtension) :
  formatCompare x y = Gt -> formatCompare y x <> Gt.
Proof.
  unfold formatCompare, compare.
  destruct (truthyString (uuid (identifier x)));
    destruct (truthyString (uuid (identifier y))); simpl;
    try discriminate.
  - intros Hxy. rewrite String.compare_antisym, Hxy. discriminate.
  - intros Hxy. rewrite String.compare_antisym, Hxy. discriminate.
Qed.

Lemma sortInsert_perm (cmp : ISyncExtension -> ISyncExtension -> comparison)
      (x : ISyncExtension) (l : list ISyncExtension) :
  Permutation (x :: l) (sortInsert cmp x l).
Proof.
  induction l as [|y l IH]; simpl.
  - apply Permutation_refl.
  - destruct (cmp x y); try apply Permutation_refl.
    eapply perm_trans; [apply perm_swap|].
    apply perm_skip. exact IH.
Qed.

Lemma Array_sort_perm (cmp : ISyncExtension -> ISyncExtension -> comparison)
      (l : list ISyncExtension) :
  Permutation l (Array_sort cmp l).
Proof.
  induction l as [|x l IH]; simpl.
  - apply perm_nil.
  - eapply perm_trans; [apply perm_skip; exact IH|].
    apply sortInsert_perm.
Qed.

Lemma sortInsert_sorted (x : ISyncExtension) (l : list ISyncExtension) :
  Sorted formatLe l -> Sorted formatLe (sortInsert formatCompare x l).
Proof.
  induction l as [|y l IH]; intros Hs; simpl.
  - repeat constructor.
  - destruct (formatCompare x y) eqn:Hxy.
    + constructor; [exact Hs|]. constructor. unfold formatLe.
      rewrite Hxy. discriminate.
    + constructor; [exact Hs|]. constructor. unfold formatLe.
      rewrite Hxy. discriminate.
    + inversion Hs as [|? ? Hl Hhd]; subst.
      constructor; [apply IH; exact Hl|].
      destruct l as [|z l]; simpl.
      * constructor. apply formatCompare_total. exact Hxy.
      * destruct (formatCompare x z).
        -- constructor. apply formatCompare_total. exact Hxy.
        -- constructor. apply formatCompare_total. exact Hxy.
        -- inversion Hhd; subst. constructor. assumption.
Qed.

Lemma Array_sort_sorted (l : list ISyncExtension) :
  Sorted formatLe (Array_sort formatCompare l).
Proof.
  induction l as [|x l IH]; simpl.
  - constructor.
  - apply sortInsert_sorted. exact IH.
Qed.

Lemma formatCompare_uuid (x y : ISyncExtension) :
  formatCompare x y <> Gt ->
  truthyString (uuid (identifier x)) = true ->
  truthyString (uuid (identifier y)) = true.
Proof.
  unfold formatCompare. intros Hle Hx. rewrite Hx in Hle. simpl in Hle.
  destruct (truthyString (uuid (identifier y))); [reflexivity|].
  exfalso. apply Hle. reflexivity.
Qed.

Lemma formatCompare_Gt_uuid (x y : ISyncExtension) :
  formatCompare x y = Gt ->
  truthyString (uuid (identifier y)) = true ->
  truthyString (uuid (identifier x)) = true.
Proof.
  unfold formatCompare. intros Hgt Hy. rewrite Hy in Hgt.
  destruct (truthyString (uuid (identifier x))); [reflexivity|].
  simpl in Hgt. discriminate.
Qed.

Lemma sortInsert_uuidLast (x : ISyncExtension) (l : list ISyncExtension) :
  UuidLast l -> UuidLast (sortInsert formatCompare x l).
Proof.
  induction l as [|y l IH]; intros Hu; simpl.
  - constructor; [intros _ z []|constructor].
  - assert (Hle : formatCompare x y <> Gt -> UuidLast (x :: y :: l)).
    { intros Hxy. constructor; [|exact Hu].
      intros Hx z [<-|Hz].
      - exact (formatCompare_uuid x y Hxy Hx).
      - inversion Hu as [|? ? Hall _]; subst.
        apply Hall; [|exact Hz]. exact (formatCompare_uuid x y Hxy Hx). }
    destruct (formatCompare x y) eqn:Hxy.
    + apply Hle. discriminate.
    + apply Hle. discriminate.
    + inversion Hu as [|? ? Hall Hl]; subst.
      constructor; [|apply IH; exact Hl].
      intros Hy z Hz.
      apply (Permutation_in z (Permutation_sym (sortInsert_perm _ x l))) in Hz.
      destruct Hz as [<-|Hz].
      * exact (formatCompare_Gt_uuid x y Hxy Hy).
      * apply Hall; assumption.
Qed.

Lemma Array_sort_uuidLast (l : list ISyncExtension) :
  UuidLast (Array_sort formatCompare l).
Proof.
  induction l as [|x l IH]; simpl.
  - constructor.
  - apply sortInsert_uuidLast. exact IH.
Qed.



(** ** [push] *)

Lemma try_finally_setStatus_writes {W A} (body : M W A) (st : SyncStatus)
      (s : St W) :
  writes (log (snd (try_finally body (setStatus st) s)))
  = writes (log (snd (body s))).
Proof.
  unfold try_finally, setStatus, note.
  destruct (body s) as [r s1]. simpl.
  rewrite writes_app. simpl. apply app_nil_r.
Qed.

Ltac no_writes :=
  cbn [log snd]; rewrite !writes_app; cbn [writes]; rewrite !app_nil_r;
  reflexivity.

(** C6. [push] hands [merge] the local items, a null remote, a null last
    sync and an empty skip list, and every remote write it issues carries the
    serialization of the remote list of that merge and a null expected
    reference; when the calls before the write complete and the merge asks
    for a remote list and for no local change, that write is issued,
    whatever reference the remote data read from the store has. *)
Theorem push_writes_with_null_reference :
  forall (W : Type) (H : Host W) (s : St W),
  exists extra,
    writes (log (snd (push H s))) = writes (log s) ++ extra
    /\ (forall c r,
           In (c, r) extra ->
           r = None
           /\ exists installedExtensions w1 disabledExtensions w2 l,
               getInstalled H None (world s) = (Ok installedExtensions, w1)
               /\ getDisabledExtensions H w1 = (Ok disabledExtensions, w2)
               /\ m_remote
                    (merge H (map (toSyncExtension disabledExtensions)
                                  installedExtensions)
                           None None []
                           (getIgnoredExtensions H installedExtensions w2))
                  = Some l
               /\ c = JSON_stringify H l)
    /\ (isEnabled H (world s) = true ->
        forall installedExtensions w1 disabledExtensions w2 lastSync w3 d w4 l,
          getInstalled H None (world s) = (Ok installedExtensions, w1) ->
          getDisabledExtensions H w1 = (Ok disabledExtensions, w2) ->
          getLastSyncUserData H w2 = (Ok lastSync, w3) ->
          getRemoteUserData H lastSync w3 = (Ok d, w4) ->
          merge H (map (toSyncExtension disabledExtensions) installedExtensions)
                None None []
                (getIgnoredExtensions H installedExtensions w2)
          = {| m_added := []; m_removed := []; m_updated := [];
               m_remote := Some l |} ->
          extra = [(JSON_stringify H l, None)]).
Proof.
  intros W H s.
  assert (Hnone : forall s' : St W,
             writes (log s') = writes (log s) ->
             isEnabled H (world s) = true ->
             (forall inst w1 dis w2 ls w3 d w4,
                 getInstalled H None (world s) = (Ok inst, w1) ->
                 getDisabledExtensions H w1 = (Ok dis, w2) ->
                 getLastSyncUserData H w2 = (Ok ls, w3) ->
                 getRemoteUserData H ls w3 = (Ok d, w4) -> False) ->
             exists extra,
               writes (log s') = writes (log s) ++ extra
               /\ (forall c r, In (c, r) extra ->
                      r = None
                      /\ exists inst w1 dis w2 l,
                          getInstalled H None (world s) = (Ok inst, w1)
                          /\ getDisabledExtensions H w1 = (Ok dis, w2)
                          /\ m_remote
                               (merge H (map (toSyncExtension dis) inst)
                                      None None []
                                      (getIgnoredExtensions H inst w2))
                             = Some l
                          /\ c = JSON_stringify H l)
               /\ (isEnabled H (world s) = true ->
                   forall inst w1 dis w2 ls w3 d w4 l,
                     getInstalled H None (world s) = (Ok inst, w1) ->
                     getDisabledExtensions H w1 = (Ok dis, w2) ->
                     getLastSyncUserData H w2 = (Ok ls, w3) ->
                     getRemoteUserData H ls w3 = (Ok d, w4) ->
                     merge H (map (toSyncExtension dis) inst) None None []
                           (getIgnoredExtensions H inst w2)
                     = {| m_added := []; m_removed := []; m_updated := [];
                          m_remote := Some l |} ->
                     extra = [(JSON_stringify H l, None)])).
  { intros s' Hw Hen Habs. exists []. rewrite app_nil_r.
    split; [exact Hw|]. split; [intros c r []|].
    intros _ inst w1 dis w2 ls w3 d w4 l H1 H2 H3 H4 _.
    exfalso. exact (Habs _ _ _ _ _ _ _ _ H1 H2 H3 H4). }
  unfold push, bind, readIsEnabled.
  destruct (isEnabled H (world s)) eqn:Hen; simpl.
  2: { exists []. rewrite app_nil_r. split; [reflexivity|].
       split; [intros c r []|]. discriminate. }
  rewrite try_finally_setStatus_writes.
  unfold getLocalExtensions, readIgnoredExtensions, setStatus, note.
  unfold bind, call, ret.
  cbn [world log removeFromSkipped addToSkipped fst snd].
  destruct (getInstalled H None (world s)) as [[inst|err] w1] eqn:Hinst.
  2: { apply Hnone; [no_writes | reflexivity |].
       intros; congruence. }
  cbn [world log removeFromSkipped addToSkipped fst snd].
  destruct (getDisabledExtensions H w1) as [[dis|err] w2] eqn:Hdis.
  2: { apply Hnone; [no_writes | reflexivity |].
       intros inst' w1' dis' w2' ls w3 d w4 H1 H2. 
       injection H1 as <- <-. congruence. }
  cbn [world log removeFromSkipped addToSkipped fst snd].
  destruct (getLastSyncUserData H w2) as [[ls|err] w3] eqn:Hls.
  2: { apply Hnone; [no_writes | reflexivity |].
       intros inst' w1' dis' w2' ls w3' d w4 H1 H2 H3.
       injection H1 as <- <-. rewrite Hdis in H2. injection H2 as <- <-.
       congruence. }
  cbn [world log removeFromSkipped addToSkipped fst snd].
  destruct (getRemoteUserData H ls w3) as [[d|err] w4] eqn:Hd.
  2: { apply Hnone; [no_writes | reflexivity |].
       intros inst' w1' dis' w2' ls' w3' d' w4' H1 H2 H3 H4.
       injection H1 as <- <-. rewrite Hdis in H2. injection H2 as <- <-.
       rewrite Hls in H3. injection H3 as <- <-. congruence. }
  cbn [world log removeFromSkipped addToSkipped fst snd].
  rewrite apply_writes.
  cbn [log remote previewOf].
  rewrite !writes_app. simpl (writes [_]). rewrite !app_nil_r.
  set (m := merge H (map (toSyncExtension dis) inst) None None []
                  (getIgnoredExtensions H inst w2)).
  eexists. split; [reflexivity|]. split.
  - intros c r Hin.
    destruct (fst (applyLocal H _ _)); [|destruct Hin].
    destruct (m_remote m) as [l|] eqn:Hm; [|destruct Hin].
    destruct Hin as [Heq|[]]. injection Heq as <- <-.
    split; [reflexivity|].
    exists inst, w1, dis, w2, l. auto.
  - intros _ inst' w1' dis' w2' ls' w3' d' w4' l H1 H2 H3 H4 Hm.
    injection H1 as <- <-. rewrite Hdis in H2. injection H2 as <- <-.
    subst m. rewrite Hm. reflexivity.
Qed.

(** A push from a machine with two extensions writes both, expecting no
    reference. *)
Lemma push_writes_with_null_reference_witness :
  writes (log (snd (push (sampleHost noFault []) (start homeWorld))))
  = [("git;a;", None)].
Proof.
  destruct (@push_writes_with_null_reference World (sampleHost noFault [])
                                             (start homeWorld))
    as (extra & Hw & _ & Hlive).
  rewrite (Hlive eq_refl _ _ _ _ _ _ _ _ _ eq_refl eq_refl eq_refl eq_refl
                 eq_refl) in Hw.
  exact Hw.
Defined.

End ExtensionsSyncFacts.

(** * Further properties of the auto-sync coordinator *)

Module AutoSyncRunsFacts.

Import AutoSyncService AutoSyncRuns.

Local Open Scope string_scope.
Local Open Scope list_scope.
Local Open Scope Z_scope.

Ltac loop_cases st :=
  destruct st as [[|] [|] [[? [|]]|] ? ? ? ? ? ?];
  cbv [enable disable updateAutoSync isAutoSyncEnabled setEnablement
       autoSync_sync delayer_cancel emit set_enablement
       set_syncTriggerDelayer set_autoSync set_lastSyncTriggerTime
       hasLoop noPendingWithoutLoop negb andb
       enablement token autoSync successiveFailures lastSyncTriggerTime
       sources syncTriggerDelayer clock trace started interval].

(** X1. Enabling or disabling a second time only repeats the call that
    stores the flag: no second loop is started and
    [userDataSyncService.stop()] is not called again. *)
Theorem enable_disable_idempotent :
  forall st : Service,
    disable (disable st) = emit (SetEnablement false) (disable st)
    /\ enable (enable st) = emit (SetEnablement true) (enable st).
Proof.
  intros st. split; loop_cases st; reflexivity.
Qed.

(** X2. After [updateAutoSync] there is a loop exactly when the enablement
    flag is set and a token is present; a loop that exists is kept as it is,
    without a second start, and a loop that has to go takes the pending
    trigger with it. *)
Theorem updateAutoSync_loop_iff :
  forall st : Service,
    hasLoop (updateAutoSync st) = enablement st && token st
    /\ (if enablement st && token st
        then match autoSync st with
             | Some _ => updateAutoSync st = st
             | None =>
                 trace (updateAutoSync st)
                 = trace st ++ [ServiceSync "Interval"]
                 /\ lastSyncTriggerTime (updateAutoSync st) = Some (clock st)
             end
        else syncTriggerDelayer (updateAutoSync st) = None
             /\ trace (updateAutoSync st)
                = trace st ++ match autoSync st with
                              | Some a => if started a then [ServiceStop] else []
                              | None => []
                              end).
Proof.
  intros st.
  split; loop_cases st; rewrite ?app_nil_r; auto.
Qed.

Lemma delayer_cancel_none (st : Service) :
  syncTriggerDelayer st = None -> delayer_cancel st = st.
Proof. destruct st; simpl; intros ->; reflexivity. Qed.

Lemma disable_no_loop (st : Service) :
  autoSync (disable st) = None /\ syncTriggerDelayer (disable st) = None.
Proof. split; loop_cases st; reflexivity. Qed.

(** X3. No operation of the coordinator leaves a trigger pending while
    there is no loop: the property is kept by [enable], [disable],
    [triggerAutoSync], the delayer's callback and [onDidFinishSync]. *)
Theorem noPendingWithoutLoop_kept :
  forall (toUserDataSyncError : Error -> UserDataSyncError)
         (resetLocal : Service -> result unit)
         (ALL_SYNC_RESOURCES srcs : list string)
         (error : option Error) (st : Service),
    noPendingWithoutLoop st ->
    noPendingWithoutLoop (enable st)
    /\ noPendingWithoutLoop (disable st)
    /\ noPendingWithoutLoop (snd (triggerAutoSync ALL_SYNC_RESOURCES srcs st))
    /\ noPendingWithoutLoop (runTrigger st)
    /\ noPendingWithoutLoop
         (snd (onDidFinishSync toUserDataSyncError resetLocal error st)).
Proof.
  intros toE rl R srcs error st Hinv. unfold noPendingWithoutLoop in *.
  split; [|split; [|split; [|split]]].
  - revert Hinv. loop_cases st; intros Hinv; try discriminate; auto.
  - intros _. apply disable_no_loop.
  - unfold triggerAutoSync.
    destruct (autoSync st) as [a|] eqn:Ha; [|intros _; reflexivity].
    destruct (_ && _ && _); simpl; rewrite Ha; discriminate.
  - intros _. unfold runTrigger. simpl.
    destruct (autoSync st); reflexivity.
  - unfold onDidFinishSync. destruct error as [err|]; [|exact Hinv].
    destruct (code (toE err)).
    + destruct (rl st); simpl; [intros _; apply disable_no_loop | exact Hinv].
    + destruct (rl st); simpl; [intros _; apply disable_no_loop | exact Hinv].
    + simpl. intros _. apply disable_no_loop.
    + exact Hinv.
Qed.

(** A switched-off coordinator stays without a pending trigger when a
    trigger arrives. *)
Lemma noPendingWithoutLoop_kept_witness :
  noPendingWithoutLoop
    (snd (triggerAutoSync sampleResources ["windowFocus"] idleService)).
Proof.
  destruct (@noPendingWithoutLoop_kept sampleToUserDataSyncError
              resetLocalSucceeds sampleResources ["windowFocus"] None
              idleService (fun _ => eq_refl)) as (_ & _ & Htrigger & _).
  exact Htrigger.
Defined.

Lemma triggerAutoSync_scheduled (R srcs : list string) (st st' : Service)
      (d : Z) :
  triggerAutoSync R srcs st = (Scheduled d, st') ->
  st' = delayer_trigger d (set_sources (sources st ++ srcs) st)
  /\ d = triggerDelay (successiveFailures st)
  /\ autoSync st <> None.
Proof.
  unfold triggerAutoSync.
  destruct (autoSync st) as [a|]; [|discriminate].
  destruct (_ && _ && _); [discriminate|].
  intros Heq. injection Heq as <- <-. repeat split. discriminate.
Qed.

(** X4. Triggers that are scheduled one after the other coalesce: the
    delayer holds one pending call, and when it runs it publishes the
    sources of all of them, in order, starts one sync, and leaves no source
    and no pending call behind. *)
Theorem triggers_coalesce :
  forall (ALL_SYNC_RESOURCES s1 s2 : list string) (st st1 st2 : Service)
         (now d1 d2 : Z),
    triggerAutoSync ALL_SYNC_RESOURCES s1 st = (Scheduled d1, st1) ->
    triggerAutoSync ALL_SYNC_RESOURCES s2 (advanceClock now st1)
    = (Scheduled d2, st2) ->
    syncTriggerDelayer st2 = Some d2
    /\ d2 = d1
    /\ trace (runTrigger st2)
       = trace st ++ [PublicLog (sources st ++ s1 ++ s2);
                      ServiceSync "Activity"]
    /\ sources (runTrigger st2) = []
    /\ syncTriggerDelayer (runTrigger st2) = None
    /\ lastSyncTriggerTime (runTrigger st2) = Some now.
Proof.
  intros R s1 s2 st st1 st2 now d1 d2 H1 H2.
  apply triggerAutoSync_scheduled in H1. destruct H1 as (-> & -> & Ha).
  apply triggerAutoSync_scheduled in H2. destruct H2 as (-> & -> & _).
  unfold runTrigger. simpl.
  destruct (autoSync st) as [a|]; [|congruence].
  simpl. rewrite <- !app_assoc. repeat split.
Qed.

(** Two triggers on a running loop, the second one second later. *)
Lemma triggers_coalesce_witness :
  trace (runTrigger
           (snd (triggerAutoSync
                   sampleResources ["settings"]
                   (advanceClock
                      1020000
                      (snd (triggerAutoSync sampleResources ["keybindings"]
                                            (sampleService 0 1019000)))))))
  = [PublicLog ["extensions"; "keybindings"; "settings"];
     ServiceSync "Activity"].
Proof.
  destruct (@triggers_coalesce sampleResources ["keybindings"] ["settings"]
              (sampleService 0 1019000) _ _ 1020000 _ _ eq_refl eq_refl)
    as (_ & _ & Ht & _).
  exact Ht.
Defined.

(** X5. The delay of a trigger is never below one second nor above one
    minute, and never shrinks when the number of successive failures
    grows. *)
Theorem triggerDelay_bounds :
  forall failures more : nat,
    1000 <= triggerDelay failures <= 60000
    /\ triggerDelay failures <= triggerDelay (failures + more).
Proof.
  assert (Hval : forall n, triggerDelay (S n)
                           = 1000 * Z.min (2 ^ Z.of_nat (S n)) 60).
  { intros n. unfold triggerDelay. rewrite Z.mul_1_r. reflexivity. }
  assert (Hpow : forall n, 2 <= 2 ^ Z.of_nat (S n)).
  { intros n. change 2 with (2 ^ 1) at 1. apply Z.pow_le_mono_r; lia. }
  intros failures more. split.
  - destruct failures as [|n]; [simpl; lia|].
    rewrite Hval. pose proof (Hpow n). lia.
  - destruct failures as [|n].
    + destruct more as [|m]; [simpl; lia|].
      change (0 + S m)%nat with (S m). rewrite Hval.
      pose proof (Hpow m). simpl triggerDelay. lia.
    + change (S n + more)%nat with (S (n + more)). rewrite !Hval.
      assert (2 ^ Z.of_nat (S n) <= 2 ^ Z.of_nat (S (n + more)))
        by (apply Z.pow_le_mono_r; lia).
      lia.
Qed.

Lemma finishCycles_app (toE : Error -> UserDataSyncError)
      (rl : Service -> result unit) (o1 o2 : list (option Error))
      (st : Service) :
  finishCycles toE rl (o1 ++ o2) st
  = finishCycles toE rl o2 (finishCycles toE rl o1 st).
Proof.
  revert st. induction o1 as [|o rest IH]; intros st; simpl; auto.
Qed.

Lemma onDidFinishSync_other (toE : Error -> UserDataSyncError)
      (rl : Service -> result unit) (e : Error) (st : Service)
      (name : string) :
  code (toE e) = OtherCode name ->
  snd (onDidFinishSync toE rl (Some e) st)
  = emit (FireOnError (toE e))
         (set_successiveFailures (S (successiveFailures st)) st).
Proof. intros Hcode. unfold onDidFinishSync. rewrite Hcode. reflexivity. Qed.

(** X6. Cycles that fail one after the other with errors outside of the
    three special codes each add one to [successiveFailures] and fire their
    error, in order, and change nothing else: the loop stays; a cycle that
    then succeeds brings the counter, and so the delay of the next trigger,
    back to its start. *)
Theorem successive_failures_count :
  forall (toUserDataSyncError : Error -> UserDataSyncError)
         (resetLocal : Service -> result unit)
         (errors : list Error) (st : Service),
    (forall e, In e errors ->
               exists name, code (toUserDataSyncError e) = OtherCode name) ->
    let st' := finishCycles toUserDataSyncError resetLocal
                            (map Some errors) st in
    successiveFailures st' = (successiveFailures st + List.length errors)%nat
    /\ trace st'
       = trace st ++ map (fun e => FireOnError (toUserDataSyncError e)) errors
    /\ autoSync st' = autoSync st
    /\ enablement st' = enablement st
    /\ syncTriggerDelayer st' = syncTriggerDelayer st
    /\ successiveFailures
         (finishCycles toUserDataSyncError resetLocal
                       (map Some errors ++ [None]) st) = 0%nat
    /\ triggerDelay
         (successiveFailures
            (finishCycles toUserDataSyncError resetLocal
                          (map Some errors ++ [None]) st)) = 1000.
Proof.
  intros toE rl errors st Hother.
  assert (Hrun : forall st0,
             let st' := finishCycles toE rl (map Some errors) st0 in
             successiveFailures st'
             = (successiveFailures st0 + List.length errors)%nat
             /\ trace st'
                = trace st0 ++ map (fun e => FireOnError (toE e)) errors
             /\ autoSync st' = autoSync st0
             /\ enablement st' = enablement st0
             /\ syncTriggerDelayer st' = syncTriggerDelayer st0).
  { induction errors as [|e rest IH]; intros st0;
      cbn [finishCycles map List.length]; cbv zeta.
    - rewrite Nat.add_0_r, app_nil_r. auto.
    - destruct (Hother e (or_introl eq_refl)) as (name & Hcode).
      rewrite (onDidFinishSync_other toE rl e st0 Hcode).
      destruct (IH (fun x Hx => Hother x (or_intror Hx))
                   (emit (FireOnError (toE e))
                         (set_successiveFailures
                            (S (successiveFailures st0)) st0)))
        as (Hf & Ht & Ha & He & Hd).
      rewrite Hf, Ht, Ha, He, Hd. simpl.
      rewrite <- app_assoc, Nat.add_succ_r. auto. }
  destruct (Hrun st) as (Hf & Ht & Ha & He & Hd).
  cbv zeta. rewrite finishCycles_app. simpl.
  repeat split; assumption.
Qed.

(** Three failed cycles on a fresh loop. *)
Lemma successive_failures_count_witness :
  successiveFailures
    (finishCycles sampleToUserDataSyncError resetLocalSucceeds
                  (map Some ["Unknown"; "ConnectionRefused"; "Unknown"])
                  (sampleService 0 1005000)) = 3%nat.
Proof.
  refine (proj1 (@successive_failures_count
                   sampleToUserDataSyncError resetLocalSucceeds
                   ["Unknown"; "ConnectionRefused"; "Unknown"]
                   (sampleService 0 1005000) _)).
  intros e [<-|[<-|[<-|[]]]]; eexists; reflexivity.
Defined.

(** X7. Once a cycle has ended with one of the three codes that switch
    auto-sync off (and the reset, when there is one, has completed), a
    trigger is a no-op: nothing is scheduled, no source is kept, no call is
    made; [enable], with a token at hand, starts a new loop and its first
    sync. *)
Theorem triggers_after_switch_off :
  forall (toUserDataSyncError : Error -> UserDataSyncError)
         (resetLocal : Service -> result unit)
         (ALL_SYNC_RESOURCES srcs : list string) (err : Error) (st : Service),
    code (toUserDataSyncError err) = TurnedOff
    \/ code (toUserDataSyncError err) = SessionExpired
    \/ code (toUserDataSyncError err) = LocalTooManyRequests ->
    fst (onDidFinishSync toUserDataSyncError resetLocal (Some err) st)
    = Ok tt ->
    let st' := snd (onDidFinishSync toUserDataSyncError resetLocal
                                    (Some err) st) in
    triggerAutoSync ALL_SYNC_RESOURCES srcs st' = (Cancelled, st')
    /\ (token st = true ->
        hasLoop (enable st') = true
        /\ trace (enable st')
           = trace st' ++ [SetEnablement true; ServiceSync "Interval"]
        /\ lastSyncTriggerTime (enable st') = Some (clock st)).
Proof.
  intros toE rl R srcs err st Hcode Hok.
  assert (Hst : exists st0,
             snd (onDidFinishSync toE rl (Some err) st)
             = emit (FireOnError (toE err)) (disable st0)
             /\ token st0 = token st /\ clock st0 = clock st).
  { unfold onDidFinishSync in Hok |- *.
    destruct Hcode as [Hc|[Hc|Hc]]; rewrite Hc in Hok |- *.
    - destruct (rl st); [|discriminate]. eexists. split; [reflexivity|].
      split; reflexivity.
    - destruct (rl st); [|discriminate]. eexists. split; [reflexivity|].
      split; reflexivity.
    - eexists. split; [reflexivity|]. split; reflexivity. }
  destruct Hst as (st0 & Hst & Htoken & Hclock).
  cbv zeta. rewrite Hst. clear Hst Hok Hcode.
  split.
  - unfold triggerAutoSync.
    destruct (disable_no_loop st0) as (Ha & Hd).
    change (autoSync (emit (FireOnError (toE err)) (disable st0)))
      with (autoSync (disable st0)).
    rewrite Ha. f_equal. apply delayer_cancel_none. exact Hd.
  - intros Ht. rewrite <- Htoken in Ht. rewrite <- Hclock. revert Ht.
    loop_cases st0; intros Ht; try discriminate;
      repeat split; rewrite <- ?app_assoc; reflexivity.
Qed.

(** Too many requests, then a trigger, on a running loop. *)
Lemma triggers_after_switch_off_witness :
  fst (triggerAutoSync
         sampleResources ["extensions"]
         (snd (onDidFinishSync sampleToUserDataSyncError resetLocalSucceeds
                               (Some "LocalTooManyRequests")
                               (sampleService 1 1005000))))
  = Cancelled.
Proof.
  destruct (@triggers_after_switch_off
              sampleToUserDataSyncError resetLocalSucceeds sampleResources
              ["extensions"] "LocalTooManyRequests" (sampleService 1 1005000)
              (or_intror (or_intror eq_refl)) eq_refl) as (Htr & _).
  exact (f_equal fst Htr).
Defined.

(** X8. When the delayer's callback has started a cycle, a trigger whose
    sources are neither the resource-enablement source nor a sync-resource
    name and that arrives less than 9500 ms later is dropped; unless the
    cycle started at time 0, which the test of the stored time takes for no
    time at all: the trigger is then scheduled. *)
Theorem trigger_right_after_start :
  forall (ALL_SYNC_RESOURCES srcs : list string) (st : Service) (a : AutoSync)
         (now : Z),
    autoSync st = Some a ->
    hasToLimitSync ALL_SYNC_RESOURCES srcs = true ->
    now - clock st < 9500 ->
    fst (triggerAutoSync ALL_SYNC_RESOURCES srcs
                         (advanceClock now (runTrigger st)))
    = if clock st =? 0
      then Scheduled (triggerDelay (successiveFailures st))
      else Skipped.
Proof.
  intros R srcs st a now Ha Hlimit Hnow.
  unfold runTrigger. simpl. rewrite Ha.
  unfold triggerAutoSync. simpl. rewrite Ha, Hlimit. simpl.
  unfold secondsSinceLastTrigger. simpl.
  destruct (clock st =? 0); simpl; [reflexivity|].
  assert (Hlt : Math_round_seconds (now - clock st) < 10).
  { unfold Math_round_seconds. apply Z.div_lt_upper_bound; lia. }
  apply Z.ltb_lt in Hlt. rewrite Hlt. reflexivity.
Qed.

(** A window-focus trigger three seconds after the cycle started. *)
Lemma trigger_right_after_start_witness :
  fst (triggerAutoSync sampleResources ["windowFocus"]
                       (advanceClock 1008000
                                     (runTrigger (sampleService 0 1005000))))
  = Skipped.
Proof.
  refine (@trigger_right_after_start sampleResources ["windowFocus"]
            (sampleService 0 1005000) _ 1008000 eq_refl eq_refl _).
  simpl. lia.
Defined.

End AutoSyncRunsFacts.

(** * Further properties of the extensions synchroniser *)

Module ExtensionsSyncRunsFacts.

Import ExtensionsSync ExtensionsSyncRuns.

Local Open Scope string_scope.
Local Open Scope list_scope.

(** ** Composition of [Emits] *)

Lemma Emits_weaken {W A} (P Q : Event -> Prop) (m : M W A) :
  (forall ev, P ev -> Q ev) -> Emits P m -> Emits Q m.
Proof.
  intros HPQ Hm s. destruct (Hm s) as (extra & Hlog & Hall).
  exists extra. split; [exact Hlog|].
  eapply Forall_impl; [exact HPQ | exact Hall].
Qed.

Lemma Emits_same {W A} (P : Event -> Prop) (m : M W A) :
  (forall s, log (snd (m s)) = log s) -> Emits P m.
Proof.
  intros Hm s. exists []. rewrite app_nil_r. split; [apply Hm | constructor].
Qed.

Lemma Emits_bind {W A B} (P : Event -> Prop) (m : M W A) (k : A -> M W B) :
  Emits P m -> (forall a, Emits P (k a)) -> Emits P (bind m k).
Proof.
  intros Hm Hk s. unfold bind.
  destruct (Hm s) as (e1 & H1 & Hp1).
  destruct (m s) as [[a|err] s1]; simpl in H1.
  - destruct (Hk a s1) as (e2 & H2 & Hp2).
    exists (e1 ++ e2). rewrite H2, H1, app_assoc.
    split; [reflexivity | apply Forall_app; auto].
  - exists e1. auto.
Qed.

Lemma Emits_try_catch {W A} (P : Event -> Prop) (m : M W A)
      (h : Error -> M W A) :
  Emits P m -> (forall e, Emits P (h e)) -> Emits P (try_catch m h).
Proof.
  intros Hm Hh s. unfold try_catch.
  destruct (Hm s) as (e1 & H1 & Hp1).
  destruct (m s) as [[a|err] s1]; simpl in H1.
  - exists e1. auto.
  - destruct (Hh err s1) as (e2 & H2 & Hp2).
    exists (e1 ++ e2). rewrite H2, H1, app_assoc.
    split; [reflexivity | apply Forall_app; auto].
Qed.

Lemma Emits_call {W A} (P : Event -> Prop) (ev : Event)
      (f : W -> result A * W) :
  P ev -> Emits P (call ev f).
Proof.
  intros Hev s. unfold call. destruct (f (world s)) as [r w].
  exists [ev]. split; [reflexivity | repeat constructor; exact Hev].
Qed.

Lemma Emits_Promise_all_map {W A} (P : Event -> Prop) (order : W -> list nat)
      (callback : A -> Async W unit) (items : list A) :
  (forall x, In x items -> AsyncKeeps (emitting P) (callback x)) ->
  Emits P (Promise_all_map order callback items).
Proof.
  intros Hc.
  apply (ExtensionsSyncFacts.Keeps_Promise_all_map
           (@ExtensionsSyncFacts.emitting_refl W P)
           (@ExtensionsSyncFacts.emitting_trans W P)).
  exact Hc.
Qed.

(** Follows the shape of a computation whose methods have been unfolded;
    what is left are the events, to be checked against the predicate. *)
Ltac emits :=
  repeat match goal with
         | |- Emits _ (bind _ _) => apply Emits_bind; [|intros ?]
         | |- Emits _ (try_catch _ _) => apply Emits_try_catch; [|intros ?]
         | |- Emits _ (call _ _) => apply Emits_call
         | |- Emits _ (ret _) => apply Emits_same; reflexivity
         | |- Emits _ (liftResult _) => apply Emits_same; reflexivity
         | |- Emits _ (removeFromSkipped_push _) =>
             apply Emits_same; reflexivity
         | |- Emits _ (addToSkipped_push _) => apply Emits_same; reflexivity
         | |- Emits _ freshArrays => apply Emits_same; reflexivity
         | |- Emits _ (readIsEnabled _) => apply Emits_same; reflexivity
         | |- Emits _ (readIgnoredExtensions _ _) =>
             apply Emits_same; reflexivity
         | |- Emits _ (fun _ => (_, _)) => apply Emits_same; reflexivity
         | |- Emits _ (if ?c then _ else _) => destruct c
         | |- Emits _ (match ?c with Some _ => _ | None => _ end) =>
             destruct c
         | |- Emits _ (let _ := _ in _) => cbv zeta
         end.

Ltac unfold_methods :=
  unfold performSync, generatePreview, performReplace, apply, applyLocal,
    applyRemote, applyLastSync, updateLocalExtensions, uninstallExtension,
    syncExtension, enableAndInstall, setEnablementOf, hasLocalData,
    parseAndMigrateExtensions, parseExtensions, getLocalExtensions.

Lemma Emits_In {W A} (P : Event -> Prop) (m : M W A) (s : St W) (ev : Event) :
  Emits P m -> In ev (log (snd (m s))) -> In ev (log s) \/ P ev.
Proof.
  intros Hm Hin. destruct (Hm s) as (extra & Hlog & Hall).
  rewrite Hlog in Hin. apply in_app_or in Hin.
  destruct Hin as [Hin|Hin]; [left; exact Hin|].
  right. rewrite Forall_forall in Hall. apply Hall. exact Hin.
Qed.

(** ** Reading *)


(** X10. [hasLocalData] only reads: it logs nothing but listings, leaves
    the arrays of the local apply alone, and so changes nothing that is
    installed, enabled, backed up or stored. *)
Theorem hasLocalData_only_reads :
  forall (W : Type) (H : Host W) (s : St W),
  exists extra,
    log (snd (hasLocalData H s)) = log s ++ extra
    /\ Forall (fun ev => isRead ev = true) extra
    /\ List.length extra <= 2.
Proof.
  intros W H s.
  unfold hasLocalData, getLocalExtensions, try_catch, bind, call, ret.
  destruct (getInstalled H None (world s)) as [[inst|err] w1]; simpl.
  - destruct (getDisabledExtensions H w1) as [[dis|err] w2]; simpl;
      (exists [EvGetInstalled None; EvGetDisabledExtensions];
       rewrite <- app_assoc; split; [reflexivity|];
       split; [repeat constructor | simpl; auto]).
  - exists [EvGetInstalled None]. split; [reflexivity|].
    split; [repeat constructor | simpl; auto].
Qed.

(** ** The local apply *)

Section LocalApply.

Context {W : Type} (H : Host W).

Lemma Emits_updateLocalExtensions
      (added : list ISyncExtension) (removed : list IExtensionIdentifier)
      (updated skipped : list ISyncExtension) :
  Emits (fun ev => localApplyEvent removed ev /\
                   (isItemCall ev = true ->
                    added ++ updated <> []))
        (updateLocalExtensions H added removed updated skipped).
Proof.
  unfold updateLocalExtensions.
  apply Emits_bind; [apply Emits_same; reflexivity | intros _].
  apply Emits_bind; [|intros _].
  { destruct removed as [|r0 removed'] eqn:Hrem;
      [apply Emits_same; reflexivity|].
    simpl nonEmpty. cbv iota.
    apply Emits_bind; [|intros installedExtensions].
    - apply Emits_call. split; [simpl; discriminate | discriminate].
    - apply Emits_Promise_all_map. intros x Hx.
      apply filter_In in Hx. destruct Hx as (_ & Hx).
      apply existsb_exists in Hx.
      apply ExtensionsSyncFacts.emitting_uninstallExtensionAsync.
      split; [exact Hx | discriminate]. }
  apply Emits_bind; [|intros _; apply Emits_same; reflexivity].
  destruct (nonEmpty added || nonEmpty updated) eqn:Hne;
    [|apply Emits_same; reflexivity].
  apply Emits_Promise_all_map. intros e _.
  apply ExtensionsSyncFacts.emitting_syncExtensionAsync.
  intros ev Hev. split.
  - destruct ev as [| [[|]|] | | | | | | | | | | | |]; simpl in *;
      try discriminate; reflexivity.
  - intros _ Hnil. apply app_eq_nil in Hnil. destruct Hnil as (-> & ->).
    discriminate.
Qed.

End LocalApply.

(** X11. The local apply does nothing it was not asked to do: every
    extension it uninstalls matches an identity of [removed]; with nothing
    to remove it neither lists the user extensions nor uninstalls; with
    nothing added or updated it makes no listing, gallery, enablement or
    installation call; and it never backs up, writes to the remote or
    touches the last-sync snapshot. *)
Theorem updateLocalExtensions_does_what_is_asked :
  forall (W : Type) (H : Host W)
         (added : list ISyncExtension) (removed : list IExtensionIdentifier)
         (updated skipped : list ISyncExtension) (s : St W),
  exists extra,
    log (snd (updateLocalExtensions H added removed updated skipped s))
    = log s ++ extra
    /\ Forall (localApplyEvent removed) extra
    /\ (removed = [] ->
        forall ev, In ev extra -> isItemCall ev = true)
    /\ (added = [] -> updated = [] ->
        forall ev, In ev extra -> isItemCall ev = false).
Proof.
  intros W H added removed updated skipped s.
  destruct (Emits_updateLocalExtensions H added removed updated skipped s)
    as (extra & Hlog & Hall).
  exists extra. split; [exact Hlog|].
  rewrite Forall_forall in Hall.
  split; [|split].
  - apply Forall_forall. intros ev Hev. apply (Hall ev Hev).
  - intros -> ev Hev. destruct (Hall ev Hev) as (Hl & _).
    destruct ev as [| [[|]|] | | | | | | | | | | | |]; simpl in Hl |- *;
      try reflexivity; try discriminate; try congruence.
    destruct Hl as (r & [] & _).
  - intros -> -> ev Hev. destruct (Hall ev Hev) as (_ & Hitem).
    destruct (isItemCall ev); [|reflexivity].
    exfalso. apply Hitem; reflexivity.
Qed.

(** ** Status *)

Section Status.

Context {W : Type} (H : Host W).

Lemma Emits_apply_no_status (p : IExtensionsSyncPreviewResult)
      (forcePush : bool) :
  Emits (fun ev => isStatus ev = false) (apply H p forcePush).
Proof.
  unfold apply, applyLocal, applyRemote, applyLastSync.
  emits; try reflexivity.
  eapply Emits_weaken; [|apply Emits_updateLocalExtensions].
  intros ev (Hev & _).
  destruct ev as [| [[|]|] | | | | | | | | | | | |]; simpl in *;
    try discriminate; reflexivity.
Qed.

Lemma try_finally_status (body : M W unit) (s : St W) :
  Emits (fun ev => isStatus ev = false) body ->
  exists mid,
    log (snd (try_finally (setStatus Syncing ;;; body) (setStatus Idle) s))
    = log s ++ EvSetStatus Syncing :: mid ++ [EvSetStatus Idle]
    /\ Forall (fun ev => isStatus ev = false) mid.
Proof.
  intros Hbody. unfold try_finally, bind, setStatus, note. simpl.
  match goal with
  | |- context [body ?st] =>
      destruct (Hbody st) as (mid & Hlog & Hall); destruct (body st) as [r s1]
  end.
  simpl in Hlog |- *. exists mid. rewrite Hlog, <- !app_assoc.
  split; [reflexivity | exact Hall].
Qed.

End Status.

(** X12. [push] and [pull] leave the status at [Idle] on every path: when
    the synchroniser is disabled they do nothing at all; otherwise they set
    the status to [Syncing] first and to [Idle] last, also when a call in
    between throws, and do not set it in between. *)
Theorem push_pull_restore_idle :
  forall (W : Type) (H : Host W) (s : St W),
    if isEnabled H (world s)
    then (exists mid,
             log (snd (push H s))
             = log s ++ EvSetStatus Syncing :: mid ++ [EvSetStatus Idle]
             /\ Forall (fun ev => isStatus ev = false) mid)
         /\ (exists mid,
                log (snd (pull H s))
                = log s ++ EvSetStatus Syncing :: mid ++ [EvSetStatus Idle]
                /\ Forall (fun ev => isStatus ev = false) mid)
    else push H s = (Ok tt, s) /\ pull H s = (Ok tt, s).
Proof.
  intros W H s.
  destruct (isEnabled H (world s)) eqn:Hen.
  - split.
    + unfold push. unfold bind at 1. unfold readIsEnabled.
      rewrite Hen. cbv beta iota. cbn [negb].
      apply try_finally_status.
      unfold getLocalExtensions. emits; try reflexivity.
      apply Emits_apply_no_status.
    + unfold pull. unfold bind at 1. unfold readIsEnabled.
      rewrite Hen. cbv beta iota. cbn [negb].
      apply try_finally_status.
      unfold getLocalExtensions, parseAndMigrateExtensions, parseExtensions.
      emits; try reflexivity; apply Emits_apply_no_status.
  - split.
    + unfold push. unfold bind at 1. unfold readIsEnabled.
      rewrite Hen. reflexivity.
    + unfold pull. unfold bind at 1. unfold readIsEnabled.
      rewrite Hen. reflexivity.
Qed.

(** ** Remote writes of [pull] and [performReplace] *)

Lemma Emits_bind_result {W A B} (P : Event -> Prop) (m : M W A)
      (k : A -> M W B) :
  Emits P m ->
  (forall a, (exists st, fst (m st) = Ok a) -> Emits P (k a)) ->
  Emits P (bind m k).
Proof.
  intros Hm Hk s. unfold bind.
  destruct (Hm s) as (e1 & H1 & Hp1).
  destruct (m s) as [[a|err] s1] eqn:Hrun; simpl in H1.
  - assert (Ha : exists st, fst (m st) = Ok a)
      by (exists s; rewrite Hrun; reflexivity).
    destruct (Hk a Ha s1) as (e2 & H2 & Hp2).
    exists (e1 ++ e2). rewrite H2, H1, app_assoc.
    split; [reflexivity | apply Forall_app; auto].
  - exists e1. auto.
Qed.

Lemma Emits_try_finally_status {W A} (P : Event -> Prop) (body : M W A)
      (st : SyncStatus) :
  P (EvSetStatus st) -> Emits P body ->
  Emits P (try_finally body (setStatus st)).
Proof.
  intros Hst Hbody s. unfold try_finally, setStatus, note.
  destruct (Hbody s) as (e1 & H1 & Hp1).
  destruct (body s) as [r s1]. simpl in H1 |- *.
  exists (e1 ++ [EvSetStatus st]). rewrite H1, app_assoc.
  split; [reflexivity|]. apply Forall_app. split; [exact Hp1|].
  repeat constructor. exact Hst.
Qed.

Lemma Emits_apply_local {W} (H : Host W) (P : Event -> Prop)
      (p : IExtensionsSyncPreviewResult) :
  (forall ev, (forall c r, ev <> EvUpdateRemoteUserData c r) -> P ev) ->
  Emits P (applyLocal H p).
Proof.
  intros HP. unfold applyLocal.
  destruct (hasLocalChanged p); [|apply Emits_same; reflexivity].
  apply Emits_bind; [apply Emits_call; apply HP; discriminate | intros _].
  eapply Emits_weaken; [|apply Emits_updateLocalExtensions].
  intros ev (Hev & _). apply HP. intros c r ->. simpl in Hev. discriminate.
Qed.

Lemma Emits_apply_write {W} (H : Host W) (P : Event -> Prop)
      (p : IExtensionsSyncPreviewResult) (forcePush : bool) :
  (forall ev, (forall c r, ev <> EvUpdateRemoteUserData c r) -> P ev) ->
  (forall l, remote p = Some l ->
             P (EvUpdateRemoteUserData (JSON_stringify H l)
                                       (expectedRef p forcePush))) ->
  Emits P (apply H p forcePush).
Proof.
  intros HP Hwrite. unfold apply.
  apply Emits_bind; [apply Emits_apply_local; exact HP | intros sk].
  apply Emits_bind; [|intros d].
  - unfold applyRemote. destruct (remote p) as [l|];
      [|apply Emits_same; reflexivity].
    apply Emits_call. apply (Hwrite l). reflexivity.
  - unfold applyLastSync. destruct (refDiffers (lastSyncUserData p) d);
      [|apply Emits_same; reflexivity].
    apply Emits_call. apply HP. discriminate.
Qed.

(** X13. A remote write of [pull] is conditional: it expects the reference
    of the remote data that the same [pull] read, never a null one, and
    [pull] writes nothing when that remote data is empty. *)
Theorem pull_writes_expect_read_reference :
  forall (W : Type) (H : Host W) (s : St W),
  exists extra,
    log (snd (pull H s)) = log s ++ extra
    /\ Forall (pullEvent H s) extra.
Proof.
  intros W H s.
  assert (Hrest : forall ev, (forall c r, ev <> EvUpdateRemoteUserData c r) ->
                             pullEvent H s ev).
  { intros ev Hev. destruct ev; simpl; auto. exfalso. eapply Hev. reflexivity. }
  unfold pull, bind at 1, readIsEnabled.
  destruct (isEnabled H (world s)); simpl.
  2: { exists []. rewrite app_nil_r. split; [reflexivity | constructor]. }
  unfold try_finally, bind at 1, setStatus, note. simpl.
  unfold bind at 1, call at 1. simpl.
  destruct (getLastSyncUserData H (world s)) as [[ls|err] w1] eqn:Hls; simpl.
  2: { eexists. rewrite <- !app_assoc. split; [reflexivity|].
       repeat constructor. }
  unfold bind at 1, call at 1. simpl.
  destruct (getRemoteUserData H ls w1) as [[d|err] w2] eqn:Hd; simpl.
  2: { eexists. rewrite <- !app_assoc. split; [reflexivity|].
       repeat constructor. }
  destruct (syncData d) as [sd|] eqn:Hsd; simpl.
  2: { eexists. rewrite <- !app_assoc. split; [reflexivity|].
       repeat constructor. }
  match goal with
  | |- context [bind ?m ?k ?st] =>
      assert (He : Emits (pullEvent H s) (bind m k))
  end.
  { unfold getLocalExtensions, parseAndMigrateExtensions, parseExtensions.
    emits; try (apply Hrest; discriminate).
    apply Emits_apply_write; [exact Hrest|].
    intros l _. simpl. exists ls, w1, d, w2, sd. auto. }
  match goal with
  | |- context [bind ?m ?k ?st] =>
      destruct (He st) as (extra & Hlog & Hall);
      destruct (bind m k st) as [r s']
  end.
  simpl in Hlog |- *.
  eexists. rewrite Hlog, <- !app_assoc. split; [reflexivity|].
  repeat constructor. apply Forall_app. split; [exact Hall|].
  repeat constructor.
Qed.

(** X14. A remote write of [performReplace] carries the replaced payload,
    as parsed and migrated, under the reference of the remote data it was
    given: the local items never take its place and the reference is never
    dropped. *)
Theorem performReplace_writes_the_payload :
  forall (W : Type) (H : Host W) (replaced : ISyncData)
         (given : IRemoteUserData) (lastSync : option ILastSyncUserData)
         (s : St W),
  exists extra,
    log (snd (performReplace H replaced given lastSync s)) = log s ++ extra
    /\ Forall (replaceEvent H replaced given) extra.
Proof.
  intros W H replaced given lastSync s.
  assert (Hrest : forall ev, (forall c r, ev <> EvUpdateRemoteUserData c r) ->
                             replaceEvent H replaced given ev).
  { intros ev Hev. destruct ev; simpl; auto. exfalso. eapply Hev. reflexivity. }
  assert (He : Emits (replaceEvent H replaced given)
                     (performReplace H replaced given lastSync)).
  { unfold performReplace.
    apply Emits_bind; [apply Emits_call; apply Hrest; discriminate|].
    intros inst.
    apply Emits_bind;
      [unfold getLocalExtensions; emits; apply Hrest; discriminate|].
    intros localExts.
    apply Emits_bind_result.
    { unfold parseAndMigrateExtensions, parseExtensions.
      emits; apply Hrest; discriminate. }
    intros exts (st & Hst).
    apply Emits_bind; [apply Emits_same; reflexivity | intros ignored].
    apply Emits_apply_write; [exact Hrest|].
    intros l Hl. simpl in Hl. injection Hl as <-.
    simpl. split; [reflexivity|]. exists exts, st. auto. }
  exact (He s).
Qed.

(** ** Failure inside [apply] *)

(** X15. When the local step of [apply] throws, [apply] throws the same
    error and neither writes to the remote nor persists a last-sync
    snapshot; when the remote write throws (a stale reference, for one),
    [apply] throws that error and persists no last-sync snapshot. *)
Theorem apply_failure_persists_nothing :
  forall (W : Type) (H : Host W) (p : IExtensionsSyncPreviewResult)
         (forcePush : bool) (s : St W),
    match applyLocal H p s with
    | (Throw e, s1) =>
        apply H p forcePush s = (Throw e, s1)
        /\ writes (log s1) = writes (log s)
        /\ persisted (log s1) = persisted (log s)
    | (Ok sk, s1) =>
        match fst (applyRemote H p forcePush s1) with
        | Throw e =>
            fst (apply H p forcePush s) = Throw e
            /\ persisted (log (snd (apply H p forcePush s)))
               = persisted (log s)
        | Ok _ => True
        end
    end.
Proof.
  intros W H p forcePush s.
  destruct (ExtensionsSyncFacts.Silent_applyLocal H p s)
    as (e1 & H1 & Hw1 & Hp1).
  unfold apply, bind.
  destruct (applyLocal H p s) as [[sk|err] s1]; simpl in H1.
  - pose proof (ExtensionsSyncFacts.applyRemote_run H p forcePush s1) as Hr.
    destruct (applyRemote H p forcePush s1) as [[d|err] s2]; simpl;
      [exact I|].
    split; [reflexivity|].
    destruct (remote p) as [l|].
    + destruct Hr as (_ & _ & Hlog). simpl in Hlog.
      rewrite Hlog, H1, !ExtensionsSyncFacts.persisted_app, Hp1. simpl.
      rewrite !app_nil_r. reflexivity.
    + discriminate.
  - split; [reflexivity|].
    rewrite H1, ExtensionsSyncFacts.writes_app,
      ExtensionsSyncFacts.persisted_app, Hw1, Hp1, !app_nil_r.
    split; reflexivity.
Qed.

(** A write under a stale reference: the store refuses it, nothing is
    persisted. *)
Lemma apply_failure_persists_nothing_witness :
  fst (apply (sampleHost noFault []) stalePreview false (start homeWorld))
  = Throw "precondition failed"
  /\ persisted (log (snd (apply (sampleHost noFault []) stalePreview false
                                (start homeWorld)))) = [].
Proof.
  exact (apply_failure_persists_nothing (sampleHost noFault []) stalePreview
                                        false (start homeWorld)).
Defined.

(** ** The skip list *)

Lemma pushSkipped_appends (addTo acc : list ISyncExtension) :
  exists extra,
    pushSkipped acc addTo = acc ++ extra /\ incl extra addTo.
Proof.
  revert acc. induction addTo as [|x rest IH]; intros acc; simpl.
  - exists []. rewrite app_nil_r. split; [reflexivity | apply incl_refl].
  - destruct (existsb _ acc).
    + destruct (IH acc) as (extra & Heq & Hincl).
      exists extra. split; [exact Heq|]. apply incl_tl. exact Hincl.
    + destruct (IH (acc ++ [x])) as (extra & Heq & Hincl).
      exists (x :: extra). rewrite Heq, <- app_assoc.
      split; [reflexivity|].
      intros y [<-|Hy]; [left; reflexivity | right; apply Hincl; exact Hy].
Qed.

(** X16. The skip list returned by the local apply is made of the old
    entries that no applied or removed identity matches, in their old order,
    followed by newly skipped items: nothing else enters it, an old entry
    leaves it only when such an identity matches it, and with nothing
    applied, removed or skipped it is the old list. *)
Theorem newSkippedExtensions_provenance :
  forall (skipped : list ISyncExtension)
         (removeFromSkipped : list IExtensionIdentifier)
         (addToSkipped : list ISyncExtension),
    (exists extra,
        newSkippedExtensions skipped removeFromSkipped addToSkipped
        = retainSkipped skipped removeFromSkipped ++ extra
        /\ incl extra addToSkipped)
    /\ (forall x,
           In x (retainSkipped skipped removeFromSkipped) <->
           In x skipped
           /\ forall r, In r removeFromSkipped ->
                        areSameExtensions r (identifier x) = false)
    /\ newSkippedExtensions skipped [] [] = skipped.
Proof.
  intros skipped rfs ats. split; [|split].
  - unfold newSkippedExtensions. apply pushSkipped_appends.
  - intros x. unfold retainSkipped. rewrite filter_In, negb_true_iff.
    split; intros (Hin & Hno); (split; [exact Hin|]).
    + intros r Hr.
      exact (ExtensionsSyncFacts.existsb_false_forall _ _ Hno r Hr).
    + destruct (existsb _ rfs) eqn:He; [|reflexivity].
      apply existsb_exists in He. destruct He as (r & Hr & Hsame).
      rewrite (Hno r Hr) in Hsame. discriminate.
  - unfold newSkippedExtensions, retainSkipped. simpl.
    induction skipped as [|x rest IH]; simpl; [reflexivity|].
    rewrite IH. reflexivity.
Qed.

(** ** Migration *)

Lemma migrateExtension_identity (v : Z) (sys : list ILocalExtension)
      (e : ISyncExtension) :
  identifier (migrateExtension v sys e) = identifier e
  /\ version (migrateExtension v sys e) = version e.
Proof.
  unfold migrateExtension, delete_enabled, set_disabled, set_installed.
  destruct (v =? 1)%Z, (v =? 2)%Z, (enabledIsFalse e); simpl;
    try (destruct (forallb _ sys)); simpl; auto.
Qed.

(** X17. Migration never touches who an item is: whatever the version of
    the payload, the items come back in the same number and order, each with
    the identifier and the version it was parsed with; and migrating an item
    a second time changes nothing. *)
Theorem migration_keeps_identity :
  forall (W : Type) (H : Host W) (syncData : ISyncData) (s s' : St W)
         (migrated : list ISyncExtension),
    parseAndMigrateExtensions H syncData s = (Ok migrated, s') ->
    (exists parsed,
        JSON_parse H (content syncData) = Ok parsed
        /\ map identifier migrated = map identifier parsed
        /\ map version migrated = map version parsed
        /\ List.length migrated = List.length parsed)
    /\ (forall v systemExtensions e,
           migrateExtension v systemExtensions
                            (migrateExtension v systemExtensions e)
           = migrateExtension v systemExtensions e).
Proof.
  intros W H sd s s' migrated Hrun. split.
  - unfold parseAndMigrateExtensions, parseExtensions, liftResult, bind, call,
      ret in Hrun.
    destruct (JSON_parse H (content sd)) as [parsed|err]; [|discriminate].
    exists parsed. split; [reflexivity|].
    destruct ((sd_version sd =? 1)%Z || (sd_version sd =? 2)%Z).
    + destruct (getInstalled H (Some System) (world s)) as [[sys|err] w1];
        [|discriminate].
      injection Hrun as <- _.
      rewrite !map_map, length_map.
      split; [|split; [|reflexivity]]; apply map_ext; intros e;
        apply migrateExtension_identity.
    + injection Hrun as <- _. auto.
  - intros v sys e.
    unfold migrateExtension, delete_enabled, set_disabled, set_installed,
      enabledIsFalse.
    destruct (Z.eqb_spec v 1) as [->|Hv1].
    + simpl. destruct (enabled e) as [[|]|]; reflexivity.
    + destruct (v =? 2)%Z; [|reflexivity].
      destruct (forallb (fun x => negb (areSameExtensions (l_identifier x)
                                                         (identifier e)))
                        sys) eqn:Hf; simpl; rewrite Hf; reflexivity.
Qed.

(** The version-2 payload of the samples keeps its two identities. *)
Lemma migration_keeps_identity_witness :
  exists parsed,
    JSON_parse (sampleHost noFault sampleDocuments) "v2" = Ok parsed
    /\ map identifier
           [storedItem "git" None;
            {| identifier := ident "c" None; version := None;
               disabled := None; installed := Some true; enabled := None |}]
       = map identifier parsed.
Proof.
  destruct (@migration_keeps_identity
              World (sampleHost noFault sampleDocuments) (payload 2 "v2")
              (start homeWorld) _ _ eq_refl) as ((parsed & Hp & Hi & _) & _).
  exists parsed. split; [exact Hp | exact Hi].
Defined.

(** X18. A payload that does not parse stops [performReplace] with an
    exception after it has only read: nothing is backed up, installed,
    uninstalled, enabled, disabled, written or persisted. *)
Theorem performReplace_unparsable_payload :
  forall (W : Type) (H : Host W) (replaced : ISyncData)
         (given : IRemoteUserData) (lastSync : option ILastSyncUserData)
         (s : St W) (e : Error),
    JSON_parse H (content replaced) = Throw e ->
    exists err extra,
      fst (performReplace H replaced given lastSync s) = Throw err
      /\ log (snd (performReplace H replaced given lastSync s))
         = log s ++ extra
      /\ Forall (fun ev => isRead ev = true) extra.
Proof.
  intros W H replaced given lastSync s e Hparse.
  unfold performReplace, getLocalExtensions, parseAndMigrateExtensions,
    parseExtensions, liftResult.
  unfold bind, call, ret. cbn [world log].
  destruct (getInstalled H None (world s)) as [[inst|err] w1].
  - cbn [world log].
    destruct (getDisabledExtensions H w1) as [[dis|err] w2].
    + rewrite Hparse. eexists. eexists. rewrite <- app_assoc.
      split; [reflexivity|]. split; [reflexivity | repeat constructor].
    + eexists. eexists. rewrite <- app_assoc.
      split; [reflexivity|]. split; [reflexivity | repeat constructor].
  - eexists. eexists.
    split; [reflexivity|]. split; [reflexivity | repeat constructor].
Qed.

(** A payload that is not among the documents of the sample host. *)
Lemma performReplace_unparsable_payload_witness :
  exists err,
    fst (performReplace (sampleHost noFault sampleDocuments)
                        (payload 3 "not json")
                        {| ref := "r1"; syncData := None |} None
                        (start homeWorld))
    = Throw err.
Proof.
  destruct (@performReplace_unparsable_payload
              World (sampleHost noFault sampleDocuments)
              (payload 3 "not json") {| ref := "r1"; syncData := None |} None
              (start homeWorld) _ eq_refl) as (err & extra & Hr & _).
  exists err. exact Hr.
Defined.

(** ** [format] *)

Lemma Array_sort_of_sorted (l : list ISyncExtension) :
  Sorted.Sorted formatLe l -> Array_sort formatCompare l = l.
Proof.
  induction 1 as [|x l Hs IH Hhd]; simpl; [reflexivity|].
  rewrite IH. destruct Hhd as [|y l' Hxy]; simpl; [reflexivity|].
  unfold formatLe in Hxy.
  destruct (formatCompare x y); try reflexivity. congruence.
Qed.

(** X19. Formatting is idempotent: a list that [format] has put in order
    is left as it is, so formatting the formatted list gives the same text,
    and no item is lost or added on the way. *)
Theorem format_idempotent :
  forall (W : Type) (H : Host W) (extensions : list ISyncExtension),
    formatSorted (formatSorted extensions) = formatSorted extensions
    /\ format H (formatSorted extensions) = format H extensions
    /\ List.length (formatSorted extensions) = List.length extensions.
Proof.
  intros W H l.
  assert (Hid : formatSorted (formatSorted l) = formatSorted l).
  { unfold formatSorted. apply Array_sort_of_sorted.
    apply ExtensionsSyncFacts.Array_sort_sorted. }
  split; [exact Hid|]. split.
  - unfold format. rewrite Hid. reflexivity.
  - symmetry. apply Permutation.Permutation_length.
    apply ExtensionsSyncFacts.Array_sort_perm.
Qed.

(** ** One added or updated item *)

Lemma setEnablementOf_state {W} (H : Host W) (e : ISyncExtension)
      (i : IExtensionIdentifier) (s : St W) :
  setEnablementOf H e i s
  = (fst (enablementCall H e i (world s)),
     {| world := snd (enablementCall H e i (world s));
        log := log s ++ [enablementEvent e i];
        removeFromSkipped := removeFromSkipped s;
        addToSkipped := addToSkipped s |}).
Proof.
  unfold setEnablementOf, enablementCall, enablementEvent, call.
  destruct (truthy (disabled e)).
  - destruct (disableExtension H i (world s)); reflexivity.
  - destruct (enableExtension H i (world s)); reflexivity.
Qed.

Lemma syncExtension_system_run {W} (H : Host W) (e : ISyncExtension)
      (s : St W) (inst : list ILocalExtension) (w1 : W) :
  getInstalled H None (world s) = (Ok inst, w1) ->
  isSystemExtension (installedFor e inst) = true ->
  syncExtension H e s
  = (match fst (enablementCall H e (identifier e) w1) with
     | Ok _ => Ok tt
     | Throw err => Throw err
     end,
     {| world := snd (enablementCall H e (identifier e) w1);
        log := log s ++ [EvGetInstalled None;
                         enablementEvent e (identifier e)];
        removeFromSkipped :=
          match fst (enablementCall H e (identifier e) w1) with
          | Ok _ => removeFromSkipped s ++ [identifier e]
          | Throw _ => removeFromSkipped s
          end;
        addToSkipped := addToSkipped s |}).
Proof.
  intros Hinst Hsys.
  unfold syncExtension. unfold bind at 1. unfold call at 1.
  rewrite Hinst. cbv beta iota zeta.
  fold (installedFor e inst). rewrite Hsys.
  unfold bind. rewrite setEnablementOf_state. cbn [world log fst snd].
  destruct (enablementCall H e (identifier e) w1) as [[u|err] w2];
    cbn [fst snd removeFromSkipped_push world log removeFromSkipped
         addToSkipped];
    rewrite <- app_assoc; reflexivity.
Qed.

(** X20. For an item that matches an installed system extension only the
    enablement is synchronised: after the listing the one call made is the
    enablement call on the item's own identifier, the gallery is not asked
    and nothing is installed; when that call completes the identifier is
    pushed to [removeFromSkipped], and when it throws the exception leaves
    the callback with both arrays as they were. *)
Theorem syncExtension_system_only_enablement :
  forall (W : Type) (H : Host W) (e : ISyncExtension) (s : St W)
         (installedExtensions : list ILocalExtension) (w1 : W),
    getInstalled H None (world s) = (Ok installedExtensions, w1) ->
    isSystemExtension (installedFor e installedExtensions) = true ->
    log (snd (syncExtension H e s))
    = log s ++ [EvGetInstalled None; enablementEvent e (identifier e)]
    /\ world (snd (syncExtension H e s))
       = snd (enablementCall H e (identifier e) w1)
    /\ addToSkipped (snd (syncExtension H e s)) = addToSkipped s
    /\ match fst (enablementCall H e (identifier e) w1) with
       | Ok _ =>
           fst (syncExtension H e s) = Ok tt
           /\ removeFromSkipped (snd (syncExtension H e s))
              = removeFromSkipped s ++ [identifier e]
       | Throw err =>
           fst (syncExtension H e s) = Throw err
           /\ removeFromSkipped (snd (syncExtension H e s))
              = removeFromSkipped s
       end.
Proof.
  intros W H e s inst w1 Hinst Hsys.
  rewrite (syncExtension_system_run H e s Hinst Hsys). cbn [fst snd world log
    removeFromSkipped addToSkipped].
  destruct (enablementCall H e (identifier e) w1) as [[u|err] w2];
    cbn [fst snd]; repeat split.
Qed.

(** The system extension [git] of the sample machine, to be disabled. *)
Lemma syncExtension_system_only_enablement_witness :
  log (snd (syncExtension (sampleHost noFault [])
                          (set_disabled (Some true) (item "git" None))
                          (start homeWorld)))
  = [EvGetInstalled None; EvDisableExtension (ident "git" None)].
Proof.
  destruct (@syncExtension_system_only_enablement
              World (sampleHost noFault [])
              (set_disabled (Some true) (item "git" None)) (start homeWorld)
              _ _ eq_refl eq_refl) as (Hlog & _).
  exact Hlog.
Defined.

(** X21. An item that the gallery does not resolve is skipped and nothing
    else happens to it: after the listing and the gallery query no call is
    made, the item is pushed to [addToSkipped], and the callback
    completes. *)
Theorem syncExtension_unresolved_is_skipped :
  forall (W : Type) (H : Host W) (e : ISyncExtension) (s : St W)
         (installedExtensions : list ILocalExtension) (w1 w2 : W),
    getInstalled H None (world s) = (Ok installedExtensions, w1) ->
    isSystemExtension (installedFor e installedExtensions) = false ->
    getCompatibleExtension H (identifier e) (version e) w1 = (Ok None, w2) ->
    syncExtension H e s
    = (Ok tt,
       {| world := w2;
          log := log s ++ [EvGetInstalled None;
                           EvGetCompatibleExtension (identifier e)
                                                    (version e)];
          removeFromSkipped := removeFromSkipped s;
          addToSkipped := addToSkipped s ++ [e] |}).
Proof.
  intros W H e s inst w1 w2 Hinst Hsys Hgal.
  unfold syncExtension. unfold bind at 1. unfold call at 1.
  rewrite Hinst. cbv beta iota zeta.
  fold (installedFor e inst). rewrite Hsys.
  unfold bind, call. cbn [world log]. rewrite Hgal.
  cbn [addToSkipped_push world log removeFromSkipped addToSkipped].
  rewrite <- app_assoc. reflexivity.
Qed.

(** An item that the gallery of the sample machine does not offer. *)
Lemma syncExtension_unresolved_is_skipped_witness :
  addToSkipped (snd (syncExtension (sampleHost noFault []) (item "zz" None)
                                   (start homeWorld)))
  = [item "zz" None].
Proof.
  rewrite (@syncExtension_unresolved_is_skipped
             World (sampleHost noFault []) (item "zz" None) (start homeWorld)
             _ _ _ eq_refl eq_refl eq_refl).
  reflexivity.
Defined.

Lemma syncExtension_resolved_run {W} (H : Host W) (e : ISyncExtension)
      (s : St W) (inst : list ILocalExtension) (w1 w2 w3 : W)
      (extension : IGalleryExtension) :
  getInstalled H None (world s) = (Ok inst, w1) ->
  isSystemExtension (installedFor e inst) = false ->
  getCompatibleExtension H (identifier e) (version e) w1
  = (Ok (Some extension), w2) ->
  enablementCall H e (g_identifier extension) w2 = (Ok tt, w3) ->
  syncExtension H e s
  = if hasToInstall (installedFor e inst) extension
    then (Ok tt,
          {| world := snd (installFromGallery H extension w3);
             log := log s ++ [EvGetInstalled None;
                              EvGetCompatibleExtension (identifier e)
                                                       (version e);
                              enablementEvent e (g_identifier extension);
                              EvInstallFromGallery extension];
             removeFromSkipped :=
               match fst (installFromGallery H extension w3) with
               | Ok _ => removeFromSkipped s ++ [g_identifier extension]
               | Throw _ => removeFromSkipped s
               end;
             addToSkipped :=
               match fst (installFromGallery H extension w3) with
               | Ok _ => addToSkipped s
               | Throw _ => addToSkipped s ++ [e]
               end |})
    else (Ok tt,
          {| world := w3;
             log := log s ++ [EvGetInstalled None;
                              EvGetCompatibleExtension (identifier e)
                                                       (version e);
                              enablementEvent e (g_identifier extension)];
             removeFromSkipped := removeFromSkipped s;
             addToSkipped := addToSkipped s |}).
Proof.
  intros Hinst Hsys Hgal Hen.
  unfold syncExtension. unfold bind at 1. unfold call at 1.
  rewrite Hinst. cbv beta iota zeta.
  fold (installedFor e inst). rewrite Hsys.
  unfold bind at 1. unfold call at 1. cbn [world log]. rewrite Hgal.
  cbv beta iota.
  unfold try_catch, enableAndInstall. unfold bind at 1.
  rewrite setEnablementOf_state. cbn [world log fst snd]. rewrite Hen.
  cbn [fst snd].
  destruct (hasToInstall (installedFor e inst) extension).
  - unfold bind, call. cbn [world log].
    destruct (installFromGallery H extension w3) as [[u|err] w4];
      cbn [fst snd removeFromSkipped_push addToSkipped_push world log
           removeFromSkipped addToSkipped];
      rewrite <- !app_assoc; reflexivity.
  - unfold ret. rewrite <- !app_assoc. reflexivity.
Qed.

(** X22. For an item that the gallery resolves, the enablement is set
    first, on the identifier of the gallery extension, and when that call
    completes the extension is installed only if it is not installed at all
    or at another version: an item installed at that version gets no
    installation call and leaves both arrays as they were, and an
    installation that completes pushes the gallery identifier to
    [removeFromSkipped]. *)
Theorem syncExtension_enables_then_installs :
  forall (W : Type) (H : Host W) (e : ISyncExtension) (s : St W)
         (installedExtensions : list ILocalExtension) (w1 w2 w3 : W)
         (extension : IGalleryExtension),
    getInstalled H None (world s) = (Ok installedExtensions, w1) ->
    isSystemExtension (installedFor e installedExtensions) = false ->
    getCompatibleExtension H (identifier e) (version e) w1
    = (Ok (Some extension), w2) ->
    enablementCall H e (g_identifier extension) w2 = (Ok tt, w3) ->
    if hasToInstall (installedFor e installedExtensions) extension
    then log (snd (syncExtension H e s))
         = log s ++ [EvGetInstalled None;
                     EvGetCompatibleExtension (identifier e) (version e);
                     enablementEvent e (g_identifier extension);
                     EvInstallFromGallery extension]
         /\ (forall w4,
                installFromGallery H extension w3 = (Ok tt, w4) ->
                removeFromSkipped (snd (syncExtension H e s))
                = removeFromSkipped s ++ [g_identifier extension]
                /\ addToSkipped (snd (syncExtension H e s)) = addToSkipped s
                /\ world (snd (syncExtension H e s)) = w4)
    else syncExtension H e s
         = (Ok tt,
            {| world := w3;
               log := log s ++ [EvGetInstalled None;
                                EvGetCompatibleExtension (identifier e)
                                                         (version e);
                                enablementEvent e (g_identifier extension)];
               removeFromSkipped := removeFromSkipped s;
               addToSkipped := addToSkipped s |}).
Proof.
  intros W H e s inst w1 w2 w3 extension Hinst Hsys Hgal Hen.
  rewrite (syncExtension_resolved_run H e s Hinst Hsys Hgal Hen).
  destruct (hasToInstall (installedFor e inst) extension); [|reflexivity].
  cbn [fst snd world log removeFromSkipped addToSkipped].
  split; [reflexivity|].
  intros w4 Hins. rewrite Hins. cbn [fst snd]. repeat split.
Qed.

(** The extension [b] of the sample gallery, not yet installed. *)
Lemma syncExtension_enables_then_installs_witness :
  log (snd (syncExtension (sampleHost noFault []) (item "b" None)
                          (start homeWorld)))
  = [EvGetInstalled None;
     EvGetCompatibleExtension (ident "b" None) None;
     EvEnableExtension (ident "b" None);
     EvInstallFromGallery {| g_identifier := ident "b" None;
                             g_version := "2.0.0" |}].
Proof.
  exact (proj1 (@syncExtension_enables_then_installs
                  World (sampleHost noFault []) (item "b" None)
                  (start homeWorld) _ _ _ _ _ eq_refl eq_refl eq_refl
                  eq_refl)).
Defined.

(** ** Callbacks side by side *)

Section StartTogether.

Context {W : Type} (H : Host W).

Let afterListing (ev : Event) : Prop := isListing ev = false.

Lemma emitting_syncListed (e : ISyncExtension) (l : list ILocalExtension) :
  AsyncKeeps (emitting afterListing) (syncListed H e l).
Proof.
  apply (ExtensionsSyncFacts.AsyncKeeps_syncListed
           H (@ExtensionsSyncFacts.emitting_refl W afterListing)
           (@ExtensionsSyncFacts.emitting_trans W afterListing));
    intros; try (apply ExtensionsSyncFacts.emitting_same; reflexivity);
    apply ExtensionsSyncFacts.emitting_call; reflexivity.
Qed.

Lemma startAll_listings (items : list ISyncExtension) (s : St W) :
  log (snd (startAll (syncExtensionAsync H) items s))
  = log s ++ repeat (EvGetInstalled None) (List.length items)
  /\ Forall (TaskKeeps (emitting afterListing))
            (fst (startAll (syncExtensionAsync H) items s))
  /\ firstRejection (fst (startAll (syncExtensionAsync H) items s)) = None.
Proof.
  revert s. induction items as [|e rest IH]; intros s; simpl.
  - rewrite app_nil_r. repeat split. constructor.
  - unfold syncExtensionAsync at 1 3 5.
    rewrite ExtensionsSyncFacts.abind_await_call.
    match goal with
    | |- context [startAll _ rest ?st] =>
        destruct (IH st) as (Hlog & Hts & Hrej);
        destruct (startAll (syncExtensionAsync H) rest st) as [ts s2]
    end.
    cbn [fst snd] in *. split; [|split; [|exact Hrej]].
    + rewrite Hlog. unfold call. destruct (getInstalled H None (world s)).
      cbn [snd log]. rewrite <- app_assoc. reflexivity.
    + constructor; [|exact Hts]. cbn [TaskKeeps]. intros s'.
      destruct (fst (getInstalled H None (world s))) as [l|err].
      * apply emitting_syncListed.
      * split; [apply ExtensionsSyncFacts.emitting_refl | exact I].
Qed.

End StartTogether.

(** X29. The callbacks of the added and updated items are all started
    before any of them goes on: with nothing to remove, the local apply
    first lists the installed extensions once for every added or updated
    item, and only then asks the gallery, sets an enablement or installs;
    it does not list again.  So whether an item has to be installed is
    decided on a listing made before any installation of the batch. *)
Theorem callbacks_start_together :
  forall (W : Type) (H : Host W) (added updated skipped : list ISyncExtension)
         (s : St W),
  exists rest,
    log (snd (updateLocalExtensions H added [] updated skipped s))
    = log s ++ repeat (EvGetInstalled None) (List.length (added ++ updated))
            ++ rest
    /\ Forall (fun ev => isListing ev = false) rest.
Proof.
  intros W H added updated skipped s.
  unfold updateLocalExtensions, bind, freshArrays. cbn [nonEmpty].
  unfold ret at 1. cbv beta iota.
  destruct (nonEmpty added || nonEmpty updated) eqn:Hne.
  - unfold Promise_all_map, Promise_all_run.
    match goal with
    | |- context [startAll _ _ ?st] =>
        destruct (startAll_listings H (added ++ updated) st)
          as (Hlog & Hts & Hrej);
        destruct (startAll (syncExtensionAsync H) (added ++ updated) st)
          as [ts s1]
    end.
    cbn [fst snd log] in Hlog, Hts, Hrej. rewrite Hrej.
    pose proof (@ExtensionsSyncFacts.resolveAll_keeps
                  W _ (@ExtensionsSyncFacts.emitting_refl W _)
                  (@ExtensionsSyncFacts.emitting_trans W _)
                  (resolutionOrder H (world s1)) (suspended ts) s1
                  (@ExtensionsSyncFacts.suspended_keeps W _ ts Hts)) as Hres.
    destruct (resolveAll (resolutionOrder H (world s1)) (suspended ts) s1)
      as [[r left] s2].
    cbn [snd] in Hres. destruct Hres as (rest & Hrest & Hall).
    exists rest. destruct r; cbn [snd log]; rewrite Hrest, Hlog, <- app_assoc;
      auto.
  - exists []. rewrite (ExtensionsSyncFacts.nonEmpty_app_false _ _ Hne).
    cbn. rewrite app_nil_r. split; [reflexivity | constructor].
Qed.

(** The item [b] is added twice, and the callbacks are resumed in turn:
    both callbacks list before either installs, both find [b] missing, and
    [b] is installed twice. *)
Lemma callbacks_start_together_witness :
  log (snd (updateLocalExtensions (sampleHost noFault [])
                                  [item "b" None; item "b" None] [] [] []
                                  (start homeWorld)))
  = [EvGetInstalled None; EvGetInstalled None;
     EvGetCompatibleExtension (ident "b" None) None;
     EvGetCompatibleExtension (ident "b" None) None;
     EvEnableExtension (ident "b" None);
     EvEnableExtension (ident "b" None);
     EvInstallFromGallery {| g_identifier := ident "b" None;
                             g_version := "2.0.0" |};
     EvInstallFromGallery {| g_identifier := ident "b" None;
                             g_version := "2.0.0" |}]
  /\ exists rest,
      log (snd (updateLocalExtensions (sampleHost noFault [])
                                      [item "b" None; item "b" None] [] [] []
                                      (start homeWorld)))
      = repeat (EvGetInstalled None) 2 ++ rest
      /\ Forall (fun ev => isListing ev = false) rest.
Proof.
  split; [reflexivity|].
  exact (callbacks_start_together (sampleHost noFault [])
                                  [item "b" None; item "b" None] [] []
                                  (start homeWorld)).
Defined.

End ExtensionsSyncRunsFacts.

(** * Properties of the notebook provider selectors *)

Module NotebookProviderFacts.

Import Uri NotebookProvider.

Local Open Scope string_scope.
Local Open Scope list_scope.

Lemma foldCaseAscii_idempotent (c : ascii) :
  ExtensionsSync.foldCaseAscii (ExtensionsSync.foldCaseAscii c)
  = ExtensionsSync.foldCaseAscii c.
Proof. destruct c as [[] [] [] [] [] [] [] []]; reflexivity. Qed.

Lemma sampleToLowerCase_idempotent (x : string) :
  sampleToLowerCase (sampleToLowerCase x) = sampleToLowerCase x.
Proof.
  unfold sampleToLowerCase.
  induction x as [|c x IH]; simpl; [reflexivity|].
  rewrite foldCaseAscii_idempotent, IH. reflexivity.
Qed.

Lemma sampleToLowerCase_empty (x : string) :
  sampleToLowerCase x = EmptyString <-> x = EmptyString.
Proof. destruct x as [|c x]; simpl; split; congruence. Qed.

Section Facts.

Variable toLowerCase : string -> string.
Variable glob_match : string -> string -> bool.
Variable basename : string -> string.
Variable fsPath : URI -> string.

Lemma selectorMatches_by_name (selector : NotebookSelector) (r1 r2 : URI) :
  lowerName toLowerCase basename fsPath r1
  = lowerName toLowerCase basename fsPath r2 ->
  selectorMatches toLowerCase glob_match basename fsPath selector r1
  = selectorMatches toLowerCase glob_match basename fsPath selector r2.
Proof. intros Hname. unfold selectorMatches. rewrite Hname. reflexivity. Qed.

Hypothesis lower_idempotent :
  forall x, toLowerCase (toLowerCase x) = toLowerCase x.
Hypothesis lower_empty :
  forall x, toLowerCase x = EmptyString <-> x = EmptyString.

Lemma truthyString_lower (o : option string) :
  ExtensionsSync.truthyString (option_map toLowerCase o)
  = ExtensionsSync.truthyString o.
Proof.
  destruct o as [x|]; [|reflexivity]. simpl.
  destruct x as [|c x]; [rewrite (proj2 (lower_empty _) eq_refl); reflexivity|].
  destruct (toLowerCase (String c x)) eqn:Hl; [|reflexivity].
  apply (proj1 (lower_empty _)) in Hl. discriminate Hl.
Qed.

Lemma selectorMatches_lowerSelector (selector : NotebookSelector) (r : URI) :
  selectorMatches toLowerCase glob_match basename fsPath
                  (lowerSelector toLowerCase selector) r
  = selectorMatches toLowerCase glob_match basename fsPath selector r.
Proof.
  unfold selectorMatches, lowerSelector.
  cbn [filenamePattern excludeFileNamePattern].
  rewrite !truthyString_lower.
  destruct (filenamePattern selector) as [p|]; simpl; [|reflexivity].
  rewrite lower_idempotent.
  destruct (excludeFileNamePattern selector) as [x|]; simpl; [|reflexivity].
  rewrite lower_idempotent. reflexivity.
Qed.

End Facts.

(** X23. Whether a provider takes a file depends on the file only through
    the lower-case form of its base name, whatever lower-casing is: two
    resources whose base names have the same lower-case form are matched
    alike.  And when lower-casing a second time changes nothing and only
    the empty string becomes empty, writing the patterns of the selectors in
    lower case changes no answer. *)
Theorem notebook_matching_ignores_case :
  forall (toLowerCase : string -> string)
         (glob_match : string -> string -> bool)
         (basename : string -> string) (fsPath : URI -> string)
         (selector : list NotebookSelector) (r1 r2 : URI),
    toLowerCase (basename (fsPath r1)) = toLowerCase (basename (fsPath r2)) ->
    matches toLowerCase glob_match basename fsPath selector r1
    = matches toLowerCase glob_match basename fsPath selector r2
    /\ ((forall x, toLowerCase (toLowerCase x) = toLowerCase x) ->
        (forall x, toLowerCase x = EmptyString <-> x = EmptyString) ->
        matches toLowerCase glob_match basename fsPath
                (map (lowerSelector toLowerCase) selector) r1
        = matches toLowerCase glob_match basename fsPath selector r2).
Proof.
  intros toLowerCase glob_match basename fsPath selector r1 r2 Hname.
  assert (H12 : matches toLowerCase glob_match basename fsPath selector r1
                = matches toLowerCase glob_match basename fsPath selector r2).
  { unfold matches. induction selector as [|sel rest IH]; simpl;
      [reflexivity|].
    rewrite IH.
    rewrite (selectorMatches_by_name toLowerCase glob_match basename fsPath
                                     sel r1 r2 Hname).
    reflexivity. }
  split; [exact H12|]. intros Hidem Hempty. rewrite <- H12.
  clear H12 Hname. unfold matches.
  induction selector as [|sel rest IH]; simpl; [reflexivity|].
  rewrite (selectorMatches_lowerSelector toLowerCase glob_match basename
                                         fsPath Hidem Hempty).
  rewrite IH. reflexivity.
Qed.

(** A notebook whose name is written in capitals, under the lower-casing of
    the ASCII letters. *)
Lemma notebook_matching_ignores_case_witness :
  matches sampleToLowerCase sampleGlob sampleBasename sampleFsPathOf
          [ipynbSelector] (fileUri "/work/NOTES.IPYNB")
  = matches sampleToLowerCase sampleGlob sampleBasename sampleFsPathOf
            [ipynbSelector] (fileUri "/work/notes.ipynb")
  /\ matches sampleToLowerCase sampleGlob sampleBasename sampleFsPathOf
             (map (lowerSelector sampleToLowerCase) [ipynbSelector])
             (fileUri "/work/NOTES.IPYNB")
     = matches sampleToLowerCase sampleGlob sampleBasename sampleFsPathOf
               [ipynbSelector] (fileUri "/work/notes.ipynb").
Proof.
  destruct (@notebook_matching_ignores_case
              sampleToLowerCase sampleGlob sampleBasename sampleFsPathOf
              [ipynbSelector]
              (fileUri "/work/NOTES.IPYNB") (fileUri "/work/notes.ipynb")
              eq_refl) as [H1 H2].
  split; [exact H1|].
  exact (H2 sampleToLowerCase_idempotent sampleToLowerCase_empty).
Defined.

End NotebookProviderFacts.

(** * Properties of the webview resource loader *)

Module WebviewResourceFacts.

Import Uri WebviewResource.

Local Open Scope string_scope.
Local Open Scope list_scope.

Lemma prefix_iff (p x : string) :
  String.prefix p x = true <-> exists rest, x = (p ++ rest)%string.
Proof.
  revert x. induction p as [|a p IH]; intros x.
  - split; [intros _; exists x; reflexivity | destruct x; reflexivity].
  - destruct x as [|b x]; simpl.
    + split; [discriminate | intros (rest & Heq); discriminate].
    + destruct (ascii_dec a b) as [->|Hab].
      * rewrite IH. split; intros (rest & Heq); exists rest.
        -- rewrite Heq. reflexivity.
        -- injection Heq as ->. reflexivity.
      * split; [discriminate|]. intros (rest & Heq).
        injection Heq as Hb _. congruence.
Qed.

Lemma length_append (a b : string) :
  String.length (a ++ b)%string = String.length a + String.length b.
Proof. induction a as [|c a IH]; simpl; [reflexivity | rewrite IH; reflexivity]. Qed.

Lemma prefix_length (p x : string) :
  String.prefix p x = true -> String.length p <= String.length x.
Proof.
  intros Hp. apply prefix_iff in Hp. destruct Hp as (rest & ->).
  rewrite length_append. apply Nat.le_add_r.
Qed.

Section Facts.

Variable toLowerCase : string -> string.
Variable fsPath : URI -> string.
Variable URI_parse : string -> URI.
Variable isUNC : string -> bool.
Variable sep : string.
Variable vscodeWebviewResource : string.
Variable oldVscodeWebviewResource : string.
Variable REMOTE_HOST_SCHEME : string.
Variable replaceSchemeSegment : string -> string.
Variable encodePath : string -> string.
Variable requestResourcePathQuery : string -> string.

Let contains := containsResource toLowerCase fsPath isUNC sep.
Let normalize :=
  normalizeRequestPath URI_parse vscodeWebviewResource
                       oldVscodeWebviewResource replaceSchemeSegment
                       encodePath.
Let toLoad :=
  getResourceToLoad toLowerCase fsPath URI_parse isUNC sep
                    vscodeWebviewResource
                    oldVscodeWebviewResource REMOTE_HOST_SCHEME
                    replaceSchemeSegment encodePath requestResourcePathQuery.

Lemma firstContaining_spec (n : URI) (ext : option URI) (roots : list URI) :
  firstContaining toLowerCase fsPath isUNC sep REMOTE_HOST_SCHEME
                  requestResourcePathQuery n ext roots
  = if existsb (fun root => contains root n) roots
    then Some (resourceFor REMOTE_HOST_SCHEME requestResourcePathQuery n ext)
    else None.
Proof.
  induction roots as [|root rest IH]; simpl; [reflexivity|].
  unfold contains in *.
  destruct (containsResource toLowerCase fsPath isUNC sep root n);
    simpl; [reflexivity | exact IH].
Qed.

Lemma toLoad_None (req : URI) (ext : option URI) (roots : list URI) :
  toLoad req ext roots = None <->
  forall root, In root roots -> contains root (normalize req) = false.
Proof.
  unfold toLoad, getResourceToLoad. rewrite firstContaining_spec.
  fold normalize.
  destruct (existsb (fun root => contains root (normalize req)) roots)
    eqn:He.
  - split; [discriminate|]. intros Hall.
    apply existsb_exists in He. destruct He as (root & Hin & Hc).
    rewrite (Hall root Hin) in Hc. discriminate.
  - split; [|reflexivity]. intros _ root Hin.
    destruct (contains root (normalize req)) eqn:Hc; [|reflexivity].
    assert (existsb (fun root => contains root (normalize req)) roots = true)
      by (apply existsb_exists; exists root; auto).
    congruence.
Qed.

End Facts.

(** X25. A root contains a resource only if the path of the resource
    continues the path of the root with a separator in between; when both
    are UNC paths this holds of their lower-case forms, whatever lower-casing
    is.  So, between paths that are not both UNC paths, the path of a
    contained resource is at least as long as the root path with its
    separator, and a root that is not a UNC path and does not end with the
    separator does not contain itself. *)
Theorem containsResource_needs_separator :
  forall (toLowerCase : string -> string) (fsPath : URI -> string)
         (isUNC : string -> bool) (sep : string) (root resource : URI),
    (containsResource toLowerCase fsPath isUNC sep root resource = true ->
     (exists rest,
         if isUNC (fsPath root) && isUNC (fsPath resource)
         then toLowerCase (fsPath resource)
              = (toLowerCase (rootPathOf fsPath sep root) ++ rest)%string
         else fsPath resource = (rootPathOf fsPath sep root ++ rest)%string)
     /\ (isUNC (fsPath root) && isUNC (fsPath resource) = false ->
         String.length (rootPathOf fsPath sep root)
         <= String.length (fsPath resource)))
    /\ (endsWith (fsPath root) sep = false -> sep <> EmptyString ->
        isUNC (fsPath root) = false ->
        containsResource toLowerCase fsPath isUNC sep root root = false).
Proof.
  intros toLowerCase fsPath isUNC sep root resource. split.
  - unfold containsResource.
    destruct (isUNC (fsPath root) && isUNC (fsPath resource)); intros Hp.
    + split; [apply prefix_iff; exact Hp | discriminate].
    + split; [apply prefix_iff; exact Hp|].
      intros _. apply prefix_length. exact Hp.
  - intros Hends Hsep Hunc.
    assert (Hlen : String.length (fsPath root)
                   < String.length (rootPathOf fsPath sep root)).
    { unfold rootPathOf. rewrite Hends, length_append.
      destruct sep as [|c sep']; [congruence|]. simpl. lia. }
    unfold containsResource. rewrite Hunc. cbn [andb].
    destruct (String.prefix _ _) eqn:Hp; [|reflexivity].
    apply prefix_length in Hp. lia.
Qed.

(** Two UNC paths that differ in case, under the lower-casing of the ASCII
    letters: the share contains the file. *)
Lemma containsResource_needs_separator_witness :
  containsResource NotebookProvider.sampleToLowerCase sampleFsPath sampleIsUNC
                   "/" (NotebookProvider.fileUri "//SERVER/Share")
                   (NotebookProvider.fileUri "//server/share/main.css")
  = true
  /\ exists rest,
      NotebookProvider.sampleToLowerCase "//server/share/main.css"
      = (NotebookProvider.sampleToLowerCase
           (rootPathOf sampleFsPath "/"
                       (NotebookProvider.fileUri "//SERVER/Share"))
         ++ rest)%string.
Proof.
  split; [reflexivity|].
  destruct (containsResource_needs_separator
              NotebookProvider.sampleToLowerCase sampleFsPath sampleIsUNC "/"
              (NotebookProvider.fileUri "//SERVER/Share")
              (NotebookProvider.fileUri "//server/share/main.css"))
    as (Hc & _).
  destruct (Hc eq_refl) as ((rest & Hrest) & _).
  exists rest. exact Hrest.
Defined.

(** X26. [getResourceToLoad] finds nothing exactly when no root contains the
    normalized request; what it finds does not depend on which root contains
    it, so roots given in another order or more than once give the same
    answer; and the answer is the normalized request itself, unless the
    extension is remote, when it is the [/vscode-resource] URI on the
    authority of the extension that carries the normalized path in its
    query. *)
Theorem getResourceToLoad_any_root :
  forall (toLowerCase : string -> string)
         (fsPath : URI -> string) (URI_parse : string -> URI)
         (isUNC : string -> bool)
         (sep vscodeWebviewResource oldVscodeWebviewResource
              REMOTE_HOST_SCHEME : string)
         (replaceSchemeSegment encodePath requestResourcePathQuery
            : string -> string)
         (requestUri : URI) (extensionLocation : option URI)
         (roots : list URI),
    let normalized :=
      normalizeRequestPath URI_parse vscodeWebviewResource
                           oldVscodeWebviewResource replaceSchemeSegment
                           encodePath requestUri in
    let toLoad :=
      getResourceToLoad toLowerCase fsPath URI_parse isUNC sep
                        vscodeWebviewResource
                        oldVscodeWebviewResource REMOTE_HOST_SCHEME
                        replaceSchemeSegment encodePath
                        requestResourcePathQuery requestUri
                        extensionLocation in
    (toLoad roots = None <->
     forall root, In root roots ->
                  containsResource toLowerCase fsPath isUNC sep root
                                   normalized = false)
    /\ (forall roots',
           (forall root, In root roots <-> In root roots') ->
           toLoad roots' = toLoad roots)
    /\ (forall u,
           toLoad roots = Some u ->
           match extensionLocation with
           | Some location =>
               if String.eqb (scheme location) REMOTE_HOST_SCHEME
               then scheme u = REMOTE_HOST_SCHEME
                    /\ authority u = authority location
                    /\ path u = "/vscode-resource"
                    /\ query u = requestResourcePathQuery (path normalized)
               else u = normalized
           | None => u = normalized
           end).
Proof.
  intros toLowerCase fsPath URI_parse isUNC sep new old remote replace encode
         queryOf req ext roots normalized toLoad.
  split; [apply toLoad_None|]. split.
  - intros roots' Hsame. subst toLoad. unfold getResourceToLoad.
    rewrite !firstContaining_spec. fold normalized.
    assert (He : existsb (fun root => containsResource toLowerCase fsPath
                                                       isUNC sep root
                                                       normalized) roots'
                 = existsb (fun root => containsResource toLowerCase fsPath
                                                         isUNC sep root
                                                         normalized) roots).
    { apply eq_true_iff_eq. rewrite !existsb_exists.
      split; intros (root & Hin & Hc); exists root;
        (split; [apply Hsame; exact Hin | exact Hc]). }
    rewrite He. reflexivity.
  - intros u. subst toLoad. unfold getResourceToLoad.
    rewrite firstContaining_spec. fold normalized.
    destruct (existsb _ roots); [|discriminate].
    intros Hu. injection Hu as <-. unfold resourceFor.
    destruct ext as [location|]; [|reflexivity].
    destruct (String.eqb (scheme location) remote); [|reflexivity].
    simpl. auto.
Qed.

(** X27. The normalization of a request never changes its query nor its
    fragment; a request of another scheme than the two webview schemes is
    left as it is, and an old-style request without authority becomes a
    [file] URI without authority whose path begins with a slash, and is the
    path of the request when that began with one. *)
Theorem normalizeRequestPath_keeps_query_fragment :
  forall (URI_parse : string -> URI)
         (vscodeWebviewResource oldVscodeWebviewResource : string)
         (replaceSchemeSegment encodePath : string -> string)
         (requestUri : URI),
    let normalized :=
      normalizeRequestPath URI_parse vscodeWebviewResource
                           oldVscodeWebviewResource replaceSchemeSegment
                           encodePath requestUri in
    query normalized = query requestUri
    /\ fragment normalized = fragment requestUri
    /\ (if String.eqb (scheme requestUri) vscodeWebviewResource then True
        else if String.eqb (scheme requestUri) oldVscodeWebviewResource
             then authority requestUri = EmptyString ->
                  scheme normalized = "file"
                  /\ authority normalized = EmptyString
                  /\ String.prefix "/" (path normalized) = true
                  /\ (String.prefix "/" (path requestUri) = true ->
                      path normalized = path requestUri)
             else normalized = requestUri).
Proof.
  intros URI_parse new old replace encode req normalized.
  subst normalized. unfold normalizeRequestPath.
  destruct (String.eqb (scheme req) new); [simpl; auto|].
  destruct (String.eqb (scheme req) old); [|auto].
  destruct (authority req) as [|c a] eqn:Ha; simpl;
    [|split; [|split]; auto; discriminate].
  split; [reflexivity|]. split; [reflexivity|]. intros _.
  split; [reflexivity|]. split; [exact Ha|].
  unfold referenceResolution. cbn [String.eqb Ascii.eqb Bool.eqb orb].
  destruct (path req) as [|c p]; [split; [reflexivity | discriminate]|].
  destruct (Ascii.eqb_spec c "/"%char) as [->|Hc].
  - split; [|reflexivity]. apply prefix_iff. exists p. reflexivity.
  - split.
    + apply prefix_iff. exists (String c p). reflexivity.
    + intros Hp. apply prefix_iff in Hp. destruct Hp as (rest & Heq).
      injection Heq as Hc' _. congruence.
Qed.

(** X28. Loading a local resource is denied exactly when no root contains
    the normalized request, and then the file service is not called; a
    success carries what the file service read at the resource to load
    together with the mime type of the request as it came, not of the
    normalized one; a failure is a read that threw. *)
Theorem loadLocalResource_outcomes :
  forall (toLowerCase : string -> string)
         (fsPath : URI -> string) (URI_parse : string -> URI)
         (isUNC : string -> bool)
         (sep vscodeWebviewResource oldVscodeWebviewResource
              REMOTE_HOST_SCHEME : string)
         (replaceSchemeSegment encodePath requestResourcePathQuery
            : string -> string)
         (getWebviewContentMimeType : URI -> string)
         (W Payload : Type) (read : URI -> W -> result Payload * W)
         (requestUri : URI) (extensionLocation : option URI)
         (roots : list URI) (w : W),
    let normalized :=
      normalizeRequestPath URI_parse vscodeWebviewResource
                           oldVscodeWebviewResource replaceSchemeSegment
                           encodePath requestUri in
    let toLoad :=
      getResourceToLoad toLowerCase fsPath URI_parse isUNC sep
                        vscodeWebviewResource
                        oldVscodeWebviewResource REMOTE_HOST_SCHEME
                        replaceSchemeSegment encodePath
                        requestResourcePathQuery requestUri
                        extensionLocation roots in
    let out :=
      loadLocalResource toLowerCase fsPath URI_parse isUNC sep
                        vscodeWebviewResource
                        oldVscodeWebviewResource REMOTE_HOST_SCHEME
                        replaceSchemeSegment encodePath
                        requestResourcePathQuery getWebviewContentMimeType
                        read requestUri extensionLocation roots w in
    (fst out = AccessDenied <->
     forall root, In root roots ->
                  containsResource toLowerCase fsPath isUNC sep root
                                   normalized = false)
    /\ (fst out = AccessDenied -> snd out = w)
    /\ (forall data mimeType,
           fst out = Success data mimeType ->
           mimeType = getWebviewContentMimeType requestUri
           /\ exists u, toLoad = Some u /\ read u w = (Ok data, snd out))
    /\ (fst out = Failed ->
        exists u err, toLoad = Some u /\ read u w = (Throw err, snd out)).
Proof.
  intros toLowerCase fsPath URI_parse isUNC sep new old remote replace encode
         queryOf mime W Payload read req ext roots w normalized toLoad out.
  pose proof (toLoad_None toLowerCase fsPath URI_parse isUNC sep new old
                          remote replace encode queryOf req ext roots)
    as Hnone.
  fold normalized in Hnone. fold toLoad in Hnone.
  subst out. unfold loadLocalResource. fold toLoad.
  destruct toLoad as [u|] eqn:Hu.
  - destruct (read u w) as [[data|err] w'] eqn:Hread; simpl.
    + split; [split; [discriminate | intros Hall; apply Hnone in Hall;
                                      discriminate]|].
      split; [discriminate|]. split; [|discriminate].
      intros d m Heq. injection Heq as <- <-.
      split; [reflexivity|]. exists u. auto.
    + split; [split; [discriminate | intros Hall; apply Hnone in Hall;
                                      discriminate]|].
      split; [discriminate|]. split; [discriminate|].
      intros _. exists u, err. auto.
  - simpl. split; [split; [intros _; apply Hnone; reflexivity | reflexivity]|].
    split; [reflexivity|]. split; discriminate.
Qed.

End WebviewResourceFacts.
